(** * LaserSnapV2: acquisition ledger, file watcher, sequencer and cube
      aggregation

    A shallow embedding of the stateful core of [LaserSnapV2.py]:
    the CSV acquisition ledger ([update_acquisition_log],
    [load_acquisition_from_csv]), the file-arrival watcher
    ([wait_for_new_file]), the acquisition driver ([execute_commands]),
    the cube aggregation routines ([sum_selected_cubes],
    [average_selected_cubes], [add_cubes_for_same_wavelength]), the
    selection of loaded cubes ([toggle_image_selection],
    [select_by_wavelength], [filter_images]), the resume entry point
    ([resume_acquisition]) and the naming and copying of the folders of a
    run ([rename_and_copy_folders], the name parsing of [process_folder]).

    Conventions of the embedding.
    - Python [int] values are [Z]; [str] values are [string].
    - A CSV file is the list of rows [csv.reader] yields for it, each row a
      list of cells; [csv.writer] followed by [csv.reader] is taken to be
      the identity on such tables.
    - The file system is a finite map from paths to tables.
    - A raised exception is the [Raise] result of the [result] monad.
    - Calls that reach the outside world (devices, dialogs, the clock) are
      either recorded in an event trace or answered by an explicit
      environment argument. *)

From Stdlib Require Import ZArith NArith String Ascii List Lia Bool.
From Stdlib Require Import DecimalString DecimalN DecimalPos DecimalFacts.
From Stdlib Require Import Floats Sorted.
From stdpp Require Import base tactics option list gmap strings.

Import ListNotations.
Local Open Scope string_scope.
Local Open Scope Z_scope.
Local Open Scope list_scope.

(** ** Exceptions and the result monad *)

Inductive exn : Type :=
| ValueError
| KeyError (key : string)
| AssertionError (msg : string)
| NameError (name : string)
| IndexError
| OSError.

Inductive result (A : Type) : Type :=
| Ok (a : A)
| Raise (e : exn).
Arguments Ok {A} a.
Arguments Raise {A} e.

#[global] Instance result_ret : MRet result := fun A a => Ok a.
#[global] Instance result_bind : MBind result := fun A B k m =>
  match m with
  | Ok a => k a
  | Raise e => Raise e
  end.

(** ** Python's [str] and [int] on integers *)

Module Py.

(** [str(z)]: canonical decimal, a leading minus for negatives. *)
Definition str (z : Z) : string :=
  match z with
  | Z0 => "0"
  | Zpos p => NilEmpty.string_of_uint (Pos.to_uint p)
  | Zneg p => String "-" (NilEmpty.string_of_uint (Pos.to_uint p))
  end.

(** The characters [int()] skips around the numeral of an ASCII string:
    tab, line feed, vertical tab, form feed, carriage return and space. *)
Definition is_space (c : ascii) : bool :=
  let n := nat_of_ascii c in
  ((9 <=? n) && (n <=? 13) || (n =? 32))%nat.

Fixpoint lstrip (s : string) : string :=
  match s with
  | String c s' => if is_space c then lstrip s' else s
  | EmptyString => EmptyString
  end.

Fixpoint rstrip (s : string) : string :=
  match s with
  | EmptyString => EmptyString
  | String c s' =>
      match rstrip s' with
      | EmptyString => if is_space c then EmptyString else String c EmptyString
      | r => String c r
      end
  end.

Definition strip (s : string) : string := rstrip (lstrip s).

Definition digit_of (c : ascii) : option Z :=
  let n := nat_of_ascii c in
  if ((48 <=? n) && (n <=? 57))%nat then Some (Z.of_nat n - 48) else None.

(** Digits of a decimal literal, most significant first; a single
    underscore is allowed between two digits. [after_digit] tells
    whether the previous character was a digit. *)
Fixpoint digits (s : string) (acc : Z) (after_digit : bool) : option Z :=
  match s with
  | EmptyString => if after_digit then Some acc else None
  | String c s' =>
      match digit_of c with
      | Some d => digits s' (10 * acc + d) true
      | None =>
          if (Ascii.eqb c "_" && after_digit)%bool
          then match s' with
               | EmptyString => None
               | String c' _ =>
                   match digit_of c' with
                   | Some _ => digits s' acc false
                   | None => None
                   end
               end
          else None
      end
  end.

(** [int(s)] in base ten for an ASCII string: surrounding whitespace is
    dropped, one sign is allowed. [None] stands for [ValueError]. *)
Definition int (s : string) : option Z :=
  match strip s with
  | String "-" s' => Z.opp <$> digits s' 0 false
  | String "+" s' => digits s' 0 false
  | s' => digits s' 0 false
  end.

(** [s.endswith(suffix)] *)
Definition endswith (s suffix : string) : bool :=
  let n := String.length s in
  let m := String.length suffix in
  if (m <=? n)%nat then String.eqb (substring (n - m) m s) suffix else false.

Fixpoint split_go (sep : ascii) (s : string) (cur : string) : list string :=
  match s with
  | EmptyString => [cur]
  | String c s' =>
      if Ascii.eqb c sep then cur :: split_go sep s' EmptyString
      else split_go sep s' (cur +:+ String c EmptyString)
  end.

(** [s.split(sep)] for a one-character separator. *)
Definition split (sep : ascii) (s : string) : list string :=
  split_go sep s EmptyString.

(** Auxiliary notions for the facts about [int] and [str]: the value of a
    decimal numeral read most significant digit first, and strings free of
    strippable characters. *)
Fixpoint uint_value (d : Decimal.uint) (acc : Z) : Z :=
  match d with
  | Decimal.Nil => acc
  | Decimal.D0 d => uint_value d (10 * acc + 0)
  | Decimal.D1 d => uint_value d (10 * acc + 1)
  | Decimal.D2 d => uint_value d (10 * acc + 2)
  | Decimal.D3 d => uint_value d (10 * acc + 3)
  | Decimal.D4 d => uint_value d (10 * acc + 4)
  | Decimal.D5 d => uint_value d (10 * acc + 5)
  | Decimal.D6 d => uint_value d (10 * acc + 6)
  | Decimal.D7 d => uint_value d (10 * acc + 7)
  | Decimal.D8 d => uint_value d (10 * acc + 8)
  | Decimal.D9 d => uint_value d (10 * acc + 9)
  end.

Definition no_space (s : string) : Prop :=
  forall c, In c (list_ascii_of_string s) -> is_space c = false.

End Py.

(** ** The acquisition ledger *)

Module Ledger.

Abbreviation row := (list string).
Abbreviation table := (list (list string)).

Definition status_pending : string := "pending".
Definition status_completed : string := "completed".
Definition status_timeout : string := "timeout".
Definition status_cancelled : string := "cancelled".

Definition header_row : row :=
  ["Index"; "Wavelength"; "Picture_Number"; "Expected_Name";
   "Raw_Filename"; "Status"; "Timestamp"; "File_Size_Bytes"].

(** [os.path.join] on a directory and a plain file name. *)
Definition path_join (dir name : string) : string := dir +:+ "/" +:+ name.

(** [create_acquisition_log_file]. [timestamp] is the formatted clock
    reading; the result is the new file system and the log path. *)
Definition create_acquisition_log_file
    (fs : gmap string table) (output_path project_name timestamp : string)
    : gmap string table * string :=
  let log_filename :=
    "acquisition_log_" +:+ project_name +:+ "_" +:+ timestamp +:+ ".csv" in
  let log_path := path_join output_path log_filename in
  (<[log_path := [header_row]]> fs, log_path).

(** The search loop of [update_acquisition_log] over
    [enumerate(existing_data[1:], 1)]: position of the first row whose
    first cell reads as [index]. An unreadable first cell met on the way
    raises [ValueError]; rows after the match are not looked at. *)
Fixpoint find_entry (rows : list row) (index : Z) (i : nat)
    : result (option nat) :=
  match rows with
  | [] => Ok None
  | r :: rows' =>
      match r with
      | [] => find_entry rows' index (S i)
      | c :: _ =>
          match Py.int c with
          | None => Raise ValueError
          | Some z =>
              if Z.eqb z index then Ok (Some i)
              else find_entry rows' index (S i)
          end
      end
  end.

(** [update_acquisition_log]. [now] is the formatted clock reading taken
    on entry. A missing file reads as the empty table. *)
Definition update_acquisition_log
    (now : string) (fs : gmap string table) (log_path : string)
    (index : Z) (wavelength : string) (pic_num : Z)
    (expected_name raw_filename status : string) (file_size : Z)
    : result (gmap string table) :=
  let existing_data : table := default [] (fs !! log_path) in
  let entry : row :=
    [Py.str index; wavelength; Py.str pic_num; expected_name;
     raw_filename; status; now; Py.str file_size] in
  found ← find_entry (tail existing_data) index 1;
  let existing_data :=
    match found with
    | Some i => <[i := entry]> existing_data
    | None =>
        match existing_data with
        | [] => existing_data
        | _ :: _ => existing_data ++ [entry]
        end
    end in
  mret (<[log_path := existing_data]> fs).

(** One call of [update_acquisition_log], with its clock reading. *)
Record call : Type := Call {
  c_now : string;
  c_index : Z;
  c_wavelength : string;
  c_pic_num : Z;
  c_expected_name : string;
  c_raw_filename : string;
  c_status : string;
  c_file_size : Z
}.

Definition call_row (c : call) : row :=
  [Py.str (c_index c); c_wavelength c; Py.str (c_pic_num c);
   c_expected_name c; c_raw_filename c; c_status c; c_now c;
   Py.str (c_file_size c)].

Definition upsert (fs : gmap string table) (log_path : string) (c : call)
    : result (gmap string table) :=
  update_acquisition_log (c_now c) fs log_path (c_index c) (c_wavelength c)
    (c_pic_num c) (c_expected_name c) (c_raw_filename c) (c_status c)
    (c_file_size c).

Fixpoint upsert_all (fs : gmap string table) (log_path : string)
    (cs : list call) : result (gmap string table) :=
  match cs with
  | [] => Ok fs
  | c :: cs' => fs' ← upsert fs log_path c; upsert_all fs' log_path cs'
  end.

(** *** Reading a table *)

Definition row_index (r : row) : option Z :=
  match r with
  | [] => None
  | c :: _ => Py.int c
  end.

Definition row_status (r : row) : option string := r !! 5%nat.
Definition row_wavelength (r : row) : option string := r !! 1%nat.

(** The data rows recorded for [index]. *)
Definition records_for (index : Z) (t : table) : list row :=
  filter (fun r => row_index r = Some index) (tail t).

(** The ledger invariant: a header row, then rows that are blank or start
    with a readable index, no index occurring twice. *)
Definition readable (r : row) : Prop := r = [] \/ is_Some (row_index r).

Definition ledger_wf (t : table) : Prop :=
  t <> [] /\ Forall readable (tail t) /\ NoDup (omap row_index (tail t)).

(** The last call made for [index], if any. *)
Definition last_call (index : Z) (cs : list call) : option call :=
  last (filter (fun c => c_index c = index) cs).

(** *** Loading the incomplete acquisitions *)

(** The dictionary [csv.DictReader] builds for a data row: [row[key]].
    A later column of the same name wins; a column the row is too short
    for reads as [None]; a name that is no column raises [KeyError]. The
    outer option is the presence of the key, the inner one the value. *)
Fixpoint dict_get (fieldnames : list string) (r : row) (key : string)
    : option (option string) :=
  match fieldnames with
  | [] => None
  | f :: fieldnames' =>
      match dict_get fieldnames' (tail r) key with
      | Some v => Some v
      | None => if String.eqb f key then Some (head r) else None
      end
  end.

Definition dict_item (fieldnames : list string) (r : row) (key : string)
    : result (option string) :=
  match dict_get fieldnames r key with
  | Some v => Ok v
  | None => Raise (KeyError key)
  end.

(** [row['Status'] in ['pending', 'timeout', 'cancelled']] *)
Definition incomplete (status : option string) : bool :=
  match status with
  | Some s => bool_decide (s ∈ [status_pending; status_timeout; status_cancelled])
  | None => false
  end.

(** [if wavelength not in wavelength_dict: wavelength_dict[wavelength] = 0]
    followed by [wavelength_dict[wavelength] += 1], on a dictionary kept in
    insertion order. The key is [None] when the row has no such cell. *)
Fixpoint dict_incr (d : list (option string * Z)) (key : option string)
    : list (option string * Z) :=
  match d with
  | [] => [(key, 0 + 1)]
  | (k, n) :: d' =>
      if decide (k = key) then (k, n + 1) :: d' else (k, n) :: dict_incr d' key
  end.

(** The loop over the [DictReader]: blank rows are skipped by the reader. *)
Fixpoint count_rows (fieldnames : list string) (rows : list row)
    (wavelength_dict : list (option string * Z))
    : result (list (option string * Z)) :=
  match rows with
  | [] => Ok wavelength_dict
  | [] :: rows' => count_rows fieldnames rows' wavelength_dict
  | r :: rows' =>
      status ← dict_item fieldnames r "Status";
      if incomplete status then
        wavelength ← dict_item fieldnames r "Wavelength";
        count_rows fieldnames rows' (dict_incr wavelength_dict wavelength)
      else count_rows fieldnames rows' wavelength_dict
  end.

(** Reading a log file into the dictionary of incomplete counts. The
    first row gives the field names; a file without rows has none and no
    data. *)
Definition count_incomplete (t : table) : result (list (option string * Z)) :=
  match t with
  | [] => Ok []
  | fieldnames :: rows => count_rows fieldnames rows []
  end.

(** What the operator is told at the end of [load_acquisition_from_csv]. *)
Inductive load_message : Type :=
| NoFileChosen
| LoadedIncomplete (total : Z) (wavelengths : nat)
| AllCompleted
| LoadFailed (e : exn).

(** [load_acquisition_from_csv]. [csv_file] is the answer of the file
    dialog, [tree] the rows of the plan grid; the result is the grid
    afterwards and the message shown. *)
Definition load_acquisition_from_csv (f : gmap string table)
    (csv_file : option string) (tree : list (option string * Z))
    : list (option string * Z) * load_message :=
  match csv_file with
  | None | Some EmptyString => (tree, NoFileChosen)
  | Some path =>
      let tree := [] in
      match f !! path with
      | None => (tree, LoadFailed OSError)
      | Some t =>
          match count_incomplete t with
          | Raise e => (tree, LoadFailed e)
          | Ok [] => (tree, AllCompleted)
          | Ok wavelength_dict =>
              (tree ++ wavelength_dict,
               LoadedIncomplete (foldr (fun x acc => x.2 + acc) 0 wavelength_dict)
                 (length wavelength_dict))
          end
      end
  end.

(** The data rows of a table that are incomplete and carry [wavelength]. *)
Definition incomplete_rows (wavelength : option string) (t : table) : list row :=
  filter (fun r => r <> [] /\ incomplete (row_status r) = true /\
                   row_wavelength r = wavelength) (tail t).

(** [wavelength_dict.get(key, 0)] and [sum(wavelength_dict.values())]. *)
Fixpoint dict_count (d : list (option string * Z)) (key : option string) : Z :=
  match d with
  | [] => 0
  | (k, n) :: d' => if decide (k = key) then n else dict_count d' key
  end.

Definition dict_total (d : list (option string * Z)) : Z :=
  foldr (fun x acc => x.2 + acc) 0 d.

(** The data rows the loop counts. *)
Definition counted (r : row) : Prop :=
  r <> [] /\ incomplete (row_status r) = true.

End Ledger.

(** ** The file-arrival watcher *)

Module Watcher.

(** The raw data folder as the watcher sees it. Time is a logical clock
    counting seconds: [time.sleep(n)] advances it by [n], any other
    operation takes no time. [listdir] and [file_size] answer
    [os.listdir] and [os.path.getsize] at a given time, [None] standing
    for a raised exception. The order of a listing stands for the order
    in which Python iterates over the set built from it. *)
Record folder : Type := Folder {
  folder_set : bool;
  folder_exists : bool;
  listdir : nat -> option (list string);
  file_size : nat -> string -> option Z
}.

(** How the [for] loop over [new_files] ends: with an accepted file, at
    its end, or with an exception; the last two carry the time reached. *)
Inductive scan_result : Type :=
| ScanFound (new_file : string)
| ScanDone (now : nat)
| ScanRaised (now : nat).

(** "Look for new .bin files": the loop over [new_files], entered at time
    [now]. *)
Fixpoint scan (D : folder) (new_files : list string) (now : nat) : scan_result :=
  match new_files with
  | [] => ScanDone now
  | new_file :: rest =>
      if Py.endswith new_file ".bin" then
        match file_size D now new_file with
        | None => ScanRaised now
        | Some size =>
            let now := (now + 2)%nat in
            match file_size D now new_file with
            | None => ScanRaised now
            | Some new_size =>
                if (new_size =? size) && (0 <? size) then ScanFound new_file
                else scan D rest now
            end
        end
      else scan D rest now
  end.

(** [current_files - initial_files], in iteration order. *)
Definition set_difference (current_files initial_files : list string)
    : list string :=
  filter (fun f => f ∉ initial_files) (remove_dups current_files).

(** The [while] loop, entered at time [now]. Every turn sleeps for at
    least a second, so [fuel] bounds the number of turns; the outer [None]
    is the exhaustion of the fuel. *)
Fixpoint poll (D : folder) (initial_files : list string) (start_time : nat)
    (timeout_seconds : Z) (fuel : nat) (now : nat) : option (option string) :=
  if Z.of_nat now - Z.of_nat start_time <? timeout_seconds then
    match fuel with
    | O => None
    | S fuel' =>
        match listdir D now with
        | None =>
            poll D initial_files start_time timeout_seconds fuel' (now + 1)
        | Some current_files =>
            match scan D (set_difference current_files initial_files) now with
            | ScanFound new_file => Some (Some new_file)
            | ScanDone now' | ScanRaised now' =>
                poll D initial_files start_time timeout_seconds fuel' (now' + 1)
            end
        end
    end
  else Some None.

(** [wait_for_new_file(timeout_seconds)], called at time [start_time]. The
    listing taken before the loop is not guarded: its exception leaves the
    function. *)
Definition wait_for_new_file (D : folder) (start_time : nat)
    (timeout_seconds : Z) : option (result (option string)) :=
  if negb (folder_set D) || negb (folder_exists D) then Some (Ok None)
  else
    match listdir D start_time with
    | None => Some (Raise OSError)
    | Some initial_files =>
        Ok <$> (poll D initial_files start_time timeout_seconds
                  (Z.to_nat timeout_seconds) start_time)
    end.

(** A file that is listed at time [t], is not in the first listing, and
    carries the artifact extension. *)
Definition candidate_at (D : folder) (initial_files : list string) (t : nat)
    (f : string) : Prop :=
  exists files, listdir D t = Some files /\ (f ∈ files) /\
    (f ∉ initial_files) /\ Py.endswith f ".bin" = true.

(** The size of [f] read at [t] and read again two seconds later is the
    same and not zero. *)
Definition stable_at (D : folder) (t : nat) (f : string) : Prop :=
  exists size, file_size D t f = Some size /\
    file_size D (t + 2) f = Some size /\ 0 < size.

(** A folder in which "grow.bin" appears at second 1 and keeps growing,
    and "done.bin" appears at second 3 with its final size. *)
Definition example_folder : folder :=
  {| folder_set := true;
     folder_exists := true;
     listdir := fun t =>
       Some (["old.bin"; "notes.txt"] ++
             (if (1 <=? t)%nat then ["grow.bin"] else []) ++
             (if (3 <=? t)%nat then ["done.bin"] else []));
     file_size := fun t f =>
       if String.eqb f "grow.bin" then Some (Z.of_nat t * 10)
       else if String.eqb f "done.bin" then Some 4096
       else Some 1 |}.

End Watcher.

(** ** The acquisition driver *)

Module Sequencer.
Import Ledger.

(** The dictionaries appended to [acquisition_log]. *)
Record log_entry : Type := LogEntry {
  index : Z;
  wavelength : string;
  pic_num : Z;
  expected_name : string
}.

(** What the run receives from outside: the module globals set before the
    run, the formatted clock readings, the value each call of
    [wait_for_new_file] returns together with the size [os.path.getsize]
    then reports, and the operator's answers to the timeout dialog. The
    last three are indexed by the step they belong to, the clock by the
    number of events the run has produced so far. *)
Record env : Type := Env {
  project_name : string;
  output_path : string;
  start_stamp : string;
  clock : nat -> string;
  watcher : Z -> option string;
  getsize : Z -> Z;
  operator : Z -> bool
}.

(** The externally visible actions of a run. Logging, status-label
    updates, the fixed sleeps, opening the VISA resource and
    [take_snapshot] are not recorded. *)
Inductive event : Type :=
| EvLedgerWrite (c : call)
| EvGowave (index : Z) (wavelength : string)
| EvTrigger (index : Z)
| EvAsk (index : Z) (answer : bool)
| EvFinished.

Definition is_device_command (ev : event) : bool :=
  match ev with
  | EvGowave _ _ | EvTrigger _ => true
  | _ => false
  end.

Definition is_ledger_write (ev : event) : Prop :=
  exists c, ev = EvLedgerWrite c.

(** The state of a run: the file system, and the trace of actions so far,
    oldest first, each with the file system as it was when the action took
    place. *)
Record world : Type := World {
  fs : gmap string table;
  trace : list (event * gmap string table)
}.

Definition emit (w : world) (ev : event) : world :=
  {| fs := fs w; trace := trace w ++ [(ev, fs w)] |}.

(** A call of [update_acquisition_log] made by the run. *)
Definition log_upsert (E : env) (w : world) (log_path : string)
    (index : Z) (wavelength : string) (pic_num : Z)
    (expected_name raw_filename status : string) (file_size : Z)
    : result world :=
  let now := clock E (length (trace w)) in
  fs' ← update_acquisition_log now (fs w) log_path index wavelength pic_num
          expected_name raw_filename status file_size;
  mret (emit {| fs := fs'; trace := trace w |}
          (EvLedgerWrite (Call now index wavelength pic_num expected_name
                            raw_filename status file_size))).

(** [range(1, num_pictures + 1)] *)
Definition range1 (num_pictures : Z) : list Z :=
  map Z.of_nat (seq 1 (Z.to_nat num_pictures)).

(** The inner loop of the plan expansion, for one row of the plan. *)
Fixpoint prepopulate_row (E : env) (log_path : string) (wavelength : string)
    (pics : list Z) (st : world * list log_entry * Z)
    : result (world * list log_entry * Z) :=
  match pics with
  | [] => Ok st
  | i :: pics' =>
      let '(w, acquisition_log, acquisition_index) := st in
      let expected_name :=
        project_name E +:+ "_" +:+ wavelength +:+ "_" +:+ Py.str i in
      let acquisition_log :=
        acquisition_log ++ [LogEntry acquisition_index wavelength i expected_name] in
      w' ← log_upsert E w log_path acquisition_index wavelength i
             expected_name "" status_pending 0;
      prepopulate_row E log_path wavelength pics'
        (w', acquisition_log, acquisition_index + 1)
  end.

(** "Build acquisition plan and pre-populate log": the outer loop over the
    rows [(wavelength, num_pictures)] of the plan. *)
Fixpoint build_plan (E : env) (log_path : string) (plan : list (string * Z))
    (st : world * list log_entry * Z) : result (world * list log_entry * Z) :=
  match plan with
  | [] => Ok st
  | (wavelength, num_pictures) :: plan' =>
      st' ← prepopulate_row E log_path wavelength (range1 num_pictures) st;
      build_plan E log_path plan' st'
  end.

(** [l[k:]] *)
Definition slice_from {A} (k : Z) (l : list A) : list A :=
  if 0 <=? k then drop (Z.to_nat k) l
  else drop (length l - Z.to_nat (- k)) l.

(** The truth value of what [wait_for_new_file] returned. *)
Definition truthy (new_file : option string) : bool :=
  match new_file with
  | Some (String _ _) => true
  | _ => false
  end.

(** "Mark remaining as cancelled". *)
Fixpoint cancel_remaining (E : env) (log_path : string) (w : world)
    (remaining : list log_entry) : result world :=
  match remaining with
  | [] => Ok w
  | remaining_entry :: rest =>
      w' ← log_upsert E w log_path (index remaining_entry)
             (wavelength remaining_entry) (pic_num remaining_entry)
             (expected_name remaining_entry) "" status_cancelled 0;
      cancel_remaining E log_path w' rest
  end.

(** "Execute acquisition commands sequentially": the loop over
    [acquisition_log]; [todo] is the part of it still to be walked. *)
Fixpoint drive (E : env) (log_path : string) (acquisition_log : list log_entry)
    (w : world) (todo : list log_entry) : result world :=
  match todo with
  | [] => Ok w
  | entry :: todo' =>
      let w := emit w (EvGowave (index entry) (wavelength entry)) in
      let w := emit w (EvTrigger (index entry)) in
      let new_file := watcher E (index entry) in
      if truthy new_file then
        let file_size := getsize E (index entry) in
        w ← log_upsert E w log_path (index entry) (wavelength entry)
              (pic_num entry) (expected_name entry) (default "" new_file)
              status_completed file_size;
        drive E log_path acquisition_log w todo'
      else
        w ← log_upsert E w log_path (index entry) (wavelength entry)
              (pic_num entry) (expected_name entry) "" status_timeout 0;
        let result := operator E (index entry) in
        let w := emit w (EvAsk (index entry) result) in
        if result then drive E log_path acquisition_log w todo'
        else cancel_remaining E log_path w
               (slice_from (index entry + 1) acquisition_log)
  end.

(** [execute_commands], from "Initialize acquisition tracking" on: the raw
    data folder, the project name and the output path are set. [plan] is
    the content of the plan grid. The result is the final state and the
    path of the log file. *)
Definition execute_commands (E : env) (plan : list (string * Z))
    (fs0 : gmap string table) : result (world * string) :=
  let '(fs1, acquisition_log_path) :=
    create_acquisition_log_file fs0 (output_path E) (project_name E)
      (start_stamp E) in
  '(w, acquisition_log, _) ←
    build_plan E acquisition_log_path plan
      ({| fs := fs1; trace := [] |}, [], 0);
  w ← drive E acquisition_log_path acquisition_log w acquisition_log;
  mret (emit w EvFinished, acquisition_log_path).

(** The acquisition log built for a plan, and the log file after the
    pre-population, before the first device command. *)
Definition expand_plan (E : env) (plan : list (string * Z))
    (fs0 : gmap string table) : result (world * list log_entry * string) :=
  let '(fs1, acquisition_log_path) :=
    create_acquisition_log_file fs0 (output_path E) (project_name E)
      (start_stamp E) in
  '(w, acquisition_log, _) ←
    build_plan E acquisition_log_path plan
      ({| fs := fs1; trace := [] |}, [], 0);
  mret (w, acquisition_log, acquisition_log_path).

(** *** Reading the ledger of a run *)

(** The status recorded for [index], when the ledger holds exactly one
    record for it. *)
Definition recorded_status (f : gmap string table) (log_path : string)
    (index : Z) : option string :=
  match records_for index (default [] (f !! log_path)) with
  | [r] => row_status r
  | _ => None
  end.


Definition plan_total (plan : list (string * Z)) : Z :=
  foldr (fun r acc => r.2 + acc) 0 plan.

(** Wavelength and picture number of every step, row after row. *)
Definition plan_steps (plan : list (string * Z)) : list (string * Z) :=
  flat_map (fun r => map (fun i => (r.1, i)) (range1 r.2)) plan.

(** The row written for a step by the pre-population. The k-th call of the
    run is the one for index k, hence the clock reading. *)
Definition pending_row (E : env) (e : log_entry) : row :=
  [Py.str (index e); wavelength e; Py.str (pic_num e); expected_name e;
   ""; status_pending; clock E (Z.to_nat (index e)); Py.str 0].

Definition name_ok (E : env) (e : log_entry) : Prop :=
  expected_name e =
  project_name E +:+ "_" +:+ wavelength e +:+ "_" +:+ Py.str (pic_num e).

(** The invariant of the plan expansion; [steps] lists the wavelength and
    picture number of the steps generated so far. *)
Definition build_inv (E : env) (log_path : string) (f0 : gmap string table)
    (steps : list (string * Z)) (st : world * list log_entry * Z) : Prop :=
  let '(w, acquisition_log, acquisition_index) := st in
  acquisition_index = Z.of_nat (length acquisition_log) /\
  length (trace w) = length acquisition_log /\
  map index acquisition_log = map Z.of_nat (seq 0 (length acquisition_log)) /\
  map (fun e => (wavelength e, pic_num e)) acquisition_log = steps /\
  Forall (name_ok E) acquisition_log /\
  fs w = <[log_path := header_row :: map (pending_row E) acquisition_log]> f0 /\
  Forall (fun x => is_ledger_write x.1) (trace w).

(** The table read from the log file. *)
Definition ledger_of (f : gmap string table) (log_path : string) : table :=
  default [] (f !! log_path).

Definition step_count (plan : list (string * Z)) : Z :=
  Z.of_nat (length (plan_steps plan)).

(** The status a step gets when it has run. *)
Definition outcome_status (E : env) (e : log_entry) : string :=
  if truthy (watcher E (index e)) then status_completed else status_timeout.

Definition is_outcome (s : option string) : Prop :=
  s = Some status_completed \/ s = Some status_timeout.

(** A step goes on to the next one: a file arrived, or the operator said
    yes. *)
Definition continues (E : env) (j : Z) : bool :=
  truthy (watcher E j) || operator E j.

(** What must hold of the ledger when an action takes place: at the
    timeout dialog of step [j], step [j] is recorded as timed out; at the
    wavelength command of step [j], every earlier step is recorded as
    completed or timed out. *)
Definition outcome_before_decision (log_path : string)
    (x : event * gmap string table) : Prop :=
  match x.1 with
  | EvAsk j _ => recorded_status x.2 log_path j = Some status_timeout
  | EvGowave j _ =>
      forall i, 0 <= i < j -> is_outcome (recorded_status x.2 log_path i)
  | _ => True
  end.

(** The scenario used in the examples: plan [("500", 2); ("600", 1)], files
    arriving for steps 0 and 2, step 1 timing out, the operator answering
    [answer]. *)
Definition example_plan : list (string * Z) := [("500", 2); ("600", 1)].

Definition example_env (answer : bool) : env :=
  {| project_name := "proj";
     output_path := "out";
     start_stamp := "20240101_120000";
     clock := fun n => "t" +:+ Py.str (Z.of_nat n);
     watcher := fun j => if j =? 1 then None
                         else Some ("raw" +:+ Py.str j +:+ ".bin");
     getsize := fun j => 100 + j;
     operator := fun _ => answer |}.

(** *** Reading the result of a run *)

(** The call that records the outcome of a step, made at the clock reading
    [now]: the raw file name and its size when a file arrived, a timeout
    without them otherwise. *)
Definition outcome_call (E : env) (e : log_entry) (now : string) : call :=
  let new_file := watcher E (index e) in
  if truthy new_file then
    Call now (index e) (wavelength e) (pic_num e) (expected_name e)
      (default "" new_file) status_completed (getsize E (index e))
  else
    Call now (index e) (wavelength e) (pic_num e) (expected_name e)
      "" status_timeout 0.

(** The device commands of a run, oldest first. *)
Definition device_commands (w : world) : list event :=
  filter (fun ev => is_device_command ev = true) (trace w).*1.

(** The device commands of one step. *)
Definition step_commands (e : log_entry) : list event :=
  [EvGowave (index e) (wavelength e); EvTrigger (index e)].

(** The step at which the operator stops the run, if there is one: the
    first step that neither yields a file nor is waved through. *)
Fixpoint first_declined (E : env) (acquisition_log : list log_entry)
    : option Z :=
  match acquisition_log with
  | [] => None
  | e :: rest =>
      if continues E (index e) then first_declined E rest else Some (index e)
  end.

(** The call that cancels a step. *)
Definition cancel_call (e : log_entry) (now : string) : call :=
  Call now (index e) (wavelength e) (pic_num e) (expected_name e)
    "" status_cancelled 0.

(** The last call a run makes for a step when it stops at [stop]: the
    steps behind [stop] are cancelled, the others get their outcome. *)
Definition final_call (E : env) (stop : option Z) (e : log_entry)
    (now : string) : call :=
  match stop with
  | Some k => if k <? index e then cancel_call e now else outcome_call E e now
  | None => outcome_call E e now
  end.

(** The steps a run that stops at [stop] gets to. *)
Definition reached (stop : option Z) (e : log_entry) : bool :=
  match stop with
  | Some k => index e <=? k
  | None => true
  end.

(** The steps a run that stops at [stop] leaves without a picture. *)
Definition unfinished (E : env) (stop : option Z)
    (acquisition_log : list log_entry) : list log_entry :=
  filter (fun e => c_status (final_call E stop e "") <> status_completed)
    acquisition_log.

(** The actions of a step that runs, in the order the loop takes them:
    the two device commands, the write of the step's outcome at the clock
    reading [now] and, when no file arrived, the dialog. *)
Definition step_events (E : env) (e : log_entry) (now : string) : list event :=
  [EvGowave (index e) (wavelength e); EvTrigger (index e);
   EvLedgerWrite (outcome_call E e now)] ++
  (if truthy (watcher E (index e)) then []
   else [EvAsk (index e) (operator E (index e))]).

(** At a ledger write, the file system recorded with it shows the status
    just written as the status of the call's step. *)
Definition write_recorded (log_path : string)
    (x : event * gmap string table) : Prop :=
  match x.1 with
  | EvLedgerWrite c =>
      recorded_status x.2 log_path (c_index c) = Some (c_status c)
  | _ => True
  end.

End Sequencer.

(** ** Cube aggregation *)

Module Cubes.

(** The arithmetic of the array elements: [+] and the true division by a
    count. *)
Class Elem (T : Type) : Type := {
  elem_add : T -> T -> T;
  elem_div : T -> Z -> T
}.

(** Floating-point elements, the kernel's binary64 numbers standing for
    the floating-point type of the loaded arrays. *)
#[global] Instance float_elem : Elem PrimFloat.float := {|
  elem_add := PrimFloat.add;
  elem_div := fun x k => PrimFloat.div x (PrimFloat.of_uint63 (Uint63.of_Z k))
|}.

Section Arrays.
Context {T : Type} `{Elem T}.

(** A cube: its shape (rows, columns, bands) and its elements. *)
Record ndarray : Type := Ndarray {
  shape : nat * nat * nat;
  data : list T
}.

(** [a += b] and [a + b] on arrays of equal shape. *)
Definition add_arrays (a b : ndarray) : ndarray :=
  {| shape := shape a; data := zip_with elem_add (data a) (data b) |}.

(** [a / count] *)
Definition div_array (a : ndarray) (count : Z) : ndarray :=
  {| shape := shape a; data := map (fun x => elem_div x count) (data a) |}.

(** An entry of [loaded_cubes]. The list is the store of the loaded
    arrays: an array is named by the position of its entry. *)
Record loaded_cube : Type := LoadedCube {
  cube : ndarray;
  metadata : string;
  lc_wavelength : string;
  lc_i : string;
  rgb_image : string
}.

Definition set_cube (lc : loaded_cube) (a : ndarray) : loaded_cube :=
  {| cube := a; metadata := metadata lc; lc_wavelength := lc_wavelength lc;
     lc_i := lc_i lc; rgb_image := rgb_image lc |}.

(** What [spy.save_rgb] and [envi.save_image] leave on disk: the rendered
    image, the header of a saved cube (with the cube it describes and its
    metadata) and the data file written beside the header. *)
Inductive artifact : Type :=
| RgbImage (content : ndarray)
| EnviImage (content : ndarray) (meta : option string)
| EnviData (content : ndarray).

Record cstate : Type := CState {
  loaded_cubes : list loaded_cube;
  selected_images : list nat;
  files : gmap string artifact
}.

(** How a handler ends: with its popup showing the combined cube, with an
    error box, or with an exception. *)
Inductive outcome : Type :=
| Popup (image_path : string) (combined : ndarray) (meta : option string)
| ErrorBox (msg : string)
| Raised (e : exn).

Definition SAVED_IMAGES_DIRECTORY : string := "C:\BaySpec\GoldenEye\saved_images".

(** [rgb_bands = (29, 19, 9)] *)
Definition rgb_bands : list nat := [29; 19; 9]%nat.

(** The number of bands of a cube, the last component of its shape. *)
Definition bands (a : ndarray) : nat := (shape a).2.

(** [spy.save_rgb(path, cube, rgb_bands)]: taking a band the cube does not
    have raises [IndexError], and no file is written then. *)
Definition save_rgb (fl : gmap string artifact) (path : string) (a : ndarray)
    : result (gmap string artifact) :=
  if forallb (fun b => (b <? bands a)%nat) rgb_bands
  then Ok (<[path := RgbImage a]> fl)
  else Raise IndexError.

(** [envi.save_image(hdr_path, cube, metadata=meta, force=True)]: the
    header, and the data file beside it at [img_path]. *)
Definition save_image (fl : gmap string artifact) (hdr_path img_path : string)
    (a : ndarray) (meta : option string) : gmap string artifact :=
  <[img_path := EnviData a]> (<[hdr_path := EnviImage a meta]> fl).

Definition sum_message : string :=
  "Cubes must have the same dimensions for summing.".
Definition average_message : string :=
  "Cubes must have the same dimensions for averaging.".
Definition batch_message (folder : string) : string :=
  "Cubes must have the same dimensions: " +:+ folder.

(** The loop of [sum_selected_cubes]. [combined] is the position of the
    entry whose array [combined_cube] refers to: the first selected array
    itself, which the in-place addition then changes. *)
Fixpoint sum_loop (loaded : list loaded_cube) (selected : list nat)
    (combined : option nat) (first_hdr_metadata : option string)
    : list loaded_cube * result (option nat * option string) :=
  match selected with
  | [] => (loaded, Ok (combined, first_hdr_metadata))
  | idx :: selected' =>
      match loaded !! idx with
      | None => (loaded, Raise IndexError)
      | Some entry =>
          match combined with
          | None => sum_loop loaded selected' (Some idx) (Some (metadata entry))
          | Some c =>
              match loaded !! c with
              | None => (loaded, Raise IndexError)
              | Some target =>
                  if decide (shape (cube target) = shape (cube entry)) then
                    sum_loop
                      (<[c := set_cube target (add_arrays (cube target) (cube entry))]>
                         loaded)
                      selected' combined first_hdr_metadata
                  else (loaded, Raise (AssertionError sum_message))
              end
          end
      end
  end.

(** [sum_selected_cubes] *)
Definition sum_selected_cubes (st : cstate) : cstate * outcome :=
  match selected_images st with
  | [] => (st, ErrorBox "No images selected for summing.")
  | _ :: _ =>
      match sum_loop (loaded_cubes st) (selected_images st) None None with
      | (loaded, Raise e) =>
          ({| loaded_cubes := loaded; selected_images := selected_images st;
              files := files st |}, Raised e)
      | (loaded, Ok (combined, first_hdr_metadata)) =>
          match combined ≫= (fun c => loaded !! c) with
          | Some target =>
              let summed_rgb_image :=
                Ledger.path_join SAVED_IMAGES_DIRECTORY "summed_rgb_image.png" in
              match save_rgb (files st) summed_rgb_image (cube target) with
              | Raise e =>
                  ({| loaded_cubes := loaded;
                      selected_images := selected_images st;
                      files := files st |}, Raised e)
              | Ok fl =>
                  ({| loaded_cubes := loaded;
                      selected_images := selected_images st; files := fl |},
                   Popup summed_rgb_image (cube target) first_hdr_metadata)
              end
          | None =>
              ({| loaded_cubes := loaded; selected_images := selected_images st;
                  files := files st |},
               ErrorBox "Could not sum the selected cubes.")
          end
      end
  end.

(** The loop of [average_selected_cubes]. [combined] is the array
    [combined_cube] refers to: a copy of the first selected array, which
    nothing else refers to. *)
Fixpoint average_loop (loaded : list loaded_cube) (selected : list nat)
    (combined : option ndarray) (first_hdr_metadata : option string)
    (cube_count : Z) : result (option ndarray * option string * Z) :=
  match selected with
  | [] => Ok (combined, first_hdr_metadata, cube_count)
  | idx :: selected' =>
      match loaded !! idx with
      | None => Raise IndexError
      | Some entry =>
          match combined with
          | None =>
              average_loop loaded selected' (Some (cube entry))
                (Some (metadata entry)) (cube_count + 1)
          | Some c =>
              if decide (shape c = shape (cube entry)) then
                average_loop loaded selected' (Some (add_arrays c (cube entry)))
                  first_hdr_metadata (cube_count + 1)
              else Raise (AssertionError average_message)
          end
      end
  end.

(** [average_selected_cubes] *)
Definition average_selected_cubes (st : cstate) : cstate * outcome :=
  match selected_images st with
  | [] => (st, ErrorBox "No images selected for averaging.")
  | _ :: _ =>
      match average_loop (loaded_cubes st) (selected_images st) None None 0 with
      | Raise e => (st, Raised e)
      | Ok (Some combined_cube, first_hdr_metadata, cube_count) =>
          if 0 <? cube_count then
            let combined_cube := div_array combined_cube cube_count in
            let averaged_rgb_image :=
              Ledger.path_join SAVED_IMAGES_DIRECTORY "averaged_rgb_image.png" in
            match save_rgb (files st) averaged_rgb_image combined_cube with
            | Raise e => (st, Raised e)
            | Ok fl =>
                ({| loaded_cubes := loaded_cubes st;
                    selected_images := selected_images st; files := fl |},
                 Popup averaged_rgb_image combined_cube first_hdr_metadata)
            end
          else (st, ErrorBox "Could not average the selected cubes.")
      | Ok (None, _, _) => (st, ErrorBox "Could not average the selected cubes.")
      end
  end.

(** *** Per-wavelength batch combination *)

(** [wavelength_dict[wavelength].append(folder)], creating the list when
    the key is new; the dictionary is kept in insertion order. *)
Fixpoint dict_append (d : list (string * list string)) (key folder : string)
    : list (string * list string) :=
  match d with
  | [] => [(key, [folder])]
  | (k, folders) :: d' =>
      if String.eqb k key then (k, folders ++ [folder]) :: d'
      else (k, folders) :: dict_append d' key folder
  end.

(** The grouping loop: a folder name with at least three parts between
    underscores goes under its third part. *)
Fixpoint group_folders (folders : list string)
    (wavelength_dict : list (string * list string))
    : list (string * list string) :=
  match folders with
  | [] => wavelength_dict
  | folder :: folders' =>
      let parts := Py.split "_" folder in
      if (3 <=? length parts)%nat then
        group_folders folders'
          (dict_append wavelength_dict (nth 2 parts "") folder)
      else group_folders folders' wavelength_dict
  end.

(** The inner loop over the folders of one wavelength. [disk] answers
    [envi.open] followed by [load] for a folder of the saved-images
    directory: a fresh array and the header's metadata, or [None] when the
    files cannot be opened. *)
Fixpoint combine_group (disk : string -> option (ndarray * string))
    (folders : list string) (combined_cube : option ndarray)
    (first_hdr_metadata : option string)
    : result (option ndarray * option string) :=
  match folders with
  | [] => Ok (combined_cube, first_hdr_metadata)
  | folder :: folders' =>
      match disk folder with
      | None => Raise OSError
      | Some (cube_data, meta) =>
          let first_hdr_metadata :=
            match first_hdr_metadata with
            | None => Some meta
            | Some m => Some m
            end in
          match combined_cube with
          | None => combine_group disk folders' (Some cube_data) first_hdr_metadata
          | Some c =>
              if decide (shape c = shape cube_data) then
                combine_group disk folders' (Some (add_arrays c cube_data))
                  first_hdr_metadata
              else Raise (AssertionError (batch_message folder))
          end
      end
  end.

Definition combined_png (output_path project_name date_str wavelength : string)
    : string :=
  Ledger.path_join output_path
    (project_name +:+ "_" +:+ date_str +:+ "_" +:+ wavelength +:+ "_combined.png").

Definition union_hdr (output_path project_name date_str wavelength : string)
    : string :=
  Ledger.path_join output_path
    (project_name +:+ "_" +:+ date_str +:+ "_" +:+ wavelength +:+ "_union.hdr").

(** The data file [envi.save_image] writes beside the header: the same
    name with the extension [.img]. *)
Definition union_img (output_path project_name date_str wavelength : string)
    : string :=
  Ledger.path_join output_path
    (project_name +:+ "_" +:+ date_str +:+ "_" +:+ wavelength +:+ "_union.img").

(** The outer loop over [wavelength_dict.items()]: each group is combined
    and written before the next one is read. *)
Fixpoint combine_groups (disk : string -> option (ndarray * string))
    (output_path project_name date_str : string)
    (groups : list (string * list string)) (fl : gmap string artifact)
    : gmap string artifact * option exn :=
  match groups with
  | [] => (fl, None)
  | (wavelength, folders) :: groups' =>
      match combine_group disk folders None None with
      | Raise e => (fl, Some e)
      | Ok (None, _) => (fl, Some ValueError)
      | Ok (Some combined_cube, first_hdr_metadata) =>
          match save_rgb fl
                  (combined_png output_path project_name date_str wavelength)
                  combined_cube with
          | Raise e => (fl, Some e)
          | Ok fl =>
              let fl :=
                save_image fl
                  (union_hdr output_path project_name date_str wavelength)
                  (union_img output_path project_name date_str wavelength)
                  combined_cube first_hdr_metadata in
              combine_groups disk output_path project_name date_str groups' fl
          end
      end
  end.

(** [add_cubes_for_same_wavelength(folders)]: the files afterwards and the
    exception that ended the call, if any. *)
Definition add_cubes_for_same_wavelength
    (disk : string -> option (ndarray * string))
    (output_path project_name date_str : string) (folders : list string)
    (fl : gmap string artifact) : gmap string artifact * option exn :=
  combine_groups disk output_path project_name date_str
    (group_folders folders []) fl.




(** The sum of [c] and the arrays of [l], added one after the other. *)
Definition sum_arrays (c : ndarray) (l : list ndarray) : ndarray :=
  foldl add_arrays c l.

(** [entries] are the entries of [loaded] at the positions [selected]. *)
Definition entries_at (loaded : list loaded_cube) (selected : list nat)
    (entries : list loaded_cube) : Prop :=
  Forall2 (fun idx entry => loaded !! idx = Some entry) selected entries.

(** The key a folder name is grouped under, if it has one. *)
Definition wavelength_of (folder : string) : option string :=
  let parts := Py.split "_" folder in
  if (3 <=? length parts)%nat then Some (nth 2 parts "") else None.

(** [wavelength_dict.get(key, [])] *)
Fixpoint group_of (d : list (string * list string)) (key : string)
    : list string :=
  match d with
  | [] => []
  | (k, folders) :: d' => if String.eqb k key then folders else group_of d' key
  end.

(** The folders [folders] of one group load from [disk] with one shape;
    [total] is their cubes added one after the other and [meta] the
    metadata of the first. *)
Definition group_loads (disk : string -> option (ndarray * string))
    (folders : list string) (total : ndarray) (meta : string) : Prop :=
  exists f0 rest c0 loads,
    folders = f0 :: rest /\ disk f0 = Some (c0, meta) /\
    Forall2 (fun f x => disk f = Some x) rest loads /\
    Forall (fun x => shape x.1 = shape c0) loads /\
    total = sum_arrays c0 (map fst loads).

(** *** The selection of loaded cubes *)

(** [selected_images.remove(index)]: the first occurrence goes. *)
Fixpoint remove_first (index : nat) (l : list nat) : list nat :=
  match l with
  | [] => []
  | y :: l' => if decide (y = index) then l' else y :: remove_first index l'
  end.

Definition with_selection (st : cstate) (selected : list nat) : cstate :=
  {| loaded_cubes := loaded_cubes st; selected_images := selected;
     files := files st |}.

(** [toggle_image_selection(index, var)]; [var] is the state of the
    checkbox. The result is the new state and whether the sum, average
    and view buttons are enabled. *)
Definition toggle_image_selection (index : nat) (var : bool) (st : cstate)
    : cstate * bool :=
  let selected :=
    if var then
      if decide (index ∈ selected_images st) then selected_images st
      else selected_images st ++ [index]
    else
      if decide (index ∈ selected_images st)
      then remove_first index (selected_images st)
      else selected_images st in
  (with_selection st selected,
   match selected with [] => false | _ :: _ => true end).

(** The loop of [select_by_wavelength] over [enumerate(loaded_cubes)];
    [idx] is the position of the head of [loaded]. *)
Fixpoint select_loop (wavelength : string) (loaded : list loaded_cube)
    (idx : nat) (selected : list nat) : list nat :=
  match loaded with
  | [] => selected
  | entry :: loaded' =>
      select_loop wavelength loaded' (S idx)
        (if String.eqb (lc_wavelength entry) wavelength
         then selected ++ [idx] else selected)
  end.

(** [select_by_wavelength]; [wavelength] is the value of the selection
    combobox. The result is the new state, whether the buttons are
    enabled afterwards ([None]: left as they are), and the message. *)
Definition select_by_wavelength (wavelength : string) (st : cstate)
    : cstate * option bool * string :=
  if String.eqb wavelength "Select Wavelength" then
    (st, None, "Please select a wavelength first.")
  else
    let selected := select_loop wavelength (loaded_cubes st) 0 [] in
    match selected with
    | [] => (with_selection st selected, Some false,
             "No cubes found with wavelength " +:+ wavelength +:+ ".")
    | _ :: _ =>
        (with_selection st selected, Some true,
         "Selected " +:+ Py.str (Z.of_nat (length selected)) +:+
         " cubes with wavelength " +:+ wavelength +:+ ".")
    end.

(** The wavelengths of the selected cubes, as [filter_images] collects
    them before it clears the selection. *)
Fixpoint selected_wavelengths (loaded : list loaded_cube) (selected : list nat)
    : list string :=
  match selected with
  | [] => []
  | idx :: selected' =>
      match loaded !! idx with
      | Some entry => lc_wavelength entry :: selected_wavelengths loaded selected'
      | None => selected_wavelengths loaded selected'
      end
  end.

(** [list(enumerate(loaded))], counting from [idx]. *)
Fixpoint enumerate_from (idx : nat) (loaded : list loaded_cube)
    : list (nat * loaded_cube) :=
  match loaded with
  | [] => []
  | entry :: loaded' => (idx, entry) :: enumerate_from (S idx) loaded'
  end.

(** "Create filtered list based on selection" *)
Definition filtered_cubes (selected_wavelength : string)
    (loaded : list loaded_cube) : list (nat * loaded_cube) :=
  if String.eqb selected_wavelength "No Filter" then enumerate_from 0 loaded
  else filter (fun x => lc_wavelength x.2 = selected_wavelength)
         (enumerate_from 0 loaded).

(** The display loop of [filter_images]; [shown] answers
    [os.path.exists] for a preview image. *)
Fixpoint display_loop (shown : string -> bool) (wavelengths : list string)
    (filtered : list (nat * loaded_cube)) (selected : list nat) : list nat :=
  match filtered with
  | [] => selected
  | (idx, entry) :: filtered' =>
      display_loop shown wavelengths filtered'
        (if shown (rgb_image entry) then
           if decide (lc_wavelength entry ∈ wavelengths)
           then selected ++ [idx] else selected
         else selected)
  end.

(** [filter_images]; [selected_wavelength] is the value of the filter
    combobox. The result is the new state and whether the buttons are
    enabled afterwards. *)
Definition filter_images (selected_wavelength : string)
    (shown : string -> bool) (st : cstate) : cstate * bool :=
  let wavelengths := selected_wavelengths (loaded_cubes st) (selected_images st) in
  let selected :=
    display_loop shown wavelengths
      (filtered_cubes selected_wavelength (loaded_cubes st)) [] in
  (with_selection st selected,
   match selected with [] => false | _ :: _ => true end).

End Arrays.

Arguments ndarray T : clear implicits.
Arguments loaded_cube T : clear implicits.
Arguments artifact T : clear implicits.
Arguments cstate T : clear implicits.
Arguments outcome T : clear implicits.

(** *** The cubes of the examples *)

(** A cube with every element equal to [x]. *)
Definition flat_cube (rows cols bands : nat) (x : PrimFloat.float)
    : ndarray PrimFloat.float :=
  Ndarray (rows, cols, bands) (replicate (rows * cols * bands) x).

(** Two loaded cubes of shape (1, 1, 30) at 500 nm and one of shape
    (2, 1, 30) at 600 nm. *)
Definition example_loaded : list (loaded_cube PrimFloat.float) :=
  [LoadedCube (flat_cube 1 1 30 1) "meta_a" "500" "1" "p_0412_500_1/rgb_image.png";
   LoadedCube (flat_cube 1 1 30 2) "meta_b" "500" "2" "p_0412_500_2/rgb_image.png";
   LoadedCube (flat_cube 2 1 30 4) "meta_c" "600" "1" "p_0412_600_1/rgb_image.png"].

Definition example_state (selected : list nat) : cstate PrimFloat.float :=
  {| loaded_cubes := example_loaded; selected_images := selected; files := ∅ |}.

(** The same cubes as folders of the saved-images directory. *)
Definition example_disk (folder : string)
    : option (ndarray PrimFloat.float * string) :=
  if String.eqb folder "p_0412_500_1" then Some (flat_cube 1 1 30 1, "meta_a")
  else if String.eqb folder "p_0412_500_2" then Some (flat_cube 1 1 30 2, "meta_b")
  else if String.eqb folder "p_0412_600_1" then Some (flat_cube 2 1 30 4, "meta_c")
  else if String.eqb folder "p_0412_600_2" then Some (flat_cube 1 1 30 8, "meta_d")
  else None.

End Cubes.

(** ** The resume entry point *)

Module Resume.

(** Every name the module binds at its top level: the imported names, the
    module variables, the names functions assign under a [global]
    statement, and the functions. *)
Definition module_imports : list string :=
  ["os"; "shutil"; "time"; "datetime"; "csv"; "threading"; "Path"; "tk";
   "ttk"; "filedialog"; "messagebox"; "pyvisa"; "serial"; "envi"; "spy";
   "Image"; "ImageTk"; "ImageOps"; "logging"; "np"].

Definition module_variables : list string :=
  ["SAVED_IMAGES_DIRECTORY"; "before_snapshot"; "loaded_cubes";
   "loaded_images"; "selected_images"; "available_wavelengths";
   "experiment_finished"; "project_name"; "output_path"; "raw_data_folder";
   "tls_found"; "golden_eye_found"; "tls_device_address"; "arduino_port";
   "trigger_string"; "acquisition_log"; "file_timeout";
   "acquisition_log_path";
   "monitoring_thread"; "stop_monitoring"; "current_acquisition_index";
   "last_file_time"; "root"; "tree"; "wavelength_entry"; "pictures_entry";
   "tls_status_label"; "golden_eye_status_label"; "execute_button";
   "process_button"; "find_tls_button"; "find_golden_eye_button";
   "right_click_menu"; "raw_folder_label"; "acquisition_status_label";
   "load_csv_button"; "wavelength_filter"; "wavelength_select_combobox";
   "sum_cubes_button"; "average_cubes_button"; "view_selected_button";
   "image_panel_frame"; "canvas"; "progress_label"].

Definition module_functions : list string :=
  ["sort_folders_by_modification"; "create_acquisition_log_file";
   "update_acquisition_log"; "wait_for_new_file"; "update_status_label";
   "load_acquisition_from_csv"; "select_raw_data_folder"; "load_folder";
   "process_folder"; "check_tls_device"; "check_arduino_device"; "find_tls";
   "find_golden_eye"; "check_device_status"; "send_trigger";
   "sum_selected_cubes"; "average_selected_cubes";
   "add_cubes_for_same_wavelength"; "save_rgb"; "save_rgb_image"; "save_cube";
   "save_averaged_cube"; "execute_commands"; "resume_acquisition";
   "execute_resumed_commands"; "process_results"; "add_row";
   "edit_selected_row"; "delete_selected_row"; "toggle_image_selection";
   "filter_images"; "view_selected_cubes"; "select_by_wavelength";
   "update_selection_ui"; "update_wavelength_filters";
   "show_combined_image_popup"; "show_averaged_image_popup"; "take_snapshot";
   "open_project_window"; "rename_and_copy_folders";
   "create_right_click_menu"; "show_popup_menu"; "setup_acquisition_tab";
   "setup_processing_tab"; "resize_canvas"; "main"].

Definition module_names : list string :=
  module_imports ++ module_variables ++ module_functions.

(** Reading a global name that is no local and no builtin. *)
Definition global_name (names : list string) (name : string) : result unit :=
  if decide (name ∈ names) then Ok () else Raise (NameError name).

(** The dictionary [resume_acquisition] expects from
    [check_previous_acquisition]. *)
Record prev_acq : Type := PrevAcq {
  total : Z;
  completed : Z;
  incomplete : Z;
  log_path : string
}.

(** What the functions called by name would do if the name were bound:
    [check_previous_acquisition()] reads the output path and answers a
    dictionary or a false value, [resume_from_log(path)] sets
    [acquisition_log]. *)
Record callees : Type := Callees {
  check_previous_acquisition : string -> option prev_acq;
  resume_from_log : string -> list Sequencer.log_entry
}.

Inductive resume_event : Type :=
| RMessage (title : string)
| RAskResume (answer : bool)
| RThreadStarted
| RGowave (wavelength : string)
| RTrigger
| RFinished.

(** [execute_resumed_commands] *)
Definition execute_resumed_commands (names : list string)
    (raw_data_folder : string) (acquisition_log : list Sequencer.log_entry)
    : list resume_event * result unit :=
  if String.eqb raw_data_folder "" then ([RMessage "Error"], Ok ())
  else
    match global_name names "monitor_raw_files" with
    | Raise e => ([], Raise e)
    | Ok _ =>
        (RThreadStarted ::
         flat_map (fun entry => [RGowave (Sequencer.wavelength entry); RTrigger])
           acquisition_log ++ [RFinished], Ok ())
    end.

(** [resume_acquisition]. [folder] is the answer of the folder dialog,
    [answer] the answer to the resume dialog; the result is the new
    [output_path], what happened, and how the call ended. *)
Definition resume_acquisition (names : list string) (C : callees)
    (folder : string) (answer : bool)
    (raw_data_folder output_path : string)
    : string * list resume_event * result unit :=
  if String.eqb folder "" then (output_path, [], Ok ())
  else
    let output_path := folder in
    match global_name names "check_previous_acquisition" with
    | Raise e => (output_path, [], Raise e)
    | Ok _ =>
        match check_previous_acquisition C output_path with
        | None => (output_path, [RMessage "No Previous Acquisition"], Ok ())
        | Some prev =>
            if answer then
              match global_name names "resume_from_log" with
              | Raise e => (output_path, [RAskResume true], Raise e)
              | Ok _ =>
                  let acquisition_log := resume_from_log C (log_path prev) in
                  let '(evs, r) :=
                    execute_resumed_commands names raw_data_folder
                      acquisition_log in
                  (output_path, RAskResume true :: evs, r)
              end
            else (output_path, [RAskResume false], Ok ())
        end
    end.

End Resume.

(** ** Naming and copying the folders of a run *)

Module Folders.
Import Ledger.

(** [f"{project_name}_{date_str}_{wavelength}_{i}"] *)
Definition new_name (project_name date_str wavelength : string) (i : Z)
    : string :=
  project_name +:+ "_" +:+ date_str +:+ "_" +:+ wavelength +:+ "_" +:+ Py.str i.

(** What [process_folder] reads off a folder name: the wavelength and the
    picture number the cube is loaded under, when the name has at least
    three parts between underscores. *)
Definition folder_key (folder_name : string) : option (string * string) :=
  let parts := Py.split "_" folder_name in
  if (3 <=? length parts)%nat then
    Some (nth 2 parts "",
          if (3 <? length parts)%nat then nth 3 parts "" else "1")
  else None.

Section Copy.
Context {content : Type}.

(** [shutil.copytree(src, dst)] on a store of folders by path: the source
    has to exist and the destination must not. *)
Definition copytree (disk : gmap string content) (src dst : string)
    : result (gmap string content) :=
  match disk !! src with
  | None => Raise OSError
  | Some c =>
      match disk !! dst with
      | Some _ => Raise OSError
      | None => Ok (<[dst := c]> disk)
      end
  end.

(** The inner loop of [rename_and_copy_folders], for one row of the plan
    grid. The result is the store as the loop leaves it and the next
    [current_index], or the exception that ended it. *)
Fixpoint copy_row (project_name output_path date_str wavelength : string)
    (new_folders_sorted : list string) (pics : list Z)
    (disk : gmap string content) (current_index : nat)
    : gmap string content * result nat :=
  match pics with
  | [] => (disk, Ok current_index)
  | i :: pics' =>
      let new_name := new_name project_name date_str wavelength i in
      match new_folders_sorted !! current_index with
      | None => (disk, Raise IndexError)
      | Some folder =>
          let old_folder := path_join Cubes.SAVED_IMAGES_DIRECTORY folder in
          let new_folder := path_join output_path new_name in
          match copytree disk old_folder new_folder with
          | Raise e => (disk, Raise e)
          | Ok disk' =>
              copy_row project_name output_path date_str wavelength
                new_folders_sorted pics' disk' (S current_index)
          end
      end
  end.

(** The outer loop over the rows [(wavelength, num_pictures)] of the grid. *)
Fixpoint copy_rows (project_name output_path date_str : string)
    (new_folders_sorted : list string) (tree : list (string * Z))
    (disk : gmap string content) (current_index : nat)
    : gmap string content * result nat :=
  match tree with
  | [] => (disk, Ok current_index)
  | (wavelength, num_pictures) :: tree' =>
      match copy_row project_name output_path date_str wavelength
              new_folders_sorted (Sequencer.range1 num_pictures) disk
              current_index with
      | (disk', Raise e) => (disk', Raise e)
      | (disk', Ok current_index') =>
          copy_rows project_name output_path date_str new_folders_sorted
            tree' disk' current_index'
      end
  end.

(** [rename_and_copy_folders(new_folders_sorted)]: the store afterwards
    and the exception that ended the call, if any; [date_str] is the
    formatted clock reading. *)
Definition rename_and_copy_folders (project_name output_path date_str : string)
    (tree : list (string * Z)) (new_folders_sorted : list string)
    (disk : gmap string content) : gmap string content * option exn :=
  match copy_rows project_name output_path date_str new_folders_sorted tree
          disk 0 with
  | (disk', Raise e) => (disk', Some e)
  | (disk', Ok _) => (disk', None)
  end.

(** Where the folder of a step is copied from and to. *)
Definition source_of (folder : string) : string :=
  path_join Cubes.SAVED_IMAGES_DIRECTORY folder.

Definition target_of (project_name output_path date_str : string)
    (step : string * Z) : string :=
  path_join output_path (new_name project_name date_str step.1 step.2).

(** The two loops as one loop over the steps [(wavelength, i)]. *)
Fixpoint copy_steps (project_name output_path date_str : string)
    (new_folders_sorted : list string) (steps : list (string * Z))
    (disk : gmap string content) (current_index : nat)
    : gmap string content * result nat :=
  match steps with
  | [] => (disk, Ok current_index)
  | step :: steps' =>
      match new_folders_sorted !! current_index with
      | None => (disk, Raise IndexError)
      | Some folder =>
          match copytree disk (source_of folder)
                  (target_of project_name output_path date_str step) with
          | Raise e => (disk, Raise e)
          | Ok disk' =>
              copy_steps project_name output_path date_str new_folders_sorted
                steps' disk' (S current_index)
          end
      end
  end.

End Copy.

(** A string without underscores. *)
Definition no_underscore (s : string) : Prop :=
  Forall (fun c => c <> "_"%char) (list_ascii_of_string s).

End Folders.

(** * Part II: properties *)

(** *** [int] inverts [str] *)

Module PyFacts.
Import Py.

Lemma digits_string_of_uint d acc :
  digits (NilEmpty.string_of_uint d) acc true = Some (uint_value d acc).
Proof.
  revert acc; induction d; intros acc; simpl; try reflexivity; apply IHd.
Qed.

Lemma digits_first_digit d acc :
  d <> Decimal.Nil ->
  digits (NilEmpty.string_of_uint d) acc false = Some (uint_value d acc).
Proof.
  destruct d; intros Hd; try congruence; simpl; apply digits_string_of_uint.
Qed.

Lemma uint_value_acc d p : uint_value d (Zpos p) = Zpos (Pos.of_uint_acc d p).
Proof.
  revert p; induction d; intros p; simpl; try reflexivity;
    rewrite <- IHd; f_equal; lia.
Qed.

Lemma uint_value_of_uint d : uint_value d 0 = Z.of_N (Pos.of_uint d).
Proof.
  induction d; simpl; try reflexivity; try apply IHd;
    apply (uint_value_acc d).
Qed.

Lemma to_uint_nonnil p : Pos.to_uint p <> Decimal.Nil.
Proof.
  intros H. pose proof (DecimalPos.Unsigned.of_to p) as E.
  rewrite H in E. discriminate.
Qed.

Lemma uint_value_to_uint p : uint_value (Pos.to_uint p) 0 = Zpos p.
Proof.
  rewrite uint_value_of_uint, DecimalPos.Unsigned.of_to. reflexivity.
Qed.

Lemma lstrip_no_space s : no_space s -> lstrip s = s.
Proof.
  destruct s as [|c s]; intros H; simpl; [reflexivity|].
  rewrite (H c); [reflexivity | now left].
Qed.

Lemma rstrip_no_space s : no_space s -> rstrip s = s.
Proof.
  induction s as [|c s IH]; intros H; simpl; [reflexivity|].
  rewrite IH by (intros c' Hc'; apply H; now right).
  destruct s; [|reflexivity].
  rewrite (H c); [reflexivity | now left].
Qed.

Lemma strip_no_space s : no_space s -> strip s = s.
Proof.
  intros H. unfold strip. rewrite lstrip_no_space by assumption.
  now apply rstrip_no_space.
Qed.

Lemma no_space_string_of_uint d : no_space (NilEmpty.string_of_uint d).
Proof.
  induction d; intros c Hc; simpl in Hc; try contradiction;
    (destruct Hc as [<- | Hc]; [reflexivity | now apply IHd]).
Qed.

Lemma int_string_of_uint d :
  d <> Decimal.Nil ->
  int (NilEmpty.string_of_uint d) = Some (uint_value d 0).
Proof.
  intros Hd. unfold int.
  rewrite strip_no_space by apply no_space_string_of_uint.
  rewrite <- (digits_first_digit d 0 Hd).
  destruct d; try congruence; reflexivity.
Qed.

Theorem int_str (z : Z) : int (str z) = Some z.
Proof.
  destruct z as [|p|p]; simpl; [reflexivity| |].
  - rewrite int_string_of_uint by apply to_uint_nonnil.
    now rewrite uint_value_to_uint.
  - unfold int. rewrite strip_no_space.
    + rewrite digits_first_digit by apply to_uint_nonnil.
      now rewrite uint_value_to_uint.
    + intros c [<- | Hc]; [reflexivity|].
      now apply (no_space_string_of_uint (Pos.to_uint p)).
Qed.

Lemma str_inj (a b : Z) : str a = str b -> a = b.
Proof.
  intros H. apply (f_equal int) in H. rewrite !int_str in H. congruence.
Qed.

End PyFacts.


(** ** The ledger: upsert keeps one record per index *)

Module LedgerFacts.
Import Ledger.

Lemma row_index_call_row c : row_index (call_row c) = Some (c_index c).
Proof. apply PyFacts.int_str. Qed.

Lemma readable_call_row c : readable (call_row c).
Proof. right. rewrite row_index_call_row. eauto. Qed.

(** What the search loop returns on readable rows: the first row carrying
    the index, or nothing when no row carries it. *)
Lemma find_entry_spec rows index i :
  Forall readable rows ->
  (exists l1 r l2, rows = l1 ++ r :: l2 /\ row_index r = Some index /\
     Forall (fun r => row_index r <> Some index) l1 /\
     find_entry rows index i = Ok (Some (i + length l1)%nat))
  \/ (Forall (fun r => row_index r <> Some index) rows /\
      find_entry rows index i = Ok None).
Proof.
  intros Hrd. revert i. induction Hrd as [|r rows Hr _ IH]; intros i.
  - right. split; [constructor | reflexivity].
  - assert (Hstep : row_index r <> Some index ->
                    find_entry (r :: rows) index i = find_entry rows index (S i)).
    { intros Hne. destruct r as [|c cs]; [reflexivity|].
      unfold readable in Hr. cbn [find_entry row_index] in *.
      destruct (Py.int c) as [z|]; [|destruct Hr as [? | [? ?]]; done].
      destruct (Z.eqb_spec z index); congruence. }
    destruct (decide (row_index r = Some index)) as [Heq | Hne].
    + left. exists [], r, rows. repeat split; [assumption | constructor |].
      destruct r as [|c cs]; [discriminate|].
      cbn [find_entry row_index] in *. rewrite Heq.
      rewrite Z.eqb_refl. do 2 f_equal. simpl. lia.
    + rewrite (Hstep Hne).
      destruct (IH (S i)) as [(l1 & r' & l2 & -> & Hr' & Hl1 & Hf) | [Hall Hf]].
      * left. exists (r :: l1), r', l2. repeat split; try assumption.
        -- constructor; assumption.
        -- rewrite Hf. simpl. do 2 f_equal. lia.
      * right. split; [constructor; assumption | assumption].
Qed.

Lemma filter_index_none index (l : list row) :
  Forall (fun r => row_index r <> Some index) l ->
  filter (fun r => row_index r = Some index) l = [].
Proof.
  induction 1 as [|r l Hr _ IH]; [reflexivity|].
  rewrite filter_cons. destruct (decide _); [contradiction | assumption].
Qed.

Lemma not_in_indices index (l : list row) :
  index ∉ omap row_index l ->
  Forall (fun r => row_index r <> Some index) l.
Proof.
  intros Hni. apply Forall_forall. intros r Hr Heq. apply Hni.
  apply list_elem_of_omap. eauto.
Qed.

Lemma indices_not_in index (l : list row) :
  Forall (fun r => row_index r <> Some index) l ->
  index ∉ omap row_index l.
Proof.
  intros Hall Hin. apply list_elem_of_omap in Hin as (r & Hr & Heq).
  rewrite Forall_forall in Hall. exact (Hall r Hr Heq).
Qed.

Lemma insert_middle {A} (h : A) l1 r l2 x :
  <[(1 + length l1)%nat := x]> (h :: l1 ++ r :: l2) = h :: l1 ++ x :: l2.
Proof.
  simpl. f_equal. rewrite insert_app_r_alt by lia.
  rewrite Nat.sub_diag. reflexivity.
Qed.

(** One call on a well-formed ledger: the call succeeds, the whole table is
    written back, and the table holds exactly the call's row for its index
    while the rows of every other index are those it had. *)
Lemma upsert_step (fs : gmap string table) path t c :
  fs !! path = Some t -> ledger_wf t ->
  exists t', upsert fs path c = Ok (<[path := t']> fs) /\ ledger_wf t' /\
    head t' = head t /\
    forall index, records_for index t' =
      if decide (c_index c = index) then [call_row c] else records_for index t.
Proof.
  intros Hfs (Hne & Hrd & Hnd).
  destruct t as [|h rows]; [congruence|]. cbn [tail] in Hrd, Hnd.
  unfold upsert, update_acquisition_log. rewrite Hfs.
  fold (call_row c). cbv zeta. cbn [default from_option tail id].
  destruct (find_entry_spec rows (c_index c) 1 Hrd)
    as [(l1 & r & l2 & -> & Hr & Hl1 & Hf) | [Hall Hf]];
    rewrite Hf; cbn [mbind result_bind mret result_ret].
  - (* the row exists: it is overwritten in place *)
    rewrite insert_middle.
    exists (h :: l1 ++ call_row c :: l2).
    rewrite omap_app in Hnd. cbn [omap list_omap] in Hnd. rewrite Hr in Hnd.
    apply NoDup_app in Hnd as (Hnd1 & Hdisj & Hnd2).
    apply NoDup_cons in Hnd2 as [Hni2 Hnd2].
    apply Forall_app in Hrd as [Hrd1 Hrd2].
    apply Forall_cons in Hrd2 as [_ Hrd2].
    split; [reflexivity|]. split; [|split; [reflexivity|]].
    + split; [discriminate|]. cbn [tail]. split.
      * apply Forall_app. split; [assumption|].
        constructor; [apply readable_call_row | assumption].
      * rewrite omap_app. cbn [omap list_omap]. rewrite row_index_call_row.
        apply NoDup_app. repeat split; try assumption.
        apply NoDup_cons. split; assumption.
    + intros index. unfold records_for. cbn [tail].
      rewrite !filter_app, !filter_cons, row_index_call_row, Hr.
      destruct (decide (c_index c = index)) as [<- | Hne'].
      * rewrite (filter_index_none _ l1 Hl1).
        rewrite (filter_index_none _ l2 (not_in_indices _ _ Hni2)).
        destruct (decide _); [reflexivity | congruence].
      * destruct (decide (Some (c_index c) = Some index)); [congruence|].
        reflexivity.
  - (* no row yet: the entry is appended *)
    exists (h :: rows ++ [call_row c]).
    split; [reflexivity|]. split; [|split; [reflexivity|]].
    + split; [discriminate|]. cbn [tail]. split.
      * apply Forall_app. split; [assumption|].
        constructor; [apply readable_call_row | constructor].
      * rewrite omap_app. cbn [omap list_omap]. rewrite row_index_call_row.
        apply NoDup_app. repeat split; [assumption | | apply NoDup_singleton].
        intros x Hx Hx'. apply list_elem_of_singleton in Hx'. subst x.
        exact (indices_not_in _ _ Hall Hx).
    + intros index. unfold records_for. cbn [tail].
      rewrite filter_app, filter_cons, row_index_call_row, filter_nil.
      destruct (decide (c_index c = index)) as [<- | Hne'].
      * rewrite (filter_index_none _ rows Hall).
        destruct (decide _); [reflexivity | congruence].
      * destruct (decide (Some (c_index c) = Some index)); [congruence|].
        apply app_nil_r.
Qed.

Lemma last_call_cons index c cs :
  last_call index (c :: cs) =
  match last_call index cs with
  | Some c' => Some c'
  | None => if decide (c_index c = index) then Some c else None
  end.
Proof.
  unfold last_call. rewrite filter_cons.
  destruct (decide (c_index c = index)); [|destruct (last _); reflexivity].
  apply last_cons.
Qed.

(** The log file that [create_acquisition_log_file] writes is well formed. *)
Lemma create_wf fs output_path project_name timestamp :
  let '(fs', log_path) :=
    create_acquisition_log_file fs output_path project_name timestamp in
  exists t, fs' !! log_path = Some t /\ ledger_wf t /\ t = [header_row].
Proof.
  simpl. eexists. split; [apply lookup_insert_eq|].
  split; [|reflexivity]. repeat split; [discriminate | constructor | constructor].
Qed.

(** C2. On every well-formed ledger file, any sequence of
    [update_acquisition_log] calls succeeds and leaves, for every index
    that was written, exactly one record, holding the values of the latest
    call for that index; indices not written keep their records, the header
    is kept, the ledger stays well formed (no index twice), and the file
    holds the whole table after the calls (no other file is touched). *)
Theorem update_acquisition_log_upsert
    (fs : gmap string table) (log_path : string) (t : table) (cs : list call) :
  fs !! log_path = Some t -> ledger_wf t ->
  exists t', upsert_all fs log_path cs = Ok (<[log_path := t']> fs) /\
    ledger_wf t' /\ head t' = head t /\
    forall index, records_for index t' =
      match last_call index cs with
      | Some c => [call_row c]
      | None => records_for index t
      end.
Proof.
  revert fs t. induction cs as [|c cs IH]; intros fs t Hfs Hwf.
  - exists t. simpl. rewrite insert_id by assumption. auto.
  - destruct (upsert_step fs log_path t c Hfs Hwf) as (t1 & Hup & Hwf1 & Hh1 & Hrec1).
    destruct (IH (<[log_path := t1]> fs) t1) as (t' & Hall & Hwf' & Hh' & Hrec');
      [apply lookup_insert_eq | assumption |].
    exists t'. cbn [upsert_all]. rewrite Hup. cbn [mbind result_bind].
    rewrite Hall, insert_insert_eq. repeat split; try apply Hwf'.
    + congruence.
    + intros index. rewrite Hrec', last_call_cons, Hrec1.
      destruct (last_call index cs); [reflexivity|].
      destruct (decide (c_index c = index)); reflexivity.
Qed.

(** The pending-then-completed scenario on a fresh ledger. *)
Lemma update_acquisition_log_upsert_witness :
  let fs : gmap string table := {[ "log.csv" := [header_row] ]} in
  let c1 := Call "t0" 0 "500" 1 "p_500_1" "" "pending" 0 in
  let c2 := Call "t1" 0 "500" 1 "p_500_1" "a.bin" "completed" 64 in
  exists t', upsert_all fs "log.csv" [c1; c2] = Ok (<["log.csv" := t']> fs) /\
    ledger_wf t' /\ head t' = head [header_row] /\
    forall index, records_for index t' =
      match last_call index [c1; c2] with
      | Some c => [call_row c]
      | None => records_for index [header_row]
      end.
Proof.
  intros fs c1 c2.
  apply (update_acquisition_log_upsert fs "log.csv" [header_row] [c1; c2]).
  - reflexivity.
  - repeat split; [discriminate | constructor | constructor].
Defined.

End LedgerFacts.




(** ** The ledger: loading the incomplete acquisitions *)

Module LoadFacts.
Import Ledger.

Lemma dict_item_status r : dict_item header_row r "Status" = Ok (row_status r).
Proof.
  unfold dict_item, row_status.
  destruct r as [|c0 [|c1 [|c2 [|c3 [|c4 [|c5 r]]]]]]; reflexivity.
Qed.

Lemma dict_item_wavelength r :
  dict_item header_row r "Wavelength" = Ok (row_wavelength r).
Proof.
  unfold dict_item, row_wavelength.
  destruct r as [|c0 [|c1 r]]; reflexivity.
Qed.

Lemma dict_incr_count d key k :
  dict_count (dict_incr d key) k =
  dict_count d k + (if decide (key = k) then 1 else 0).
Proof.
  induction d as [|[k' n] d IH]; cbn [dict_incr dict_count].
  - destruct (decide (key = k)); reflexivity.
  - destruct (decide (k' = key)) as [-> | Hne]; cbn [dict_count].
    + destruct (decide (key = k)); lia.
    + destruct (decide (k' = k)) as [-> | Hne']; [|exact IH].
      destruct (decide (key = k)); [congruence | lia].
Qed.

Lemma dict_incr_total d key : dict_total (dict_incr d key) = dict_total d + 1.
Proof.
  unfold dict_total. induction d as [|[k n] d IH]; cbn [dict_incr foldr snd].
  - reflexivity.
  - destruct (decide (k = key)); cbn [foldr snd]; lia.
Qed.

Lemma dict_incr_keys d key k :
  k ∈ (dict_incr d key).*1 <-> k ∈ d.*1 \/ k = key.
Proof.
  induction d as [|[k' n] d IH]; cbn [dict_incr fmap list_fmap fst].
  - rewrite list_elem_of_singleton. split; [auto | intros [H|H]; [inversion H | auto]].
  - destruct (decide (k' = key)) as [-> | Hne]; cbn [fmap list_fmap fst];
      rewrite !elem_of_cons.
    + tauto.
    + change (k ∈ (dict_incr d key).*1 <-> k ∈ d.*1 \/ k = key) in IH. tauto.
Qed.

Lemma dict_incr_NoDup d key : NoDup d.*1 -> NoDup (dict_incr d key).*1.
Proof.
  induction d as [|[k n] d IH]; cbn [dict_incr fmap list_fmap fst]; intros Hnd.
  - apply NoDup_singleton.
  - apply NoDup_cons in Hnd as [Hni Hnd].
    destruct (decide (k = key)) as [-> | Hne]; cbn [fmap list_fmap fst];
      apply NoDup_cons.
    + split; assumption.
    + split; [|apply IH, Hnd]. intros Hin.
      apply dict_incr_keys in Hin as [Hin | ->]; [exact (Hni Hin) | congruence].
Qed.

Lemma dict_incr_positive d key :
  Forall (fun x => 0 < x.2) d -> Forall (fun x => 0 < x.2) (dict_incr d key).
Proof.
  induction 1 as [|[k n] d Hn Hd IH]; cbn [dict_incr].
  - repeat constructor.
  - cbn [snd] in Hn. destruct (decide (k = key)); constructor; cbn [snd];
      try lia; assumption.
Qed.

(** The loop on a file with the ledger's header: the dictionary grows by
    the number of counted rows of each wavelength. *)
Lemma count_rows_spec rows : forall d,
  NoDup d.*1 -> Forall (fun x => 0 < x.2) d ->
  exists d', count_rows header_row rows d = Ok d' /\
    NoDup d'.*1 /\ Forall (fun x => 0 < x.2) d' /\
    dict_total d' = dict_total d + Z.of_nat (length (filter counted rows)) /\
    forall wl, dict_count d' wl =
      dict_count d wl +
      Z.of_nat (length (filter (fun r => counted r /\ row_wavelength r = wl) rows)).
Proof.
  induction rows as [|r rows IH]; intros d Hnd Hpos.
  - exists d. cbn. repeat split; try assumption; intros; lia.
  - destruct (decide (r = [])) as [-> | Hr].
    + destruct (IH d Hnd Hpos) as (d' & Hrun & Hnd' & Hpos' & Htot & Hcnt).
      exists d'. cbn [count_rows]. rewrite filter_cons_False by (intros [? _]; done).
      repeat split; try assumption.
      all: intros wl; rewrite filter_cons_False by (intros [[? _] _]; done);
        apply Hcnt.
    + assert (Hstep : count_rows header_row (r :: rows) d =
                (if incomplete (row_status r)
                 then count_rows header_row rows (dict_incr d (row_wavelength r))
                 else count_rows header_row rows d)).
      { destruct r as [|c r]; [done|]. cbn [count_rows].
        rewrite dict_item_status. cbn [mbind result_bind].
        destruct (incomplete _); [|reflexivity].
        rewrite dict_item_wavelength. reflexivity. }
      rewrite Hstep. clear Hstep.
      destruct (incomplete (row_status r)) eqn:Hinc.
      * destruct (IH (dict_incr d (row_wavelength r)))
          as (d' & Hrun & Hnd' & Hpos' & Htot & Hcnt);
          [now apply dict_incr_NoDup | now apply dict_incr_positive |].
        exists d'. rewrite filter_cons_True by (split; assumption).
        repeat split; try assumption.
        -- rewrite Htot, dict_incr_total. cbn [length]. lia.
        -- intros wl. rewrite Hcnt, dict_incr_count, filter_cons.
           destruct (decide (row_wavelength r = wl)) as [Heq | Hne].
           ++ rewrite decide_True by (repeat split; assumption).
              cbn [length]. lia.
           ++ rewrite decide_False by (intros [_ ?]; contradiction). lia.
      * destruct (IH d Hnd Hpos) as (d' & Hrun & Hnd' & Hpos' & Htot & Hcnt).
        exists d'.
        rewrite filter_cons_False by (intros [_ ?]; congruence).
        repeat split; try assumption.
        intros wl. rewrite filter_cons_False by (intros [[_ ?] _]; congruence).
        apply Hcnt.
Qed.

(** C5. On every log file with the ledger's header, loading counts, for
    each wavelength, exactly the records whose status is pending, timeout
    or cancelled: every wavelength is listed once, with a positive count,
    the count of a wavelength (0 when it is not listed) is the number of
    such records, and the grid is replaced by these pairs; records with
    any other status, completed among them, are not counted. *)
Theorem load_acquisition_from_csv_counts
    (f : gmap string table) (path : string) (t : table)
    (tree : list (option string * Z)) :
  path <> "" -> f !! path = Some t -> head t = Some header_row ->
  exists d, count_incomplete t = Ok d /\
    NoDup d.*1 /\ Forall (fun x => 0 < x.2) d /\
    (forall wl, dict_count d wl = Z.of_nat (length (incomplete_rows wl t))) /\
    load_acquisition_from_csv f (Some path) tree =
      (d, if decide (d = []) then AllCompleted
          else LoadedIncomplete
                 (Z.of_nat (length (filter counted (tail t)))) (length d)).
Proof.
  intros Hpath Hf Hhead. destruct t as [|h rows]; [discriminate|].
  cbn [head] in Hhead. injection Hhead as ->.
  destruct (count_rows_spec rows []) as (d & Hrun & Hnd & Hpos & Htot & Hcnt);
    [constructor | constructor |].
  exists d. cbn [count_incomplete]. repeat split; try assumption.
  - intros wl. rewrite Hcnt. cbn [dict_count]. unfold incomplete_rows. cbn [tail].
    rewrite Z.add_0_l. do 2 f_equal. apply list_filter_iff.
    unfold counted. intros r. tauto.
  - unfold load_acquisition_from_csv. destruct path as [|a path]; [done|].
    rewrite Hf. cbn [count_incomplete]. rewrite Hrun.
    destruct d as [|x d]; [reflexivity|].
    rewrite decide_False by discriminate. cbn [app]. do 2 f_equal.
    cbn [tail]. fold (dict_total (x :: d)). rewrite Htot. reflexivity.
Qed.

(** A ledger with one row of each status: the completed row is left out,
    the other three are counted under their wavelengths. *)
Lemma load_acquisition_from_csv_counts_witness :
  let t := [header_row;
            ["0"; "500"; "1"; "p_500_1"; "a.bin"; "completed"; "t4"; "64"];
            ["1"; "500"; "2"; "p_500_2"; ""; "pending"; "t1"; "0"];
            ["2"; "600"; "1"; "p_600_1"; ""; "timeout"; "t5"; "0"];
            ["3"; "500"; "3"; "p_500_3"; ""; "cancelled"; "t6"; "0"]] in
  let f : gmap string table := {[ "log.csv" := t ]} in
  exists d, count_incomplete t = Ok d /\
    NoDup d.*1 /\ Forall (fun x => 0 < x.2) d /\
    (forall wl, dict_count d wl = Z.of_nat (length (incomplete_rows wl t))) /\
    load_acquisition_from_csv f (Some "log.csv") [] =
      (d, if decide (d = []) then AllCompleted
          else LoadedIncomplete
                 (Z.of_nat (length (filter counted (tail t)))) (length d)).
Proof.
  intros t f.
  apply (load_acquisition_from_csv_counts f "log.csv" t []).
  - discriminate.
  - reflexivity.
  - reflexivity.
Defined.

End LoadFacts.


(** ** The watcher *)

Module WatcherFacts.
Import Watcher.

Lemma elem_of_set_difference f current initial :
  f ∈ set_difference current initial <-> f ∈ current /\ f ∉ initial.
Proof.
  unfold set_difference. rewrite list_elem_of_filter, elem_of_remove_dups. tauto.
Qed.



(** Without a file carrying the extension the [for] loop ends where it
    started. *)
Lemma scan_no_candidate D l now :
  Forall (fun f => Py.endswith f ".bin" = false) l -> scan D l now = ScanDone now.
Proof.
  induction 1 as [|f l Hf _ IH]; cbn [scan]; [reflexivity|]. now rewrite Hf.
Qed.




(** Without a candidate during the wait the loop runs into the timeout. *)
Lemma poll_timeout D initial start timeout : forall fuel now,
  (start <= now)%nat ->
  timeout - (Z.of_nat now - Z.of_nat start) <= Z.of_nat fuel ->
  (forall t f, (start <= t)%nat -> Z.of_nat t - Z.of_nat start < timeout ->
     ~ candidate_at D initial t f) ->
  poll D initial start timeout fuel now = Some None.
Proof.
  induction fuel as [|fuel IH]; intros now Hstart Hfuel Hnone; cbn [poll];
    destruct (Z.ltb_spec (Z.of_nat now - Z.of_nat start) timeout); try reflexivity;
    try lia.
  destruct (listdir D now) as [files|] eqn:Hls; [|apply IH; [lia | lia | assumption]].
  rewrite scan_no_candidate; [apply IH; [lia | lia | assumption]|].
  apply Forall_forall. intros f Hin.
  apply elem_of_set_difference in Hin as [Hin Hni].
  destruct (Py.endswith f ".bin") eqn:Hext; [|reflexivity].
  exfalso. apply (Hnone now f Hstart); [assumption|]. exists files. auto.
Qed.



End WatcherFacts.

(** ** The driver: plan expansion *)

Module SequencerFacts.
Import Ledger Sequencer LedgerFacts.

(** A call on a ledger that has no record for the index appends its row. *)
Lemma upsert_fresh (f : gmap string table) path t c :
  f !! path = Some t -> ledger_wf t -> records_for (c_index c) t = [] ->
  upsert f path c = Ok (<[path := t ++ [call_row c]]> f).
Proof.
  intros Hf (Hne & Hrd & _) Hrec.
  destruct t as [|h rows]; [congruence|]. cbn [tail] in Hrd.
  unfold upsert, update_acquisition_log. rewrite Hf.
  fold (call_row c). cbv zeta. cbn [default from_option tail id].
  destruct (find_entry_spec rows (c_index c) 1 Hrd)
    as [(l1 & r & l2 & -> & Hr & _ & _) | [_ Hfind]].
  - exfalso. unfold records_for in Hrec. cbn [tail] in Hrec.
    rewrite filter_app, filter_cons in Hrec.
    destruct (decide _) as [_|Hn]; [|contradiction].
    destruct (filter _ l1); discriminate.
  - rewrite Hfind. reflexivity.
Qed.

(** [log_upsert] on a well-formed ledger: one more event, carrying the
    call, and the ledger change of [upsert_step]. *)
Lemma log_upsert_spec E w path t idx wl pic name raw st size :
  fs w !! path = Some t -> ledger_wf t ->
  let c := Call (clock E (length (trace w))) idx wl pic name raw st size in
  exists t',
    log_upsert E w path idx wl pic name raw st size =
      Ok {| fs := <[path := t']> (fs w);
            trace := trace w ++ [(EvLedgerWrite c, <[path := t']> (fs w))] |} /\
    ledger_wf t' /\ head t' = head t /\
    (records_for idx t = [] -> t' = t ++ [call_row c]) /\
    forall index, records_for index t' =
      if decide (idx = index) then [call_row c] else records_for index t.
Proof.
  intros Hf Hwf c.
  destruct (upsert_step (fs w) path t c Hf Hwf) as (t' & Hup & Hwf' & Hh & Hrec).
  exists t'. unfold log_upsert. fold c.
  change (update_acquisition_log _ _ _ _ _ _ _ _ _ _) with (upsert (fs w) path c).
  rewrite Hup. split; [reflexivity|]. split; [assumption|].
  split; [assumption|]. split; [|assumption].
  intros Hfresh. pose proof (upsert_fresh (fs w) path t c Hf Hwf Hfresh) as Hup'.
  rewrite Hup in Hup'. injection Hup' as Heq.
  apply (f_equal (fun m => m !! path)) in Heq.
  rewrite !lookup_insert_eq in Heq. congruence.
Qed.

Lemma row_index_pending_row E e : row_index (pending_row E e) = Some (index e).
Proof. apply PyFacts.int_str. Qed.

Lemma indices_pending_rows E l :
  omap row_index (map (pending_row E) l) = map index l.
Proof.
  induction l as [|e l IH]; [reflexivity|].
  cbn [map omap list_omap]. rewrite row_index_pending_row. f_equal. exact IH.
Qed.

Lemma NoDup_of_nat_seq n : NoDup (map Z.of_nat (seq 0 n)).
Proof.
  apply NoDup_fmap_2; [intros a b; lia | apply NoDup_seq].
Qed.

(** The pre-populated table is a well-formed ledger. *)
Lemma pending_table_wf E l :
  map index l = map Z.of_nat (seq 0 (length l)) ->
  ledger_wf (header_row :: map (pending_row E) l).
Proof.
  intros Hidx. split; [discriminate|]. cbn [tail]. split.
  - apply Forall_forall. intros r Hr. apply list_elem_of_fmap in Hr as (e & -> & _).
    right. rewrite row_index_pending_row. eauto.
  - rewrite indices_pending_rows, Hidx. apply NoDup_of_nat_seq.
Qed.

Lemma pending_table_fresh E l :
  map index l = map Z.of_nat (seq 0 (length l)) ->
  records_for (Z.of_nat (length l)) (header_row :: map (pending_row E) l) = [].
Proof.
  intros Hidx. unfold records_for. cbn [tail]. apply filter_index_none.
  apply not_in_indices. rewrite indices_pending_rows, Hidx.
  intros Hin. apply list_elem_of_fmap in Hin as (k & Hk & Hin).
  apply elem_of_seq in Hin. lia.
Qed.

Lemma prepopulate_row_spec E path f0 wl pics : forall steps st,
  build_inv E path f0 steps st ->
  exists st', prepopulate_row E path wl pics st = Ok st' /\
    build_inv E path f0 (steps ++ map (fun i => (wl, i)) pics) st'.
Proof.
  induction pics as [|i pics IH]; intros steps [[w l] idx] Hinv.
  - exists (w, l, idx). split; [reflexivity|]. cbn [map]. now rewrite app_nil_r.
  - destruct Hinv as (Hidx & Hlen & Hseq & Hsteps & Hnames & Hfs & Htr).
    cbn [prepopulate_row].
    set (name := project_name E +:+ "_" +:+ wl +:+ "_" +:+ Py.str i).
    set (e := LogEntry idx wl i name).
    pose proof (pending_table_wf E l Hseq) as Hwf.
    pose proof (pending_table_fresh E l Hseq) as Hfresh. rewrite <- Hidx in Hfresh.
    assert (Hlook : fs w !! path = Some (header_row :: map (pending_row E) l))
      by (rewrite Hfs; apply lookup_insert_eq).
    destruct (log_upsert_spec E w path _ idx wl i name "" status_pending 0 Hlook Hwf)
      as (t' & Hup & _ & _ & Happ & _).
    specialize (Happ Hfresh). rewrite Hup. cbn [mbind result_bind].
    assert (Hrow : call_row (Call (clock E (length (trace w))) idx wl i name ""
                               status_pending 0) = pending_row E e).
    { unfold call_row, pending_row, e.
      cbn [c_now c_index c_wavelength c_pic_num c_expected_name c_raw_filename
           c_status c_file_size index wavelength pic_num expected_name].
      replace (Z.to_nat idx) with (length l) by lia. rewrite Hlen. reflexivity. }
    rewrite Hrow in Happ. subst t'.
    replace (steps ++ map (fun i0 => (wl, i0)) (i :: pics))
      with ((steps ++ [(wl, i)]) ++ map (fun i0 => (wl, i0)) pics)
      by (rewrite <- app_assoc; reflexivity).
    apply IH. unfold build_inv. cbn [fs trace].
    rewrite !length_app. cbn [length]. repeat split.
    + lia.
    + lia.
    + rewrite map_app, Hseq. unfold e. cbn [map index]. rewrite Hidx.
      replace (length l + 1)%nat with (S (length l)) by lia.
      rewrite seq_S, map_app. reflexivity.
    + rewrite map_app, Hsteps. reflexivity.
    + apply Forall_app. split; [assumption|]. constructor; [reflexivity | constructor].
    + rewrite Hfs, insert_insert_eq. f_equal.
      rewrite map_app. reflexivity.
    + apply Forall_app. split; [assumption|].
      constructor; [eexists; reflexivity | constructor].
Qed.

Lemma build_plan_spec E path f0 plan : forall steps st,
  build_inv E path f0 steps st ->
  exists st', build_plan E path plan st = Ok st' /\
    build_inv E path f0 (steps ++ plan_steps plan) st'.
Proof.
  induction plan as [|[wl n] plan IH]; intros steps st Hinv.
  - exists st. split; [reflexivity|]. unfold plan_steps. cbn. now rewrite app_nil_r.
  - destruct (prepopulate_row_spec E path f0 wl (range1 n) steps st Hinv)
      as (st1 & Hrow & Hinv1).
    destruct (IH _ st1 Hinv1) as (st' & Hrest & Hinv').
    exists st'. cbn [build_plan]. rewrite Hrow. cbn [mbind result_bind].
    split; [assumption|].
    unfold plan_steps in *. cbn [flat_map fst snd]. rewrite app_assoc. exact Hinv'.
Qed.

Lemma plan_steps_length plan :
  Forall (fun r => 0 < r.2) plan ->
  Z.of_nat (length (plan_steps plan)) = plan_total plan.
Proof.
  induction 1 as [|[wl n] plan Hn _ IH]; [reflexivity|].
  unfold plan_steps, plan_total in *. cbn [flat_map foldr fst snd] in *.
  rewrite length_app, Nat2Z.inj_add, IH, length_map.
  unfold range1. rewrite length_map, length_seq. lia.
Qed.

(** The run up to the first device command, shared by the statements
    about the expansion and about the driver loop. *)
Lemma expand_plan_spec E plan f0 :
  exists w acquisition_log log_path,
    expand_plan E plan f0 = Ok (w, acquisition_log, log_path) /\
    build_inv E log_path f0 (plan_steps plan)
      (w, acquisition_log, Z.of_nat (length acquisition_log)).
Proof.
  unfold expand_plan, create_acquisition_log_file.
  set (path := path_join _ _).
  destruct (build_plan_spec E path f0 plan []
              ({| fs := <[path := [header_row]]> f0; trace := [] |}, [], 0))
    as ([[w l] idx] & Hbuild & Hinv).
  { unfold build_inv. cbn [fs trace length map]. repeat split; try constructor.
    }
  exists w, l, path. rewrite Hbuild. cbn [mbind result_bind].
  split; [reflexivity|]. cbn [app] in Hinv.
  destruct Hinv as (Hidx & Hrest). split; [reflexivity | exact Hrest].
Qed.

(** C1. Starting the acquisition expands every plan with positive shot
    counts into as many steps as the shot counts add up to, indexed
    0, 1, ..., N-1 in plan order, the picture number running from 1 to the
    shot count within each row; after the expansion the log file holds the
    header and one row per step, in that order, each with status pending,
    and no device command has been issued. *)
Theorem execute_commands_expands_plan E plan (f0 : gmap string table) :
  Forall (fun r => 0 < r.2) plan ->
  exists w acquisition_log log_path,
    expand_plan E plan f0 = Ok (w, acquisition_log, log_path) /\
    Z.of_nat (length acquisition_log) = plan_total plan /\
    map index acquisition_log = map Z.of_nat (seq 0 (length acquisition_log)) /\
    map (fun e => (wavelength e, pic_num e)) acquisition_log = plan_steps plan /\
    fs w !! log_path = Some (header_row :: map (pending_row E) acquisition_log) /\
    Forall (fun r => row_status r = Some status_pending)
      (map (pending_row E) acquisition_log) /\
    Forall (fun x => is_device_command x.1 = false) (trace w).
Proof.
  intros Hpos.
  destruct (expand_plan_spec E plan f0)
    as (w & l & path & Hrun & _ & _ & Hseq & Hsteps & _ & Hfs & Htr).
  exists w, l, path. repeat split; try assumption.
  - rewrite <- (plan_steps_length plan Hpos), <- Hsteps, length_map. reflexivity.
  - rewrite Hfs. apply lookup_insert_eq.
  - apply Forall_forall. intros r Hr.
    apply list_elem_of_fmap in Hr as (e & -> & _). reflexivity.
  - eapply Forall_impl; [exact Htr|]. intros [ev f] [c Hc]. cbn in *.
    subst ev. reflexivity.
Qed.

(** *** The driver loop *)

Lemma recorded_status_single (f : gmap string table) path t idx c :
  f !! path = Some t -> records_for idx t = [call_row c] ->
  recorded_status f path idx = Some (c_status c).
Proof.
  intros Hf Hrec. unfold recorded_status. rewrite Hf. cbn [default from_option id].
  rewrite Hrec. reflexivity.
Qed.

Lemma recorded_status_same (f f' : gmap string table) path t t' idx :
  f !! path = Some t -> f' !! path = Some t' ->
  records_for idx t' = records_for idx t ->
  recorded_status f' path idx = recorded_status f path idx.
Proof.
  intros Hf Hf' Hrec. unfold recorded_status. rewrite Hf, Hf'.
  cbn [default from_option id]. rewrite Hrec. reflexivity.
Qed.

(** Cancelling: only ledger writes happen; the listed indices end up
    cancelled, every other index keeps its records. *)
Lemma cancel_remaining_spec E path remaining : forall w t,
  fs w !! path = Some t -> ledger_wf t ->
  exists w' t' new,
    cancel_remaining E path w remaining = Ok w' /\
    fs w' !! path = Some t' /\ ledger_wf t' /\
    trace w' = trace w ++ new /\ Forall (fun x => is_ledger_write x.1) new /\
    (forall idx, idx ∉ map index remaining ->
       records_for idx t' = records_for idx t) /\
    (forall idx, idx ∈ map index remaining ->
       recorded_status (fs w') path idx = Some status_cancelled).
Proof.
  induction remaining as [|e rest IH]; intros w t Hf Hwf.
  - exists w, t, []. rewrite app_nil_r. repeat split; try assumption; try constructor.
    + apply Hwf. + apply Hwf. + apply Hwf.
    + intros idx Hin. cbn in Hin. inversion Hin.
  - cbn [cancel_remaining].
    destruct (log_upsert_spec E w path t (index e) (wavelength e) (pic_num e)
                (expected_name e) "" status_cancelled 0 Hf Hwf)
      as (t1 & Hup & Hwf1 & _ & _ & Hrec1).
    rewrite Hup. cbn [mbind result_bind].
    set (c := Call _ _ _ _ _ _ _ _) in *.
    set (w1 := {| fs := _; trace := _ |}).
    destruct (IH w1 t1) as (w' & t' & new & Hrun & Hf' & Hwf' & Htr & Hnew & Hout & Hin);
      [apply lookup_insert_eq | assumption |].
    exists w', t', ((EvLedgerWrite c, <[path := t1]> (fs w)) :: new).
    split; [assumption|]. split; [assumption|]. split; [assumption|].
    split; [rewrite Htr; unfold w1; cbn [trace]; rewrite <- app_assoc; reflexivity|].
    split; [constructor; [exists c; reflexivity | assumption]|].
    split.
    + intros idx Hni. cbn [map] in Hni. apply not_elem_of_cons in Hni as [Hne Hni].
      rewrite (Hout idx Hni), Hrec1. destruct (decide _); [congruence | reflexivity].
    + intros idx Hidx. cbn [map] in Hidx.
      destruct (decide (idx ∈ map index rest)) as [Hr | Hr]; [apply Hin, Hr|].
      apply elem_of_cons in Hidx as [-> | Hidx]; [|contradiction].
      unfold recorded_status. rewrite Hf'. cbn [default from_option id].
      rewrite (Hout _ Hr), Hrec1. destruct (decide _); [reflexivity | congruence].
Qed.

(** One turn of the driver loop on a well-formed ledger: the wavelength
    command, the trigger, then the write of the step's outcome; after that
    the loop goes on, or asks and goes on, or asks and cancels the rest. *)
Lemma drive_step E path acquisition_log w e todo t :
  fs w !! path = Some t -> ledger_wf t ->
  exists t1 c,
    ledger_wf t1 /\ c_index c = index e /\ c_status c = outcome_status E e /\
    (forall idx, records_for idx t1 =
       if decide (index e = idx) then [call_row c] else records_for idx t) /\
    let f1 := <[path := t1]> (fs w) in
    let w2 := {| fs := f1;
                 trace := trace w ++
                   [(EvGowave (index e) (wavelength e), fs w);
                    (EvTrigger (index e), fs w);
                    (EvLedgerWrite c, f1)] |} in
    drive E path acquisition_log w (e :: todo) =
      if truthy (watcher E (index e)) then drive E path acquisition_log w2 todo
      else if operator E (index e)
           then drive E path acquisition_log (emit w2 (EvAsk (index e) true)) todo
           else cancel_remaining E path (emit w2 (EvAsk (index e) false))
                  (slice_from (index e + 1) acquisition_log).
Proof.
  intros Hf Hwf. cbn [drive]. unfold outcome_status.
  set (w1 := emit (emit w _) _).
  assert (Hf1 : fs w1 !! path = Some t) by exact Hf.
  assert (Htr1 : forall x, trace w1 ++ [x] =
            trace w ++ [(EvGowave (index e) (wavelength e), fs w);
                        (EvTrigger (index e), fs w); x]).
  { intros x. unfold w1, emit. cbn [trace fs]. rewrite <- !app_assoc. reflexivity. }
  destruct (truthy (watcher E (index e))).
  - destruct (log_upsert_spec E w1 path t (index e) (wavelength e) (pic_num e)
                (expected_name e) (default "" (watcher E (index e)))
                status_completed (getsize E (index e)) Hf1 Hwf)
      as (t1 & Hup & Hwf1 & _ & _ & Hrec1).
    exists t1, (Call (clock E (length (trace w1))) (index e) (wavelength e)
                  (pic_num e) (expected_name e) (default "" (watcher E (index e)))
                  status_completed (getsize E (index e))).
    repeat split; try assumption; try apply Hwf1.
    cbv zeta. rewrite Hup. cbn [mbind result_bind]. rewrite Htr1. reflexivity.
  - destruct (log_upsert_spec E w1 path t (index e) (wavelength e) (pic_num e)
                (expected_name e) "" status_timeout 0 Hf1 Hwf)
      as (t1 & Hup & Hwf1 & _ & _ & Hrec1).
    exists t1, (Call (clock E (length (trace w1))) (index e) (wavelength e)
                  (pic_num e) (expected_name e) "" status_timeout 0).
    repeat split; try assumption; try apply Hwf1.
    cbv zeta. rewrite Hup. cbn [mbind result_bind]. rewrite Htr1.
    destruct (operator E (index e)); reflexivity.
Qed.


Lemma index_at (l done todo : list log_entry) e :
  map index l = map Z.of_nat (seq 0 (length l)) -> l = done ++ e :: todo ->
  index e = Z.of_nat (length done).
Proof.
  intros Hidx ->. apply (f_equal (fun x => x !! length done)) in Hidx.
  rewrite !list_lookup_fmap, list_lookup_middle in Hidx by reflexivity.
  rewrite lookup_seq_lt in Hidx by (rewrite length_app; cbn [length]; lia).
  cbn in Hidx. congruence.
Qed.

Lemma outcome_after_step E (f f1 : gmap string table) path t t1 e c j :
  f !! path = Some t -> f1 !! path = Some t1 ->
  c_status c = outcome_status E e ->
  (forall idx, records_for idx t1 =
     if decide (index e = idx) then [call_row c] else records_for idx t) ->
  (j <> index e -> is_outcome (recorded_status f path j)) ->
  is_outcome (recorded_status f1 path j).
Proof.
  intros Hf Hf1 Hst Hrec Hold.
  destruct (decide (index e = j)) as [<- | Hne].
  - rewrite (recorded_status_single f1 path t1 (index e) c Hf1).
    + rewrite Hst. unfold outcome_status, is_outcome. destruct (truthy _); auto.
    + rewrite Hrec. destruct (decide _); [reflexivity | congruence].
  - rewrite (recorded_status_same f f1 path t t1 j Hf Hf1); [auto|].
    rewrite Hrec. destruct (decide _); [congruence | reflexivity].
Qed.

(** The loop invariant: when the loop reaches a step, every earlier step is
    recorded with its outcome; every dialog finds its step recorded as
    timed out. The loop always runs to its end. *)
Lemma drive_outcomes E path acquisition_log :
  map index acquisition_log = map Z.of_nat (seq 0 (length acquisition_log)) ->
  forall todo done w t,
    acquisition_log = done ++ todo ->
    fs w !! path = Some t -> ledger_wf t ->
    (forall i, 0 <= i < Z.of_nat (length done) ->
       is_outcome (recorded_status (fs w) path i)) ->
    exists w' new,
      drive E path acquisition_log w todo = Ok w' /\
      trace w' = trace w ++ new /\
      Forall (outcome_before_decision path) new.
Proof.
  intros Hidx. induction todo as [|e todo IH]; intros done w t Hl Hf Hwf Hdone.
  - exists w, []. rewrite app_nil_r. repeat split. constructor.
  - pose proof (index_at _ _ _ _ Hidx Hl) as He.
    destruct (drive_step E path acquisition_log w e todo t Hf Hwf)
      as (t1 & c & Hwf1 & Hci & Hcs & Hrec & Hdrive).
    cbv zeta in Hdrive. rewrite Hdrive. clear Hdrive.
    set (f1 := <[path := t1]> (fs w)).
    assert (Hf1 : f1 !! path = Some t1) by apply lookup_insert_eq.
    assert (Hdone1 : forall i, 0 <= i < Z.of_nat (length (done ++ [e])) ->
              is_outcome (recorded_status f1 path i)).
    { intros i Hi. rewrite length_app in Hi. cbn [length] in Hi.
      apply (outcome_after_step E (fs w) f1 path t t1 e c i Hf Hf1 Hcs Hrec).
      intros Hne. apply Hdone. lia. }
    assert (Hgo : outcome_before_decision path
                    (EvGowave (index e) (wavelength e), fs w)).
    { unfold outcome_before_decision. cbn [fst snd]. intros i Hi.
      apply Hdone. lia. }
    assert (Hl1 : acquisition_log = (done ++ [e]) ++ todo)
      by (rewrite <- app_assoc; exact Hl).
    assert (Hask : truthy (watcher E (index e)) = false -> forall a,
              outcome_before_decision path (EvAsk (index e) a, f1)).
    { intros Hto a. unfold outcome_before_decision. cbn [fst snd].
      rewrite (recorded_status_single f1 path t1 (index e) c Hf1).
      - rewrite Hcs. unfold outcome_status. now rewrite Hto.
      - rewrite Hrec. destruct (decide _); [reflexivity | congruence]. }
    destruct (truthy (watcher E (index e))) eqn:Htruthy;
      [|destruct (operator E (index e))].
    + (* a file arrived *)
      match goal with |- context [drive _ _ _ ?w2 todo] =>
        destruct (IH (done ++ [e]) w2 t1 Hl1 Hf1 Hwf1 Hdone1)
          as (w' & new & Hrun & Htr & Hnew) end.
      eexists w', (_ :: _ :: _ :: new). split; [exact Hrun|].
      split; [rewrite Htr; cbn [trace]; rewrite <- app_assoc; reflexivity|].
      apply Forall_cons; split; [exact Hgo|].
      apply Forall_cons; split; [exact I|].
      apply Forall_cons; split; [exact I | exact Hnew].
    + (* timeout, the operator goes on *)
      match goal with |- context [drive _ _ _ ?w2 todo] =>
        destruct (IH (done ++ [e]) w2 t1 Hl1 Hf1 Hwf1 Hdone1)
          as (w' & new & Hrun & Htr & Hnew) end.
      eexists w', (_ :: _ :: _ :: _ :: new). split; [exact Hrun|].
      split; [rewrite Htr; cbn [trace emit]; rewrite <- !app_assoc; reflexivity|].
      apply Forall_cons; split; [exact Hgo|].
      apply Forall_cons; split; [exact I|].
      apply Forall_cons; split; [exact I|].
      apply Forall_cons; split; [now apply Hask | exact Hnew].
    + (* timeout, the operator stops the run *)
      match goal with |- context [cancel_remaining _ _ ?w2 ?rem] =>
        destruct (cancel_remaining_spec E path rem w2 t1 Hf1 Hwf1)
          as (w' & t' & new & Hrun & _ & _ & Htr & Hnew & _) end.
      eexists w', (_ :: _ :: _ :: _ :: new). split; [exact Hrun|].
      split; [rewrite Htr; cbn [trace emit]; rewrite <- !app_assoc; reflexivity|].
      apply Forall_cons; split; [exact Hgo|].
      apply Forall_cons; split; [exact I|].
      apply Forall_cons; split; [exact I|].
      apply Forall_cons; split; [now apply Hask|].
      eapply Forall_impl; [exact Hnew|].
      intros [ev f] [c' Hc']. cbn in Hc'. subst ev. exact I.
Qed.

(** [execute_commands] is the expansion followed by the driver loop. *)
Lemma execute_commands_unfold E plan f0 w0 l path :
  expand_plan E plan f0 = Ok (w0, l, path) ->
  execute_commands E plan f0 =
    (w ← drive E path l w0 l; mret (emit w EvFinished, path)).
Proof.
  unfold execute_commands, expand_plan.
  destruct (create_acquisition_log_file _ _ _ _) as [f1 p1].
  destruct (build_plan E p1 plan _) as [[[w1 l1] i1]|]; [|discriminate].
  cbn [mbind result_bind mret result_ret].
  intros Hexp. injection Hexp as -> -> ->. reflexivity.
Qed.

(** *** Declining after a timeout *)

Lemma index_lookup (l : list log_entry) p e :
  map index l = map Z.of_nat (seq 0 (length l)) -> l !! p = Some e ->
  index e = Z.of_nat p.
Proof.
  intros Hidx He. apply (f_equal (fun x => x !! p)) in Hidx.
  rewrite !list_lookup_fmap, He in Hidx.
  rewrite lookup_seq_lt in Hidx by (eapply lookup_lt_Some; eauto).
  cbn in Hidx. congruence.
Qed.

Lemma slice_from_rest (l done rest : list log_entry) e :
  l = done ++ e :: rest -> index e = Z.of_nat (length done) ->
  slice_from (index e + 1) l = rest.
Proof.
  intros -> He. unfold slice_from.
  destruct (Z.leb_spec 0 (index e + 1)); [|lia].
  replace (Z.to_nat (index e + 1)) with (length (done ++ [e]))
    by (rewrite length_app; cbn [length]; lia).
  change (done ++ e :: rest) with (done ++ [e] ++ rest).
  rewrite app_assoc. apply drop_app_length.
Qed.

Lemma drive_decline E path acquisition_log :
  map index acquisition_log = map Z.of_nat (seq 0 (length acquisition_log)) ->
  forall mid done w t e rest,
    acquisition_log = done ++ mid ++ e :: rest ->
    fs w !! path = Some t -> ledger_wf t ->
    Forall (fun m => continues E (index m) = true) mid ->
    truthy (watcher E (index e)) = false -> operator E (index e) = false ->
    exists w' pre f_k post,
      drive E path acquisition_log w (mid ++ e :: rest) = Ok w' /\
      trace w' = trace w ++ pre ++ (EvAsk (index e) false, f_k) :: post /\
      Forall (fun x => is_ledger_write x.1) post /\
      recorded_status f_k path (index e) = Some status_timeout /\
      (forall j, j ∈ map index rest ->
         recorded_status (fs w') path j = Some status_cancelled) /\
      (forall j, j ∉ map index rest ->
         records_for j (ledger_of (fs w') path) =
         records_for j (ledger_of f_k path)).
Proof.
  intros Hidx. induction mid as [|m mid IH];
    intros done w t e rest Hl Hf Hwf Hmid Hto Hno.
  - cbn [app] in *.
    destruct (drive_step E path acquisition_log w e rest t Hf Hwf)
      as (t1 & c & Hwf1 & Hci & Hcs & Hrec & Hdrive).
    cbv zeta in Hdrive. rewrite Hdrive, Hto, Hno. clear Hdrive.
    rewrite (slice_from_rest _ done rest e Hl (index_at _ _ _ _ Hidx Hl)).
    set (f1 := <[path := t1]> (fs w)).
    assert (Hf1 : f1 !! path = Some t1) by apply lookup_insert_eq.
    match goal with |- context [cancel_remaining _ _ ?w2 _] =>
      destruct (cancel_remaining_spec E path rest w2 t1 Hf1 Hwf1)
        as (w' & t' & new & Hrun & Hf' & _ & Htr & Hnew & Hout & Hin) end.
    eexists w', [_; _; _], f1, new. split; [exact Hrun|].
    split; [rewrite Htr; cbn [trace emit]; rewrite <- !app_assoc; reflexivity|].
    split; [exact Hnew|]. split; [|split; [exact Hin|]].
    + rewrite (recorded_status_single f1 path t1 (index e) c Hf1).
      * rewrite Hcs. unfold outcome_status. now rewrite Hto.
      * rewrite Hrec. destruct (decide _); [reflexivity | congruence].
    + intros j Hj. unfold ledger_of. rewrite Hf', Hf1. apply Hout, Hj.
  - apply Forall_cons in Hmid as [Hm Hmid]. cbn [app].
    destruct (drive_step E path acquisition_log w m (mid ++ e :: rest) t Hf Hwf)
      as (t1 & c & Hwf1 & Hci & Hcs & Hrec & Hdrive).
    cbv zeta in Hdrive. rewrite Hdrive. clear Hdrive.
    set (f1 := <[path := t1]> (fs w)).
    assert (Hf1 : f1 !! path = Some t1) by apply lookup_insert_eq.
    assert (Hl1 : acquisition_log = (done ++ [m]) ++ mid ++ e :: rest)
      by (rewrite <- app_assoc; exact Hl).
    unfold continues in Hm.
    destruct (truthy (watcher E (index m))); [|destruct (operator E (index m))];
      try discriminate Hm.
    + match goal with |- context [drive _ _ _ ?w2 _] =>
        destruct (IH (done ++ [m]) w2 t1 e rest Hl1 Hf1 Hwf1 Hmid Hto Hno)
          as (w' & pre & f_k & post & Hrun & Htr & Hrest) end.
      eexists w', (_ :: _ :: _ :: pre), f_k, post. split; [exact Hrun|].
      split; [rewrite Htr; cbn [trace]; rewrite <- !app_assoc; reflexivity|].
      exact Hrest.
    + match goal with |- context [drive _ _ _ ?w2 _] =>
        destruct (IH (done ++ [m]) w2 t1 e rest Hl1 Hf1 Hwf1 Hmid Hto Hno)
          as (w' & pre & f_k & post & Hrun & Htr & Hrest) end.
      eexists w', (_ :: _ :: _ :: _ :: pre), f_k, post. split; [exact Hrun|].
      split; [rewrite Htr; cbn [trace emit]; rewrite <- !app_assoc; reflexivity|].
      exact Hrest.
Qed.

(** C4. When step [k] times out and the operator declines to go on (every
    earlier timeout having been answered with yes), the run ends with
    every later step recorded as cancelled; after the dialog only ledger
    writes and the end of the run follow, no wavelength command and no
    trigger; and the records of step [k] and of the steps before it are
    those the log file held when the dialog was shown, step [k] being
    recorded as timed out. *)
Theorem decline_cancels_successors E plan (f0 : gmap string table) k :
  0 <= k < step_count plan ->
  truthy (watcher E k) = false -> operator E k = false ->
  (forall j, 0 <= j < k -> continues E j = true) ->
  exists w log_path pre f_k post,
    execute_commands E plan f0 = Ok (w, log_path) /\
    trace w = pre ++ (EvAsk k false, f_k) :: post /\
    Forall (fun x => is_device_command x.1 = false) post /\
    recorded_status f_k log_path k = Some status_timeout /\
    (forall j, k < j < step_count plan ->
       recorded_status (fs w) log_path j = Some status_cancelled) /\
    (forall j, j <= k ->
       records_for j (ledger_of (fs w) log_path) =
       records_for j (ledger_of f_k log_path)).
Proof.
  intros Hk Hto Hno Hbefore.
  destruct (expand_plan_spec E plan f0)
    as (w0 & l & path & Hexp & _ & _ & Hseq & Hsteps & _ & Hfs & Htr0).
  assert (HN : step_count plan = Z.of_nat (length l))
    by (unfold step_count; rewrite <- Hsteps, length_map; reflexivity).
  rewrite HN in *.
  assert (Hf0 : fs w0 !! path = Some (header_row :: map (pending_row E) l))
    by (rewrite Hfs; apply lookup_insert_eq).
  destruct (lookup_lt_is_Some_2 l (Z.to_nat k)) as [e He]; [lia|].
  pose proof (index_lookup l _ e Hseq He) as Hie. rewrite Z2Nat.id in Hie by lia.
  pose proof (take_drop_middle l _ e He) as Hsplit. symmetry in Hsplit.
  destruct (drive_decline E path l Hseq (take (Z.to_nat k) l) [] w0 _ e
              (drop (S (Z.to_nat k)) l) Hsplit Hf0 (pending_table_wf E l Hseq))
    as (w' & pre & f_k & post & Hrun & Htr & Hpost & Hst & Hcanc & Hkeep).
  { apply Forall_forall. intros m Hm.
    apply list_elem_of_lookup in Hm as [p Hp].
    pose proof (lookup_lt_Some _ _ _ Hp) as Hlt. rewrite length_take in Hlt.
    rewrite lookup_take_lt in Hp by lia.
    rewrite (index_lookup l p m Hseq Hp). apply Hbefore. lia. }
  { now rewrite Hie. }
  { now rewrite Hie. }
  rewrite Hie in *. rewrite <- Hsplit in Hrun.
  exists (emit w' EvFinished), path, (trace w0 ++ pre), f_k,
    (post ++ [(EvFinished, fs w')]).
  split; [rewrite (execute_commands_unfold E plan f0 w0 l path Hexp), Hrun;
          reflexivity|].
  split; [cbn [emit trace]; rewrite Htr, <- !app_assoc; reflexivity|].
  split; [|split; [exact Hst|split]].
  - apply Forall_app. split; [|repeat constructor].
    eapply Forall_impl; [exact Hpost|]. intros [ev f] [c Hc]. cbn in *.
    subst ev. reflexivity.
  - intros j Hj. cbn [emit fs]. apply Hcanc.
    destruct (lookup_lt_is_Some_2 l (Z.to_nat j)) as [e' He']; [lia|].
    apply list_elem_of_fmap. exists e'. split.
    + rewrite (index_lookup l _ e' Hseq He'). lia.
    + apply list_elem_of_lookup. exists (Z.to_nat j - S (Z.to_nat k))%nat.
      rewrite lookup_drop, <- He'. f_equal. lia.
  - intros j Hj. cbn [emit fs]. apply Hkeep. intros Hin.
    apply list_elem_of_fmap in Hin as (e' & -> & Hin).
    apply list_elem_of_lookup in Hin as [q Hq]. rewrite lookup_drop in Hq.
    rewrite (index_lookup l _ e' Hseq Hq) in Hj. lia.
Qed.


(** The expansion of the example plan. *)
Lemma execute_commands_expands_plan_witness :
  exists w acquisition_log log_path,
    expand_plan (example_env true) example_plan ∅ =
      Ok (w, acquisition_log, log_path) /\
    Z.of_nat (length acquisition_log) = plan_total example_plan /\
    map index acquisition_log = map Z.of_nat (seq 0 (length acquisition_log)) /\
    map (fun e => (wavelength e, pic_num e)) acquisition_log =
      plan_steps example_plan /\
    fs w !! log_path =
      Some (header_row :: map (pending_row (example_env true)) acquisition_log) /\
    Forall (fun r => row_status r = Some status_pending)
      (map (pending_row (example_env true)) acquisition_log) /\
    Forall (fun x => is_device_command x.1 = false) (trace w).
Proof.
  apply (execute_commands_expands_plan (example_env true) example_plan ∅).
  repeat constructor.
Defined.

(** The example run with the operator declining at step 1. *)
Lemma decline_cancels_successors_witness :
  exists w log_path pre f_k post,
    execute_commands (example_env false) example_plan ∅ = Ok (w, log_path) /\
    trace w = pre ++ (EvAsk 1 false, f_k) :: post /\
    Forall (fun x => is_device_command x.1 = false) post /\
    recorded_status f_k log_path 1 = Some status_timeout /\
    (forall j, 1 < j < step_count example_plan ->
       recorded_status (fs w) log_path j = Some status_cancelled) /\
    (forall j, j <= 1 ->
       records_for j (ledger_of (fs w) log_path) =
       records_for j (ledger_of f_k log_path)).
Proof.
  apply (decline_cancels_successors (example_env false) example_plan ∅ 1).
  - vm_compute. split; [discriminate | reflexivity].
  - reflexivity.
  - reflexivity.
  - intros j Hj. assert (j = 0) as -> by lia. reflexivity.
Defined.

(** The end state of the example run for both answers of the operator:
    completed, timeout, completed when the run goes on, and completed,
    timeout, cancelled when it is stopped. *)
Example end_to_end_scenario :
  (exists w p, execute_commands (example_env true) example_plan ∅ = Ok (w, p) /\
     map (recorded_status (fs w) p) [0; 1; 2] =
       [Some status_completed; Some status_timeout; Some status_completed] /\
     filter is_device_command (map fst (trace w)) =
       [EvGowave 0 "500"; EvTrigger 0; EvGowave 1 "500"; EvTrigger 1;
        EvGowave 2 "600"; EvTrigger 2]) /\
  (exists w p, execute_commands (example_env false) example_plan ∅ = Ok (w, p) /\
     map (recorded_status (fs w) p) [0; 1; 2] =
       [Some status_completed; Some status_timeout; Some status_cancelled] /\
     filter is_device_command (map fst (trace w)) =
       [EvGowave 0 "500"; EvTrigger 0; EvGowave 1 "500"; EvTrigger 1]).
Proof.
  split; eexists _, _; (split; [vm_compute; reflexivity|]);
    split; vm_compute; reflexivity.
Qed.

End SequencerFacts.


(** ** Cube aggregation *)

Module CubesFacts.
Import Cubes.

Section Generic.
Context {T : Type} `{Elem T}.

(** Rendering the preview works exactly on cubes that have band 29. *)
Lemma save_rgb_ok (fl : gmap string (artifact T)) path (a : ndarray T) :
  (30 <= bands a)%nat -> save_rgb fl path a = Ok (<[path := RgbImage a]> fl).
Proof.
  intros Hb. unfold save_rgb, rgb_bands. cbn [forallb].
  destruct (Nat.ltb_spec 29 (bands a)); [|lia].
  destruct (Nat.ltb_spec 19 (bands a)); [|lia].
  destruct (Nat.ltb_spec 9 (bands a)); [reflexivity | lia].
Qed.

Lemma save_rgb_short (fl : gmap string (artifact T)) path (a : ndarray T) :
  (bands a < 30)%nat -> save_rgb fl path a = Raise IndexError.
Proof.
  intros Hb. unfold save_rgb, rgb_bands. cbn [forallb].
  destruct (Nat.ltb_spec 29 (bands a)); [lia | reflexivity].
Qed.

Lemma save_rgb_cases (fl : gmap string (artifact T)) path (a : ndarray T) :
  save_rgb fl path a =
  if decide (30 <= bands a)%nat then Ok (<[path := RgbImage a]> fl)
  else Raise IndexError.
Proof.
  destruct (decide _); [now apply save_rgb_ok | apply save_rgb_short; lia].
Qed.






(** Averaging never touches the loaded cubes. *)
Lemma average_selected_cubes_keeps_inputs (st : cstate T) :
  loaded_cubes (average_selected_cubes st).1 = loaded_cubes st.
Proof.
  unfold average_selected_cubes. destruct (selected_images st); [reflexivity|].
  destruct (average_loop _ _ _ _ _) as [[[[c|] meta] count]|]; try reflexivity.
  destruct (0 <? count); [|reflexivity].
  destruct (save_rgb _ _ _); reflexivity.
Qed.

(** Summing two loaded cubes of one shape leaves their sum in place of the
    first one. *)
Lemma sum_selected_cubes_overwrites (st : cstate T) i j a b :
  selected_images st = [i; j] ->
  loaded_cubes st !! i = Some a -> loaded_cubes st !! j = Some b ->
  shape (cube a) = shape (cube b) ->
  loaded_cubes (sum_selected_cubes st).1 !! i =
    Some (set_cube a (add_arrays (cube a) (cube b))).
Proof.
  intros Hsel Hi Hj Hshape. unfold sum_selected_cubes. rewrite Hsel.
  cbn [sum_loop]. rewrite Hi, Hj. rewrite decide_True by assumption.
  cbn [mbind option_bind]. rewrite list_lookup_insert_eq by (eapply lookup_lt_Some; eauto).
  destruct (save_rgb _ _ _); cbn [fst loaded_cubes];
    apply list_lookup_insert_eq; eapply lookup_lt_Some; eauto.
Qed.


(** *** Batch mode *)





End Generic.


(** *** The example cubes *)

Lemma flat_cube_3_neq_1 : flat_cube 1 1 30 3 <> flat_cube 1 1 30 1.
Proof.
  intros Heq. apply (f_equal (fun a => PrimFloat.eqb 1 <$> head (data a))) in Heq.
  vm_compute in Heq. discriminate Heq.
Qed.



(** C8, at the failing input. Summing the first two example cubes leaves
    their sum in the store in place of the first cube, which does not
    hold its old values any more; averaging the same selection leaves the
    store as it was. *)
Theorem sum_selected_cubes_changes_loaded_cube :
  let st := example_state [0; 1]%nat in
  cube <$> loaded_cubes st !! 0%nat = Some (flat_cube 1 1 30 1) /\
  cube <$> loaded_cubes (sum_selected_cubes st).1 !! 0%nat =
    Some (flat_cube 1 1 30 3) /\
  flat_cube 1 1 30 3 <> flat_cube 1 1 30 1 /\
  loaded_cubes (average_selected_cubes st).1 = loaded_cubes st.
Proof.
  intros st. split; [reflexivity|]. split; [vm_compute; reflexivity|].
  split; [exact flat_cube_3_neq_1 | apply average_selected_cubes_keeps_inputs].
Qed.

(** After a failed sum over three cubes the first cube already holds the
    sum of the first two. *)
Example sum_fails_after_changing_first_cube :
  let run := sum_selected_cubes (example_state [0; 1; 2]%nat) in
  run.2 = Raised (AssertionError sum_message) /\
  cube <$> loaded_cubes run.1 !! 0%nat = Some (flat_cube 1 1 30 3).
Proof. split; vm_compute; reflexivity. Qed.

(** Averaging three equal cubes of 0.1 does not give 0.1 back exactly. *)
Example average_of_equal_cubes_is_inexact :
  let x := flat_cube 1 1 30 0x1.999999999999ap-4 in
  let st := {| loaded_cubes := [LoadedCube x "m" "500" "1" "a";
                                LoadedCube x "m" "500" "2" "b";
                                LoadedCube x "m" "500" "3" "c"];
               selected_images := [0; 1; 2]%nat; files := ∅ |} in
  exists path avg meta a,
    (average_selected_cubes st).2 = Popup path avg meta /\
    head (data avg) = Some a /\ PrimFloat.eqb a 0x1.999999999999ap-4 = false.
Proof. eexists _, _, _, _. repeat split; vm_compute; reflexivity. Qed.

End CubesFacts.



(** ** The resume entry point *)

Module ResumeFacts.
Import Resume.

Lemma absent_names :
  ("check_previous_acquisition" ∉ module_names) /\
  ("resume_from_log" ∉ module_names) /\
  "monitor_raw_files" ∉ module_names.
Proof.
  repeat split; apply (bool_decide_unpack _); vm_compute; exact I.
Qed.

(** C10. Whenever the operator selects a folder, [resume_acquisition]
    sets the output path and raises [NameError] at
    [check_previous_acquisition], before any dialog, thread or device
    command of the resumed run; none of [check_previous_acquisition],
    [resume_from_log] and [monitor_raw_files] is bound in the module, and
    [execute_resumed_commands] on its own raises [NameError] at
    [monitor_raw_files] once the raw data folder is set. *)
Theorem resume_acquisition_raises_name_error
    (C : callees) (folder : string) (answer : bool)
    (raw_data_folder output_path : string) :
  folder <> "" ->
  resume_acquisition module_names C folder answer raw_data_folder output_path =
    (folder, [], Raise (NameError "check_previous_acquisition")) /\
  (("check_previous_acquisition" ∉ module_names) /\
   ("resume_from_log" ∉ module_names) /\
   "monitor_raw_files" ∉ module_names) /\
  (forall raw acquisition_log, raw <> "" ->
     execute_resumed_commands module_names raw acquisition_log =
       ([], Raise (NameError "monitor_raw_files"))).
Proof.
  intros Hfolder. pose proof absent_names as (Hc & Hr & Hm).
  split; [|split; [auto|]].
  - unfold resume_acquisition.
    destruct (String.eqb_spec folder ""); [contradiction|].
    unfold global_name. rewrite decide_False by assumption. reflexivity.
  - intros raw acquisition_log Hraw. unfold execute_resumed_commands.
    destruct (String.eqb_spec raw ""); [contradiction|].
    unfold global_name. rewrite decide_False by assumption. reflexivity.
Qed.

Lemma resume_acquisition_raises_name_error_witness :
  let C := {| check_previous_acquisition := fun p => Some (PrevAcq 3 1 2 p);
              resume_from_log := fun _ => [] |} in
  resume_acquisition module_names C "C:/runs/day1" true "C:/raw" "" =
    ("C:/runs/day1", [], Raise (NameError "check_previous_acquisition")) /\
  (("check_previous_acquisition" ∉ module_names) /\
   ("resume_from_log" ∉ module_names) /\
   "monitor_raw_files" ∉ module_names) /\
  (forall raw acquisition_log, raw <> "" ->
     execute_resumed_commands module_names raw acquisition_log =
       ([], Raise (NameError "monitor_raw_files"))).
Proof.
  intros C.
  apply (resume_acquisition_raises_name_error C "C:/runs/day1" true "C:/raw" "").
  discriminate.
Defined.

End ResumeFacts.


(** ** The ledger: edge behaviour of the upsert *)

Module LedgerEdgeFacts.
Import Ledger LedgerFacts.

(** The search loop passes over readable rows that carry another index. *)
Lemma find_entry_prefix l1 : forall rest index i,
  Forall readable l1 ->
  Forall (fun r => row_index r <> Some index) l1 ->
  find_entry (l1 ++ rest) index i = find_entry rest index (i + length l1)%nat.
Proof.
  induction l1 as [|r l1 IH]; intros rest index i Hrd Hne.
  - cbn [app length]. f_equal. lia.
  - apply Forall_cons in Hrd as [Hr Hrd]. apply Forall_cons in Hne as [Hn Hne].
    cbn [app length find_entry]. unfold readable in Hr.
    destruct r as [|c cs].
    + rewrite IH by assumption. f_equal. lia.
    + cbn [row_index] in Hr, Hn.
      destruct (Py.int c) as [z|]; [|destruct Hr as [? | [? ?]]; done].
      destruct (Z.eqb_spec z index); [congruence|].
      rewrite IH by assumption. f_equal. lia.
Qed.

Lemma upsert_unfold (f : gmap string table) path c :
  upsert f path c =
  (found ← find_entry (tail (default [] (f !! path))) (c_index c) 1;
   mret (<[path :=
            match found with
            | Some i => <[i := call_row c]> (default [] (f !! path))
            | None =>
                match default [] (f !! path) with
                | [] => default [] (f !! path)
                | _ :: _ => default [] (f !! path) ++ [call_row c]
                end
            end]> f)).
Proof. reflexivity. Qed.

(** Where a call puts its row: over the first row that carries the index,
    or behind the last row when no row carries it. Only the rows up to the
    match have to be readable. *)
Lemma upsert_shape (f : gmap string table) path h l1 r l2 c :
  f !! path = Some (h :: l1 ++ r :: l2) ->
  Forall readable l1 -> Forall (fun r => row_index r <> Some (c_index c)) l1 ->
  row_index r = Some (c_index c) ->
  upsert f path c = Ok (<[path := h :: l1 ++ call_row c :: l2]> f).
Proof.
  intros Hf Hrd Hne Hr. rewrite upsert_unfold, Hf. cbn [default from_option id tail].
  rewrite find_entry_prefix by assumption.
  destruct r as [|c0 cs]; [discriminate|]. cbn [find_entry]. cbn [row_index] in Hr.
  rewrite Hr, Z.eqb_refl. cbn [mbind result_bind mret result_ret].
  rewrite insert_middle. reflexivity.
Qed.

Lemma upsert_append (f : gmap string table) path h rows c :
  f !! path = Some (h :: rows) ->
  Forall readable rows -> Forall (fun r => row_index r <> Some (c_index c)) rows ->
  upsert f path c = Ok (<[path := h :: rows ++ [call_row c]]> f).
Proof.
  intros Hf Hrd Hne. rewrite upsert_unfold, Hf. cbn [default from_option id tail].
  rewrite <- (app_nil_r rows) at 1. rewrite find_entry_prefix by assumption.
  reflexivity.
Qed.

(** Splitting readable rows at the first one that carries an index. *)
Lemma first_record_split (rows : table) index :
  (exists l1 r l2, rows = l1 ++ r :: l2 /\ row_index r = Some index /\
     Forall (fun r => row_index r <> Some index) l1) \/
  Forall (fun r => row_index r <> Some index) rows.
Proof.
  induction rows as [|r rows IH]; [right; constructor|].
  destruct (decide (row_index r = Some index)) as [Hr | Hr].
  - left. exists [], r, rows. repeat split; [assumption | constructor].
  - destruct IH as [(l1 & r' & l2 & -> & Hr' & Hl1) | Hall].
    + left. exists (r :: l1), r', l2. repeat split; [assumption|].
      constructor; assumption.
    + right. constructor; assumption.
Qed.

(** X1. On a log file with a header whose data rows are readable, a call
    succeeds whether or not an index occurs more than once: the first
    record of the call's index becomes the call's row, further records of
    that index stay as they are, and the records of every other index are
    untouched; the file grows by one row exactly when the index had no
    record. *)
Theorem upsert_overwrites_first_record
    (f : gmap string table) (path : string) (h : row) (rows : table) (c : call) :
  f !! path = Some (h :: rows) -> Forall readable rows ->
  exists t', upsert f path c = Ok (<[path := t']> f) /\
    records_for (c_index c) t' =
      call_row c :: tail (records_for (c_index c) (h :: rows)) /\
    (forall index, index <> c_index c ->
       records_for index t' = records_for index (h :: rows)) /\
    length t' =
      (length (h :: rows) +
       (if decide (records_for (c_index c) (h :: rows) = []) then 1 else 0))%nat.
Proof.
  intros Hf Hrd.
  destruct (first_record_split rows (c_index c))
    as [(l1 & r & l2 & -> & Hr & Hl1) | Hall].
  - apply Forall_app in Hrd as [Hrd1 _].
    exists (h :: l1 ++ call_row c :: l2).
    split; [now apply (upsert_shape f path h l1 r l2 c)|].
    unfold records_for. cbn [tail].
    rewrite !filter_app, !filter_cons, row_index_call_row, Hr.
    rewrite (filter_index_none _ l1 Hl1). cbn [app].
    rewrite !decide_True by reflexivity. cbn [tail app].
    split; [reflexivity|]. split.
    + intros index Hne. rewrite !filter_app, !filter_cons, row_index_call_row, Hr.
      rewrite !decide_False by congruence. reflexivity.
    + rewrite decide_False by discriminate.
      cbn [length]. rewrite !length_app. cbn [length]. lia.
  - exists (h :: rows ++ [call_row c]).
    split; [now apply upsert_append|].
    unfold records_for. cbn [tail].
    rewrite filter_app, (filter_index_none _ rows Hall), filter_cons,
      row_index_call_row. rewrite decide_True by reflexivity.
    split; [reflexivity|]. split.
    + intros index Hne. rewrite filter_app, filter_cons, row_index_call_row.
      rewrite decide_False by congruence. rewrite filter_nil. apply app_nil_r.
    + rewrite decide_True by reflexivity. cbn [length]. rewrite length_app.
      cbn [length]. lia.
Qed.

(** A log file in which index 1 occurs twice: the call rewrites the first
    of the two rows only. *)
Lemma upsert_overwrites_first_record_witness :
  let rows := [["1"; "500"; "1"; "p_500_1"; ""; "pending"; "t0"; "0"];
               ["1"; "500"; "2"; "p_500_2"; ""; "pending"; "t1"; "0"]] in
  let f : gmap string table := {[ "log.csv" := header_row :: rows ]} in
  let c := Call "t2" 1 "500" 1 "p_500_1" "a.bin" "completed" 64 in
  exists t', upsert f "log.csv" c = Ok (<["log.csv" := t']> f) /\
    records_for (c_index c) t' =
      call_row c :: tail (records_for (c_index c) (header_row :: rows)) /\
    (forall index, index <> c_index c ->
       records_for index t' = records_for index (header_row :: rows)) /\
    length t' =
      (length (header_row :: rows) +
       (if decide (records_for (c_index c) (header_row :: rows) = [])
        then 1 else 0))%nat.
Proof.
  intros rows f c.
  apply (upsert_overwrites_first_record f "log.csv" header_row rows c).
  - reflexivity.
  - apply Forall_cons; split; [right; eexists; reflexivity|].
    apply Forall_cons; split; [right; eexists; reflexivity | apply Forall_nil_2].
Defined.

(** X2. Without a header row there is nothing to update and nothing to
    append to: on a path that holds no file, or an empty file, every
    sequence of calls succeeds and leaves an empty file, so the records
    are lost without an error. *)
Theorem upsert_without_header_drops_records
    (f : gmap string table) (path : string) (cs : list call) :
  f !! path = None \/ f !! path = Some [] -> cs <> [] ->
  upsert_all f path cs = Ok (<[path := []]> f).
Proof.
  intros Hf Hcs.
  assert (Hone : forall (g : gmap string table) c,
             g !! path = None \/ g !! path = Some [] ->
             upsert g path c = Ok (<[path := []]> g)).
  { intros g c Hg. rewrite upsert_unfold.
    destruct Hg as [-> | ->]; reflexivity. }
  revert f Hf. induction cs as [|c cs IH]; intros f Hf; [done|].
  cbn [upsert_all]. rewrite (Hone f c Hf). cbn [mbind result_bind].
  destruct cs as [|c' cs]; [reflexivity|].
  rewrite IH; [|discriminate | right; apply lookup_insert_eq].
  now rewrite insert_insert_eq.
Qed.

Lemma upsert_without_header_drops_records_witness :
  upsert_all (∅ : gmap string table) "log.csv"
    [Call "t0" 0 "500" 1 "p_500_1" "" "pending" 0;
     Call "t1" 0 "500" 1 "p_500_1" "a.bin" "completed" 64]
  = Ok (<["log.csv" := []]> ∅).
Proof.
  apply upsert_without_header_drops_records; [left; reflexivity | discriminate].
Defined.



End LedgerEdgeFacts.

(** ** The ledger: loading a file that is no ledger *)

Module LoadEdgeFacts.
Import Ledger.

Lemma dict_get_absent fieldnames : forall r key,
  key ∉ fieldnames -> dict_get fieldnames r key = None.
Proof.
  induction fieldnames as [|f fieldnames IH]; intros r key Hni; [reflexivity|].
  apply not_elem_of_cons in Hni as [Hne Hni]. cbn [dict_get].
  rewrite IH by assumption.
  destruct (String.eqb_spec f key); [congruence | reflexivity].
Qed.

Lemma count_rows_without_status fieldnames rows : forall d,
  "Status" ∉ fieldnames ->
  count_rows fieldnames rows d =
    if decide (Forall (fun r => r = []) rows) then Ok d
    else Raise (KeyError "Status").
Proof.
  induction rows as [|r rows IH]; intros d Hni.
  - cbn [count_rows]. rewrite decide_True by constructor. reflexivity.
  - destruct r as [|c r].
    + cbn [count_rows]. rewrite IH by assumption.
      destruct (decide (Forall _ rows)) as [Hall | Hn].
      * rewrite decide_True by (constructor; auto). reflexivity.
      * rewrite decide_False; [reflexivity|].
        intros Hall. apply Forall_cons in Hall as [_ Hall]. contradiction.
    + cbn [count_rows]. unfold dict_item.
      rewrite (dict_get_absent fieldnames _ "Status") by assumption.
      cbn [mbind result_bind].
      rewrite decide_False; [reflexivity|].
      intros Hall. apply Forall_cons in Hall as [Hc _]. discriminate.
Qed.

(** X4. Loading a file whose first row has no column named Status: the
    grid is emptied in any case; when some later row is not blank the
    load fails with [KeyError] on Status, and when every later row is
    blank the operator is told that all acquisitions are completed. *)
Theorem load_without_status_column
    (f : gmap string table) (path : string) (fieldnames : row) (rows : table)
    (tree : list (option string * Z)) :
  path <> "" -> f !! path = Some (fieldnames :: rows) ->
  "Status" ∉ fieldnames ->
  load_acquisition_from_csv f (Some path) tree =
    ([], if decide (Forall (fun r => r = []) rows) then AllCompleted
         else LoadFailed (KeyError "Status")).
Proof.
  intros Hpath Hf Hni. unfold load_acquisition_from_csv.
  destruct path as [|a path]; [done|]. rewrite Hf. cbn [count_incomplete].
  rewrite count_rows_without_status by assumption.
  destruct (decide _); reflexivity.
Qed.

(** A file written by another tool, with lower-case column names. *)
Lemma load_without_status_column_witness :
  let t := [["index"; "wavelength"; "status"];
            ["0"; "500"; "pending"]] in
  load_acquisition_from_csv {[ "other.csv" := t ]} (Some "other.csv")
    [(Some "700", 9)]
  = ([], if decide (Forall (fun r : row => r = []) [["0"; "500"; "pending"]])
         then AllCompleted else LoadFailed (KeyError "Status")).
Proof.
  intros t.
  apply (load_without_status_column {[ "other.csv" := t ]} "other.csv"
           ["index"; "wavelength"; "status"] [["0"; "500"; "pending"]]).
  - discriminate.
  - reflexivity.
  - apply (bool_decide_unpack _). vm_compute. exact I.
Defined.

End LoadEdgeFacts.

(** ** The watcher: finding a file, and listing errors *)

Module WatcherEdgeFacts.
Import Watcher WatcherFacts.

Lemma scan_skip D pre : forall rest now,
  Forall (fun f => Py.endswith f ".bin" = false) pre ->
  scan D (pre ++ rest) now = scan D rest now.
Proof.
  induction pre as [|g pre IH]; intros rest now Hpre; [reflexivity|].
  apply Forall_cons in Hpre as [Hg Hpre]. cbn [app scan]. rewrite Hg.
  now apply IH.
Qed.

Lemma scan_accept D f rest now :
  Py.endswith f ".bin" = true -> stable_at D now f ->
  scan D (f :: rest) now = ScanFound f.
Proof.
  intros Hext (size & Hs & Hs' & Hpos). cbn [scan]. rewrite Hext, Hs, Hs'.
  rewrite Z.eqb_refl. apply Z.ltb_lt in Hpos. now rewrite Hpos.
Qed.

(** While no candidate is listed the loop only sleeps, second by second. *)
Lemma poll_quiet D initial start timeout n : forall fuel now,
  (start <= now)%nat ->
  Z.of_nat (now + n) - Z.of_nat start <= timeout ->
  (forall t g, (now <= t < now + n)%nat -> ~ candidate_at D initial t g) ->
  poll D initial start timeout (n + fuel) now =
  poll D initial start timeout fuel (now + n).
Proof.
  induction n as [|n IH]; intros fuel now Hstart Hlt Hquiet.
  - cbn [Nat.add]. now rewrite Nat.add_0_r.
  - cbn [Nat.add poll].
    destruct (Z.ltb_spec (Z.of_nat now - Z.of_nat start) timeout); [|lia].
    assert (Hnext : poll D initial start timeout (n + fuel) (now + 1) =
                    poll D initial start timeout fuel (now + S n)).
    { rewrite IH; [f_equal; lia | lia | lia |].
      intros t g Ht. apply Hquiet. lia. }
    destruct (listdir D now) as [files|] eqn:Hls; [|exact Hnext].
    rewrite scan_no_candidate; [exact Hnext|].
    apply Forall_forall. intros g Hin.
    apply elem_of_set_difference in Hin as [Hin Hni].
    destruct (Py.endswith g ".bin") eqn:Hext; [|reflexivity].
    exfalso. apply (Hquiet now g); [lia|]. exists files. auto.
Qed.

(** X5. The watcher finds a file that is there: when, after [n] seconds
    without a candidate, the listing shows a new file with the extension
    whose size is the same and not zero at that moment and two seconds
    later, new files without the extension at most coming before it in
    the iteration, and [n] seconds are less than the timeout, then that
    file is returned. *)
Theorem wait_for_new_file_finds_stable_file
    (D : folder) (start_time : nat) (timeout_seconds : Z)
    (initial_files files pre rest : list string) (f : string) (n : nat) :
  folder_set D = true -> folder_exists D = true ->
  listdir D start_time = Some initial_files ->
  (forall t g, (start_time <= t < start_time + n)%nat ->
     ~ candidate_at D initial_files t g) ->
  Z.of_nat n < timeout_seconds ->
  listdir D (start_time + n) = Some files ->
  set_difference files initial_files = pre ++ f :: rest ->
  Forall (fun g => Py.endswith g ".bin" = false) pre ->
  Py.endswith f ".bin" = true -> stable_at D (start_time + n) f ->
  wait_for_new_file D start_time timeout_seconds = Some (Ok (Some f)).
Proof.
  intros Hset Hex Hls Hquiet Hn Hfiles Hdiff Hpre Hext Hstable.
  unfold wait_for_new_file. rewrite Hset, Hex, Hls. cbn [negb orb].
  replace (Z.to_nat timeout_seconds)
    with (n + S (Z.to_nat timeout_seconds - S n))%nat by lia.
  rewrite poll_quiet; [|lia | lia | assumption].
  cbn [poll].
  destruct (Z.ltb_spec (Z.of_nat (start_time + n) - Z.of_nat start_time)
              timeout_seconds); [|lia].
  rewrite Hfiles, Hdiff, scan_skip by assumption.
  rewrite scan_accept by assumption. reflexivity.
Qed.

(** The example folder, watched from second 2 on: "grow.bin" is already
    there by then, so the only new file is "done.bin", listed from second
    3 on with its final size. *)
Lemma wait_for_new_file_finds_stable_file_witness :
  wait_for_new_file example_folder 2 10 = Some (Ok (Some "done.bin")).
Proof.
  apply (wait_for_new_file_finds_stable_file example_folder 2 10
           ["old.bin"; "notes.txt"; "grow.bin"]
           ["old.bin"; "notes.txt"; "grow.bin"; "done.bin"] [] [] "done.bin" 1).
  - reflexivity.
  - reflexivity.
  - reflexivity.
  - intros t g Ht (files & Hls & Hin & Hni & _).
    assert (t = 2%nat) as -> by lia. vm_compute in Hls. injection Hls as <-.
    contradiction.
  - lia.
  - reflexivity.
  - vm_compute. reflexivity.
  - constructor.
  - reflexivity.
  - exists 4096. repeat split; reflexivity.
Defined.

(** X6. A listing error is treated in two ways. Raised by the listing
    taken before the loop, it leaves the function as an exception; raised
    inside the loop, it is absorbed: when the first listing succeeds and
    every later one fails, the watcher waits out the timeout and returns
    no file. *)
Theorem wait_for_new_file_listing_errors
    (D : folder) (start_time : nat) (timeout_seconds : Z) :
  folder_set D = true -> folder_exists D = true ->
  (listdir D start_time = None ->
   wait_for_new_file D start_time timeout_seconds = Some (Raise OSError)) /\
  (is_Some (listdir D start_time) ->
   (forall t, (start_time < t)%nat -> listdir D t = None) ->
   wait_for_new_file D start_time timeout_seconds = Some (Ok None)).
Proof.
  intros Hset Hex. unfold wait_for_new_file. rewrite Hset, Hex. cbn [negb orb].
  split.
  - intros ->. reflexivity.
  - intros [initial Hls] Hfail. rewrite Hls.
    rewrite poll_timeout; [reflexivity | lia | lia |].
    intros t g Ht _ (files & Hfiles & Hin & Hni & _).
    destruct (decide (t = start_time)) as [-> | Hne].
    + rewrite Hls in Hfiles. injection Hfiles as <-. contradiction.
    + rewrite Hfail in Hfiles by lia. discriminate.
Qed.

Lemma wait_for_new_file_listing_errors_witness :
  let D := {| folder_set := true; folder_exists := true;
              listdir := fun t => if (t =? 0)%nat then Some ["old.bin"] else None;
              file_size := fun _ _ => Some 1 |} in
  (listdir D 0 = None -> wait_for_new_file D 0 5 = Some (Raise OSError)) /\
  (is_Some (listdir D 0) ->
   (forall t, (0 < t)%nat -> listdir D t = None) ->
   wait_for_new_file D 0 5 = Some (Ok None)).
Proof.
  intros D. apply (wait_for_new_file_listing_errors D 0 5); reflexivity.
Defined.

End WatcherEdgeFacts.

(** ** Cube aggregation: what sum and average compute *)

Module CubesResultFacts.
Import Cubes CubesFacts.

Section Generic.
Context {T : Type} `{Elem T}.

Lemma set_cube_same (e : loaded_cube T) : set_cube e (cube e) = e.
Proof. destruct e. reflexivity. Qed.

Lemma set_cube_twice (e : loaded_cube T) a b :
  set_cube (set_cube e a) b = set_cube e b.
Proof. reflexivity. Qed.

Lemma sum_arrays_shape (c : ndarray T) l : shape (sum_arrays c l) = shape c.
Proof.
  revert c. induction l as [|a l IH]; intros c; [reflexivity|].
  unfold sum_arrays in *. cbn [foldl]. now rewrite IH.
Qed.

(** The summing loop touches no entry but the one its accumulator names. *)
Lemma sum_loop_frame selected : forall (loaded : list (loaded_cube T)) c meta idx,
  idx <> c ->
  (sum_loop loaded selected (Some c) meta).1 !! idx = loaded !! idx.
Proof.
  induction selected as [|i selected IH]; intros loaded c meta idx Hne;
    cbn [sum_loop]; [reflexivity|].
  destruct (loaded !! i) as [entry|]; [|reflexivity].
  destruct (loaded !! c) as [target|]; [|reflexivity].
  destruct (decide _); [|reflexivity].
  rewrite IH by assumption. now apply list_lookup_insert_ne.
Qed.

Lemma sum_loop_length selected : forall (loaded : list (loaded_cube T)) c meta,
  length (sum_loop loaded selected c meta).1 = length loaded.
Proof.
  induction selected as [|i selected IH]; intros loaded c meta; cbn [sum_loop];
    [reflexivity|].
  destruct (loaded !! i) as [entry|]; [|reflexivity].
  destruct c as [c|]; [|apply IH].
  destruct (loaded !! c) as [target|]; [|reflexivity].
  destruct (decide _); [|reflexivity].
  rewrite IH. apply length_insert.
Qed.

(** X7. Whatever is selected and however the call ends, summing leaves
    every loaded cube but the first selected one as it was, and the store
    keeps its length. *)
Theorem sum_selected_cubes_frame (st : cstate T) (i0 idx : nat) (rest : list nat) :
  selected_images st = i0 :: rest -> idx <> i0 ->
  loaded_cubes (sum_selected_cubes st).1 !! idx = loaded_cubes st !! idx /\
  length (loaded_cubes (sum_selected_cubes st).1) = length (loaded_cubes st).
Proof.
  intros Hsel Hne.
  pose proof (sum_loop_frame rest (loaded_cubes st) i0) as Hframe.
  pose proof (sum_loop_length (i0 :: rest) (loaded_cubes st) None None) as Hlen.
  unfold sum_selected_cubes. rewrite Hsel. cbn [sum_loop] in *.
  destruct (loaded_cubes st !! i0) as [e0|] eqn:He0; [|auto].
  specialize (Hframe (Some (metadata e0)) idx Hne).
  destruct (sum_loop _ rest _ _) as [loaded' [[combined meta]|e]];
    cbn [fst] in *; [|auto].
  destruct (combined ≫= _); [|auto].
  destruct (save_rgb _ _ _); auto.
Qed.

Lemma entries_at_insert (loaded : list (loaded_cube T)) c x selected entries :
  c ∉ selected -> entries_at loaded selected entries ->
  entries_at (<[c := x]> loaded) selected entries.
Proof.
  intros Hni Hent. induction Hent as [|i e selected entries Hi _ IH];
    [constructor|].
  apply not_elem_of_cons in Hni as [Hci Hni].
  constructor; [|now apply IH].
  rewrite list_lookup_insert_ne by assumption. exact Hi.
Qed.

(** The summing loop on valid positions and equal shapes, its accumulator
    not being selected again. *)
Lemma sum_loop_result selected : forall entries (loaded : list (loaded_cube T))
    c target meta,
  loaded !! c = Some target -> c ∉ selected ->
  entries_at loaded selected entries ->
  Forall (fun entry => shape (cube entry) = shape (cube target)) entries ->
  sum_loop loaded selected (Some c) meta =
    (<[c := set_cube target (sum_arrays (cube target) (map cube entries))]> loaded,
     Ok (Some c, meta)).
Proof.
  induction selected as [|i selected IH];
    intros entries loaded c target meta Hc Hni Hent Hsh.
  - apply Forall2_nil_inv_l in Hent as ->. cbn [sum_loop map sum_arrays foldl].
    rewrite set_cube_same, list_insert_id by assumption. reflexivity.
  - apply Forall2_cons_inv_l in Hent as (entry & entries' & Hi & Hent & ->).
    apply Forall_cons in Hsh as [Hs Hsh].
    pose proof Hni as Hni'. apply not_elem_of_cons in Hni' as [Hci Hni'].
    cbn [sum_loop]. rewrite Hi, Hc. rewrite decide_True by congruence.
    rewrite (IH entries' _ c
               (set_cube target (add_arrays (cube target) (cube entry))) meta).
    + rewrite list_insert_insert_eq. reflexivity.
    + apply list_lookup_insert_eq. eapply lookup_lt_Some; eauto.
    + assumption.
    + now apply entries_at_insert.
    + exact Hsh.
Qed.

(** X8. Summing valid selected cubes of one shape, the first of them not
    selected twice. In either case the store ends up holding the cubes
    added one after the other in place of the first selected cube. When
    the cubes have at least 30 bands the preview file holds that sum and
    the popup shows it with the metadata of the first cube; with fewer
    bands the rendering of the preview raises [IndexError], no file is
    written and no popup is shown. *)
Theorem sum_selected_cubes_result (st : cstate T) (i0 : nat) (rest : list nat)
    (e0 : loaded_cube T) (entries : list (loaded_cube T)) :
  selected_images st = i0 :: rest -> i0 ∉ rest ->
  loaded_cubes st !! i0 = Some e0 ->
  entries_at (loaded_cubes st) rest entries ->
  Forall (fun entry => shape (cube entry) = shape (cube e0)) entries ->
  let total := sum_arrays (cube e0) (map cube entries) in
  let image := Ledger.path_join SAVED_IMAGES_DIRECTORY "summed_rgb_image.png" in
  let loaded := <[i0 := set_cube e0 total]> (loaded_cubes st) in
  sum_selected_cubes st =
    if decide (30 <= bands (cube e0))%nat then
      ({| loaded_cubes := loaded; selected_images := i0 :: rest;
          files := <[image := RgbImage total]> (files st) |},
       Popup image total (Some (metadata e0)))
    else
      ({| loaded_cubes := loaded; selected_images := i0 :: rest;
          files := files st |}, Raised IndexError).
Proof.
  intros Hsel Hni He0 Hent Hsh total image loaded.
  unfold sum_selected_cubes. rewrite Hsel. cbn [sum_loop]. rewrite He0.
  rewrite (sum_loop_result rest entries (loaded_cubes st) i0 e0 _ He0 Hni Hent Hsh).
  cbn [mbind option_bind].
  rewrite list_lookup_insert_eq by (eapply lookup_lt_Some; eauto).
  cbn [set_cube cube]. rewrite save_rgb_cases.
  replace (bands (sum_arrays (cube e0) (map cube entries)))
    with (bands (cube e0)) by (unfold bands; now rewrite sum_arrays_shape).
  destruct (decide _); reflexivity.
Qed.

(** The averaging loop on valid positions and equal shapes. *)
Lemma average_loop_result (loaded : list (loaded_cube T)) selected :
  forall entries c meta count,
  entries_at loaded selected entries ->
  Forall (fun entry => shape (cube entry) = shape c) entries ->
  average_loop loaded selected (Some c) meta count =
    Ok (Some (sum_arrays c (map cube entries)), meta,
        count + Z.of_nat (length selected)).
Proof.
  induction selected as [|i selected IH]; intros entries c meta count Hent Hsh.
  - apply Forall2_nil_inv_l in Hent as ->. cbn [average_loop length].
    rewrite Z.add_0_r. reflexivity.
  - apply Forall2_cons_inv_l in Hent as (entry & entries' & Hi & Hent & ->).
    apply Forall_cons in Hsh as [Hs Hsh].
    cbn [average_loop]. rewrite Hi. rewrite decide_True by congruence.
    rewrite (IH entries'); [|assumption | exact Hsh].
    cbn [length map sum_arrays foldl]. do 2 f_equal. lia.
Qed.

(** X9. Averaging valid selected cubes of one shape. When the cubes have
    at least 30 bands the popup shows the cubes added one after the other
    and divided by their number, with the metadata of the first, and the
    preview file holds the same cube; with fewer bands the rendering of
    the preview raises [IndexError] and no file is written. In either
    case the store of loaded cubes is as it was. *)
Theorem average_selected_cubes_result (st : cstate T) (i0 : nat)
    (rest : list nat) (e0 : loaded_cube T) (entries : list (loaded_cube T)) :
  selected_images st = i0 :: rest ->
  loaded_cubes st !! i0 = Some e0 ->
  entries_at (loaded_cubes st) rest entries ->
  Forall (fun entry => shape (cube entry) = shape (cube e0)) entries ->
  let average :=
    div_array (sum_arrays (cube e0) (map cube entries))
      (Z.of_nat (length (i0 :: rest))) in
  let image := Ledger.path_join SAVED_IMAGES_DIRECTORY "averaged_rgb_image.png" in
  average_selected_cubes st =
    if decide (30 <= bands (cube e0))%nat then
      ({| loaded_cubes := loaded_cubes st;
          selected_images := i0 :: rest;
          files := <[image := RgbImage average]> (files st) |},
       Popup image average (Some (metadata e0)))
    else (st, Raised IndexError).
Proof.
  intros Hsel He0 Hent Hsh average image.
  unfold average_selected_cubes. rewrite Hsel. cbn [average_loop]. rewrite He0.
  rewrite (average_loop_result (loaded_cubes st) rest entries (cube e0) _ _ Hent Hsh).
  replace (0 + 1 + Z.of_nat (length rest)) with (Z.of_nat (length (i0 :: rest)))
    by (cbn [length]; lia).
  destruct (Z.ltb_spec 0 (Z.of_nat (length (i0 :: rest))));
    [|cbn [length] in *; lia].
  rewrite save_rgb_cases.
  replace (bands (div_array (sum_arrays (cube e0) (map cube entries))
                    (Z.of_nat (length (i0 :: rest)))))
    with (bands (cube e0))
    by (unfold bands; cbn [div_array shape]; now rewrite sum_arrays_shape).
  destruct (decide _); reflexivity.
Qed.

End Generic.


(** The example store: a failed sum over all three cubes leaves the second
    cube alone. *)
Lemma sum_selected_cubes_frame_witness :
  let st := example_state [0; 1; 2]%nat in
  loaded_cubes (sum_selected_cubes st).1 !! 1%nat = loaded_cubes st !! 1%nat /\
  length (loaded_cubes (sum_selected_cubes st).1) = length (loaded_cubes st).
Proof.
  intros st. apply (sum_selected_cubes_frame st 0%nat 1%nat [1; 2]%nat).
  - reflexivity.
  - discriminate.
Defined.

Lemma sum_selected_cubes_result_witness :
  let st := example_state [0; 1]%nat in
  let e0 := LoadedCube (flat_cube 1 1 30 1) "meta_a" "500" "1"
              "p_0412_500_1/rgb_image.png" in
  let e1 := LoadedCube (flat_cube 1 1 30 2) "meta_b" "500" "2"
              "p_0412_500_2/rgb_image.png" in
  let total := sum_arrays (cube e0) (map cube [e1]) in
  let image := Ledger.path_join SAVED_IMAGES_DIRECTORY "summed_rgb_image.png" in
  sum_selected_cubes st =
    ({| loaded_cubes := <[0%nat := set_cube e0 total]> (loaded_cubes st);
        selected_images := [0; 1]%nat;
        files := <[image := RgbImage total]> (files st) |},
     Popup image total (Some (metadata e0))).
Proof.
  intros st e0 e1.
  apply (sum_selected_cubes_result st 0%nat [1%nat] e0 [e1]).
  - reflexivity.
  - apply (bool_decide_unpack _). vm_compute. exact I.
  - reflexivity.
  - constructor; [reflexivity | constructor].
  - constructor; [reflexivity | constructor].
Defined.

Lemma average_selected_cubes_result_witness :
  let st := example_state [0; 1]%nat in
  let e0 := LoadedCube (flat_cube 1 1 30 1) "meta_a" "500" "1"
              "p_0412_500_1/rgb_image.png" in
  let e1 := LoadedCube (flat_cube 1 1 30 2) "meta_b" "500" "2"
              "p_0412_500_2/rgb_image.png" in
  let average :=
    div_array (sum_arrays (cube e0) (map cube [e1]))
      (Z.of_nat (length [0; 1]%nat)) in
  let image := Ledger.path_join SAVED_IMAGES_DIRECTORY "averaged_rgb_image.png" in
  average_selected_cubes st =
    ({| loaded_cubes := loaded_cubes st;
        selected_images := [0; 1]%nat;
        files := <[image := RgbImage average]> (files st) |},
     Popup image average (Some (metadata e0))).
Proof.
  intros st e0 e1.
  apply (average_selected_cubes_result st 0%nat [1%nat] e0 [e1]).
  - reflexivity.
  - reflexivity.
  - constructor; [reflexivity | constructor].
  - constructor; [reflexivity | constructor].
Defined.

(** Two cubes of three bands: the preview cannot be rendered. Summing has
    changed the first cube by then; averaging leaves everything as it
    was. *)
Example preview_needs_band_29 :
  let a := LoadedCube (flat_cube 1 1 3 1) "meta_a" "500" "1" "a/rgb_image.png" in
  let b := LoadedCube (flat_cube 1 1 3 2) "meta_b" "500" "2" "b/rgb_image.png" in
  let st := {| loaded_cubes := [a; b]; selected_images := [0; 1]%nat;
               files := ∅ |} in
  (sum_selected_cubes st).2 = Raised IndexError /\
  files (sum_selected_cubes st).1 = ∅ /\
  cube <$> loaded_cubes (sum_selected_cubes st).1 !! 0%nat =
    Some (flat_cube 1 1 3 3) /\
  average_selected_cubes st = (st, Raised IndexError).
Proof. repeat split; vm_compute; reflexivity. Qed.

End CubesResultFacts.

(** ** Cube aggregation: grouping and combining in batch mode *)

Module BatchFacts.
Import Cubes CubesFacts CubesResultFacts.

Lemma dict_append_group_of d key folder k :
  group_of (dict_append d key folder) k =
  group_of d k ++ (if String.eqb key k then [folder] else []).
Proof.
  induction d as [|[k' fs] d IH]; cbn [dict_append group_of].
  - destruct (String.eqb key k); reflexivity.
  - destruct (String.eqb_spec k' key) as [-> | Hne]; cbn [group_of].
    + destruct (String.eqb_spec key k); [reflexivity | now rewrite app_nil_r].
    + destruct (String.eqb_spec k' k) as [-> | Hne']; [|exact IH].
      destruct (String.eqb_spec key k); [congruence | now rewrite app_nil_r].
Qed.

Lemma dict_append_keys d key folder k :
  k ∈ (dict_append d key folder).*1 <-> k ∈ d.*1 \/ k = key.
Proof.
  induction d as [|[k' fs] d IH]; cbn [dict_append fmap list_fmap fst].
  - rewrite list_elem_of_singleton. split; [auto | intros [Hin | ?]; [inversion Hin | auto]].
  - destruct (String.eqb_spec k' key) as [-> | Hne]; cbn [fmap list_fmap fst];
      rewrite !elem_of_cons.
    + tauto.
    + change (k ∈ (dict_append d key folder).*1 <-> k ∈ d.*1 \/ k = key) in IH.
      tauto.
Qed.

Lemma dict_append_NoDup d key folder :
  NoDup d.*1 -> NoDup (dict_append d key folder).*1.
Proof.
  induction d as [|[k fs] d IH]; cbn [dict_append fmap list_fmap fst]; intros Hnd.
  - apply NoDup_singleton.
  - apply NoDup_cons in Hnd as [Hni Hnd].
    destruct (String.eqb_spec k key) as [-> | Hne]; cbn [fmap list_fmap fst];
      apply NoDup_cons.
    + split; assumption.
    + split; [|apply IH, Hnd]. intros Hin.
      apply dict_append_keys in Hin as [Hin | ->]; [exact (Hni Hin) | congruence].
Qed.

Lemma dict_append_nonempty d key folder :
  Forall (fun x => x.2 <> []) d ->
  Forall (fun x => x.2 <> []) (dict_append d key folder).
Proof.
  induction 1 as [|[k fs] d Hk Hd IH]; cbn [dict_append].
  - repeat constructor. discriminate.
  - destruct (String.eqb k key); constructor; cbn [snd] in *; try assumption.
    intros Happ. apply app_eq_nil in Happ as [_ ?]. discriminate.
Qed.

Lemma group_folders_spec folders : forall d,
  NoDup d.*1 -> Forall (fun x => x.2 <> []) d ->
  NoDup (group_folders folders d).*1 /\
  Forall (fun x => x.2 <> []) (group_folders folders d) /\
  forall wl, group_of (group_folders folders d) wl =
    group_of d wl ++ filter (fun f => wavelength_of f = Some wl) folders.
Proof.
  induction folders as [|f folders IH]; intros d Hnd Hne; cbn [group_folders].
  - repeat split; try assumption. intros wl. now rewrite app_nil_r.
  - assert (Hw : wavelength_of f =
              if (3 <=? length (Py.split "_" f))%nat
              then Some (nth 2 (Py.split "_" f) "") else None) by reflexivity.
    destruct (3 <=? length (Py.split "_" f))%nat.
    + destruct (IH (dict_append d (nth 2 (Py.split "_" f) "") f))
        as (Hnd' & Hne' & Hgrp);
        [now apply dict_append_NoDup | now apply dict_append_nonempty |].
      repeat split; try assumption.
      intros wl. rewrite Hgrp, dict_append_group_of, filter_cons, Hw.
      destruct (String.eqb_spec (nth 2 (Py.split "_" f) "") wl) as [-> | Hneq].
      * rewrite decide_True by reflexivity. now rewrite <- app_assoc.
      * rewrite decide_False by congruence. now rewrite app_nil_r.
    + destruct (IH d Hnd Hne) as (Hnd' & Hne' & Hgrp).
      repeat split; try assumption.
      intros wl. rewrite Hgrp, filter_cons, Hw.
      rewrite decide_False by discriminate. reflexivity.
Qed.

(** X10. The grouping of batch mode: the wavelengths are listed once
    each, every group is non-empty, and the group of a wavelength holds,
    in their order, exactly the folders whose name has that wavelength as
    its third part between underscores; folders whose name has fewer than
    three parts are in no group. *)
Theorem group_folders_partition (folders : list string) :
  NoDup (group_folders folders []).*1 /\
  Forall (fun x => x.2 <> []) (group_folders folders []) /\
  forall wl, group_of (group_folders folders []) wl =
    filter (fun f => wavelength_of f = Some wl) folders.
Proof.
  destruct (group_folders_spec folders []) as (Hnd & Hne & Hgrp);
    [constructor | constructor |].
  split; [assumption|]. split; [assumption|]. intros wl. apply Hgrp.
Qed.

Section Generic.
Context {T : Type} `{Elem T}.

(** The inner loop on folders that load with the accumulator's shape. *)
Lemma combine_group_result (disk : string -> option (ndarray T * string))
    folders : forall loads c meta,
  Forall2 (fun f x => disk f = Some x) folders loads ->
  Forall (fun x => shape x.1 = shape c) loads ->
  combine_group disk folders (Some c) (Some meta) =
    Ok (Some (sum_arrays c (map fst loads)), Some meta).
Proof.
  induction folders as [|f folders IH]; intros loads c meta Hload Hsh.
  - apply Forall2_nil_inv_l in Hload as ->. reflexivity.
  - apply Forall2_cons_inv_l in Hload as ([x m] & loads' & Hf & Hload & ->).
    apply Forall_cons in Hsh as [Hx Hsh]. cbn [fst] in Hx.
    cbn [combine_group]. rewrite Hf. rewrite decide_True by congruence.
    rewrite (IH loads'); [reflexivity | assumption | exact Hsh].
Qed.

(** One wavelength group whose folders all load with one shape: the
    combined cube is the cubes added one after the other in folder order,
    and it goes with the metadata of the first folder. *)
Lemma combine_group_first (disk : string -> option (ndarray T * string))
    (f0 : string) (rest : list string) (c0 : ndarray T) (m0 : string)
    (loads : list (ndarray T * string)) :
  disk f0 = Some (c0, m0) ->
  Forall2 (fun f x => disk f = Some x) rest loads ->
  Forall (fun x => shape x.1 = shape c0) loads ->
  combine_group disk (f0 :: rest) None None =
    Ok (Some (sum_arrays c0 (map fst loads)), Some m0).
Proof.
  intros Hf0 Hload Hsh. cbn [combine_group]. rewrite Hf0.
  now apply combine_group_result.
Qed.

End Generic.

End BatchFacts.

(** ** Cube aggregation: the files batch mode writes *)

Module BatchFilesFacts.
Import Cubes CubesFacts CubesResultFacts BatchFacts.

Lemma list_of_append (a b : string) :
  list_ascii_of_string (a +:+ b) =
  list_ascii_of_string a ++ list_ascii_of_string b.
Proof.
  induction a as [|c a IH]; [reflexivity|].
  simpl. f_equal. exact IH.
Qed.

Lemma list_of_string_inj (a b : string) :
  list_ascii_of_string a = list_ascii_of_string b -> a = b.
Proof.
  intros Heq. rewrite <- (string_of_list_ascii_of_string a),
    <- (string_of_list_ascii_of_string b). now rewrite Heq.
Qed.

Lemma append_cancel_l (p a b : string) : p +:+ a = p +:+ b -> a = b.
Proof. induction p as [|c p IH]; cbn; intros Heq; [assumption|]. injection Heq. auto. Qed.

Lemma append_cancel_r (s a b : string) : a +:+ s = b +:+ s -> a = b.
Proof.
  intros Heq. apply (f_equal list_ascii_of_string) in Heq.
  rewrite !list_of_append in Heq. apply app_inv_tail in Heq.
  now apply list_of_string_inj.
Qed.

Lemma union_hdr_inj out proj date wl wl' :
  union_hdr out proj date wl = union_hdr out proj date wl' -> wl = wl'.
Proof.
  unfold union_hdr, Ledger.path_join. intros Heq.
  do 6 apply append_cancel_l in Heq. now apply append_cancel_r in Heq.
Qed.

Lemma combined_png_inj out proj date wl wl' :
  combined_png out proj date wl = combined_png out proj date wl' -> wl = wl'.
Proof.
  unfold combined_png, Ledger.path_join. intros Heq.
  do 6 apply append_cancel_l in Heq. now apply append_cancel_r in Heq.
Qed.

Lemma union_hdr_not_png out proj date wl wl' :
  union_hdr out proj date wl <> combined_png out proj date wl'.
Proof.
  unfold union_hdr, combined_png, Ledger.path_join. intros Heq.
  do 6 apply append_cancel_l in Heq.
  apply (f_equal (fun s => last (list_ascii_of_string s))) in Heq.
  rewrite !list_of_append in Heq.
  change (list_ascii_of_string "_union.hdr")
    with (list_ascii_of_string "_union.hd" ++ ["r"%char]) in Heq.
  change (list_ascii_of_string "_combined.png")
    with (list_ascii_of_string "_combined.pn" ++ ["g"%char]) in Heq.
  rewrite !app_assoc, !last_snoc in Heq. discriminate.
Qed.

Lemma union_img_inj out proj date wl wl' :
  union_img out proj date wl = union_img out proj date wl' -> wl = wl'.
Proof.
  unfold union_img, Ledger.path_join. intros Heq.
  do 6 apply append_cancel_l in Heq. now apply append_cancel_r in Heq.
Qed.

(** Names that end in different extensions differ. *)
Lemma extension_differs (a b ext ext' : string) :
  String.length ext = String.length ext' -> ext <> ext' ->
  a +:+ ext <> b +:+ ext'.
Proof.
  intros Hlen Hne Heq. apply Hne.
  apply (f_equal list_ascii_of_string) in Heq. rewrite !list_of_append in Heq.
  apply app_inj_2 in Heq as [_ Heq]; [now apply list_of_string_inj|].
  revert Hlen. clear. revert ext'.
  induction ext as [|c ext IH]; intros [|c' ext']; cbn; intros Hlen;
    try discriminate; [reflexivity|].
  f_equal. apply IH. now injection Hlen.
Qed.

Lemma append_assoc_ext (a b c : string) : a +:+ b +:+ c = (a +:+ b) +:+ c.
Proof.
  induction a as [|x a IH]; [reflexivity|].
  change (String x (a +:+ b +:+ c) = String x ((a +:+ b) +:+ c)). now rewrite IH.
Qed.

Lemma union_img_not_png out proj date wl wl' :
  union_img out proj date wl <> combined_png out proj date wl'.
Proof.
  unfold union_img, combined_png, Ledger.path_join. intros Heq.
  do 6 apply append_cancel_l in Heq.
  change "_union.img" with ("_union" +:+ ".img") in Heq.
  change "_combined.png" with ("_combined" +:+ ".png") in Heq.
  rewrite !append_assoc_ext in Heq.
  revert Heq. apply extension_differs; [reflexivity | discriminate].
Qed.

Lemma union_img_not_hdr out proj date wl wl' :
  union_img out proj date wl <> union_hdr out proj date wl'.
Proof.
  unfold union_img, union_hdr, Ledger.path_join. intros Heq.
  do 6 apply append_cancel_l in Heq.
  revert Heq. apply extension_differs; [reflexivity | discriminate].
Qed.

Section Generic.
Context {T : Type} `{Elem T}.

Lemma group_loads_combine (disk : string -> option (ndarray T * string))
    folders total meta :
  group_loads disk folders total meta ->
  combine_group disk folders None None = Ok (Some total, Some meta).
Proof.
  intros (f0 & rest & c0 & loads & -> & Hf0 & Hload & Hsh & ->).
  now apply combine_group_first.
Qed.

(** The loop over the groups when every group loads with one shape and
    has the bands of the preview. *)
Lemma combine_groups_result (disk : string -> option (ndarray T * string))
    out proj date groups : forall fl,
  NoDup groups.*1 ->
  Forall (fun g => exists total meta,
            group_loads disk g.2 total meta /\ (30 <= bands total)%nat) groups ->
  exists fl',
    combine_groups disk out proj date groups fl = (fl', None) /\
    (forall wl folders total meta,
       (wl, folders) ∈ groups -> group_loads disk folders total meta ->
       fl' !! union_hdr out proj date wl = Some (EnviImage total (Some meta)) /\
       fl' !! union_img out proj date wl = Some (EnviData total) /\
       fl' !! combined_png out proj date wl = Some (RgbImage total)) /\
    (forall p,
       (forall wl, wl ∈ groups.*1 ->
          p <> union_hdr out proj date wl /\ p <> union_img out proj date wl /\
          p <> combined_png out proj date wl) ->
       fl' !! p = fl !! p).
Proof.
  induction groups as [|[wl folders] groups IH]; intros fl Hnd Hall.
  - exists fl. split; [reflexivity|]. split; [|reflexivity].
    intros wl folders total meta Hin. inversion Hin.
  - cbn [fmap list_fmap fst] in Hnd. apply NoDup_cons in Hnd as [Hni Hnd].
    apply Forall_cons in Hall as [(total & meta & Hg & Hb) Hall]. cbn [snd] in Hg.
    cbn [combine_groups]. rewrite (group_loads_combine disk folders total meta Hg).
    rewrite save_rgb_ok by exact Hb. unfold save_image.
    set (fl1 := <[union_img out proj date wl := EnviData total]>
                  (<[union_hdr out proj date wl := EnviImage total (Some meta)]>
                     (<[combined_png out proj date wl := RgbImage total]> fl))).
    destruct (IH fl1 Hnd Hall) as (fl' & Hrun & Hfiles & Hframe).
    exists fl'. split; [exact Hrun|].
    assert (Hfree : forall wl', wl' ∈ groups.*1 -> wl <> wl')
      by (intros wl' Hin ->; contradiction).
    split.
    + intros wl' folders' total' meta' Hin Hg'.
      apply elem_of_cons in Hin as [Heq | Hin]; [|now apply (Hfiles wl' folders')].
      injection Heq as -> ->.
      pose proof (group_loads_combine disk folders total' meta' Hg') as Hc.
      rewrite (group_loads_combine disk folders total meta Hg) in Hc.
      injection Hc as <- <-.
      split; [|split].
      * rewrite Hframe.
        -- unfold fl1. rewrite lookup_insert_ne
             by apply union_img_not_hdr. apply lookup_insert_eq.
        -- intros wl' Hin'. split; [|split].
           ++ intros Heq. apply union_hdr_inj in Heq. exact (Hfree wl' Hin' Heq).
           ++ intros Heq. symmetry in Heq. exact (union_img_not_hdr _ _ _ _ _ Heq).
           ++ apply union_hdr_not_png.
      * rewrite Hframe; [apply lookup_insert_eq|].
        intros wl' Hin'. split; [|split].
        -- apply union_img_not_hdr.
        -- intros Heq. apply union_img_inj in Heq. exact (Hfree wl' Hin' Heq).
        -- apply union_img_not_png.
      * rewrite Hframe.
        -- unfold fl1.
           rewrite lookup_insert_ne
             by (intros Heq; exact (union_img_not_png _ _ _ _ _ Heq)).
           rewrite lookup_insert_ne by apply union_hdr_not_png.
           apply lookup_insert_eq.
        -- intros wl' Hin'. split; [|split].
           ++ intros Heq. symmetry in Heq. exact (union_hdr_not_png _ _ _ _ _ Heq).
           ++ intros Heq. symmetry in Heq. exact (union_img_not_png _ _ _ _ _ Heq).
           ++ intros Heq. apply combined_png_inj in Heq. exact (Hfree wl' Hin' Heq).
    + intros p Hp. rewrite Hframe.
      * destruct (Hp wl) as (Hp1 & Hp2 & Hp3); [cbn [fmap list_fmap fst]; left|].
        unfold fl1. now rewrite !lookup_insert_ne by congruence.
      * intros wl' Hin'. apply Hp. cbn [fmap list_fmap fst]. now right.
Qed.

(** X11. Batch mode on folders that, wavelength by wavelength, load with
    one shape of at least 30 bands: the call ends without an exception;
    for every wavelength the header file holds the cubes of its folders
    added one after the other, with the metadata of the first of these
    folders, the data file beside the header and the preview file hold the
    same cube; no path other than these three per wavelength is touched. *)
Theorem add_cubes_for_same_wavelength_writes
    (disk : string -> option (ndarray T * string))
    (out proj date : string) (folders : list string)
    (fl : gmap string (artifact T)) :
  Forall (fun g => exists total meta,
            group_loads disk g.2 total meta /\ (30 <= bands total)%nat)
    (group_folders folders []) ->
  let run := add_cubes_for_same_wavelength disk out proj date folders fl in
  run.2 = None /\
  (forall wl group total meta,
     (wl, group) ∈ group_folders folders [] -> group_loads disk group total meta ->
     run.1 !! union_hdr out proj date wl = Some (EnviImage total (Some meta)) /\
     run.1 !! union_img out proj date wl = Some (EnviData total) /\
     run.1 !! combined_png out proj date wl = Some (RgbImage total)) /\
  (forall p,
     (forall wl, wl ∈ (group_folders folders []).*1 ->
        p <> union_hdr out proj date wl /\ p <> union_img out proj date wl /\
        p <> combined_png out proj date wl) ->
     run.1 !! p = fl !! p).
Proof.
  intros Hall run. unfold run, add_cubes_for_same_wavelength.
  destruct (group_folders_spec folders []) as (Hnd & _ & _);
    [constructor | constructor |].
  destruct (combine_groups_result disk out proj date _ fl Hnd Hall)
    as (fl' & -> & Hfiles & Hframe).
  cbn [fst snd]. auto.
Qed.

End Generic.

(** The three example folders of 500 nm and 600 nm, each wavelength with
    cubes of one shape. *)
Lemma add_cubes_for_same_wavelength_writes_witness :
  let folders := ["p_0412_500_1"; "p_0412_600_1"; "p_0412_500_2"] in
  let run := add_cubes_for_same_wavelength example_disk "out" "p" "04-12"
               folders ∅ in
  run.2 = None /\
  (forall wl group total meta,
     (wl, group) ∈ group_folders folders [] ->
     group_loads example_disk group total meta ->
     run.1 !! union_hdr "out" "p" "04-12" wl = Some (EnviImage total (Some meta)) /\
     run.1 !! union_img "out" "p" "04-12" wl = Some (EnviData total) /\
     run.1 !! combined_png "out" "p" "04-12" wl = Some (RgbImage total)) /\
  (forall p,
     (forall wl, wl ∈ (group_folders folders []).*1 ->
        p <> union_hdr "out" "p" "04-12" wl /\
        p <> union_img "out" "p" "04-12" wl /\
        p <> combined_png "out" "p" "04-12" wl) ->
     run.1 !! p = (∅ : gmap string (artifact PrimFloat.float)) !! p).
Proof.
  intros folders.
  apply (add_cubes_for_same_wavelength_writes example_disk "out" "p" "04-12"
           folders ∅).
  apply Forall_cons; split.
  - exists (sum_arrays (flat_cube 1 1 30 1) (map fst [(flat_cube 1 1 30 2, "meta_b")])),
      "meta_a".
    split; [|vm_compute; lia].
    exists "p_0412_500_1", ["p_0412_500_2"], (flat_cube 1 1 30 1),
      [(flat_cube 1 1 30 2, "meta_b")].
    repeat split; try reflexivity; repeat constructor.
  - apply Forall_cons; split; [|apply Forall_nil_2].
    exists (sum_arrays (flat_cube 2 1 30 4) []), "meta_c".
    split; [|vm_compute; lia].
    exists "p_0412_600_1", [], (flat_cube 2 1 30 4), [].
    repeat split; try reflexivity; repeat constructor.
Defined.

End BatchFilesFacts.

(** ** The selection of loaded cubes *)

Module SelectionFacts.
Import Cubes CubesFacts CubesResultFacts.

Lemma elem_of_remove_first (index j : nat) l :
  j <> index -> j ∈ remove_first index l <-> j ∈ l.
Proof.
  intros Hne. induction l as [|y l IH]; cbn [remove_first]; [reflexivity|].
  destruct (decide (y = index)) as [->|Hy].
  - rewrite elem_of_cons. intuition congruence.
  - rewrite !elem_of_cons, IH. reflexivity.
Qed.

Lemma remove_first_NoDup (index : nat) l :
  NoDup l -> NoDup (remove_first index l) /\ index ∉ remove_first index l.
Proof.
  induction 1 as [|y l Hy Hnd [IH1 IH2]]; cbn [remove_first].
  - split; [constructor | apply not_elem_of_nil].
  - destruct (decide (y = index)) as [->|Hne]; [now split|].
    split.
    + constructor; [|exact IH1].
      rewrite elem_of_remove_first by assumption. exact Hy.
    + apply not_elem_of_cons. split; [congruence | exact IH2].
Qed.

Section Generic.
Context {T : Type} `{Elem T}.

Lemma buttons_spec (selected : list nat) :
  match selected with [] => false | _ :: _ => true end = true <-> selected <> [].
Proof. destruct selected; split; intros; congruence. Qed.

(** X12. Ticking or unticking a checkbox, on a selection without
    repetitions: afterwards the position is selected exactly when the box
    is ticked, every other position is selected exactly as before, the
    selection still has no repetitions, the buttons are enabled exactly
    when it is not empty, and the cubes and files stay as they were. *)
Theorem toggle_image_selection_sets_membership (index : nat) (var : bool)
    (st : cstate T) :
  NoDup (selected_images st) ->
  let st' := (toggle_image_selection index var st).1 in
  NoDup (selected_images st') /\
  (index ∈ selected_images st' <-> var = true) /\
  (forall j, j <> index -> j ∈ selected_images st' <-> j ∈ selected_images st) /\
  ((toggle_image_selection index var st).2 = true <-> selected_images st' <> []) /\
  loaded_cubes st' = loaded_cubes st /\ files st' = files st.
Proof.
  intros Hnd st'. subst st'. unfold toggle_image_selection.
  cbn [fst snd with_selection selected_images loaded_cubes files].
  split; [|split; [|split; [|split; [apply buttons_spec | split; reflexivity]]]].
  - destruct var, (decide (index ∈ selected_images st)) as [Hin|Hni];
      try assumption.
    + apply NoDup_app. split; [assumption|]. split; [|apply NoDup_singleton].
      intros x Hx ->%list_elem_of_singleton. contradiction.
    + now apply remove_first_NoDup.
  - destruct var, (decide (index ∈ selected_images st)) as [Hin|Hni].
    + tauto.
    + rewrite elem_of_app, list_elem_of_singleton. tauto.
    + pose proof (remove_first_NoDup index _ Hnd) as [_ Hout].
      split; [contradiction | discriminate].
    + split; [contradiction | discriminate].
  - intros j Hj.
    destruct var, (decide (index ∈ selected_images st)) as [Hin|Hni];
      try reflexivity.
    + rewrite elem_of_app, list_elem_of_singleton. tauto.
    + now apply elem_of_remove_first.
Qed.

(** *** Enumerations *)

Lemma elem_of_enumerate_from (loaded : list (loaded_cube T)) : forall idx j e,
  (j, e) ∈ enumerate_from idx loaded <->
  (idx <= j)%nat /\ loaded !! (j - idx)%nat = Some e.
Proof.
  induction loaded as [|x loaded IH]; intros idx j e; cbn [enumerate_from].
  - rewrite elem_of_nil, lookup_nil. intuition discriminate.
  - rewrite elem_of_cons, IH. split.
    + intros [Heq|[Hle Hl]].
      * injection Heq as -> ->. split; [lia|]. now rewrite Nat.sub_diag.
      * split; [lia|]. replace (j - idx)%nat with (S (j - S idx)) by lia.
        exact Hl.
    + intros [Hle Hl]. destruct (decide (j = idx)) as [->|Hne].
      * left. rewrite Nat.sub_diag in Hl. cbn in Hl. congruence.
      * right. split; [lia|].
        replace (j - idx)%nat with (S (j - S idx)) in Hl by lia. exact Hl.
Qed.

Lemma enumerate_from_sorted (P : nat * loaded_cube T -> Prop)
    `{forall x, Decision (P x)} (loaded : list (loaded_cube T)) : forall idx,
  StronglySorted lt (filter P (enumerate_from idx loaded)).*1 /\
  Forall (fun j => (idx <= j)%nat) (filter P (enumerate_from idx loaded)).*1.
Proof.
  induction loaded as [|x loaded IH]; intros idx; cbn [enumerate_from].
  - split; constructor.
  - destruct (IH (S idx)) as [IHs IHf].
    assert (Forall (fun j => (idx < j)%nat)
              (filter P (enumerate_from (S idx) loaded)).*1) as Hlt
      by (eapply Forall_impl; [exact IHf | intros; cbn in *; lia]).
    rewrite filter_cons. destruct (decide (P (idx, x))).
    + cbn [fmap list_fmap fst]. split.
      * constructor; assumption.
      * constructor; [lia|]. eapply Forall_impl; [exact Hlt | intros; cbn in *; lia].
    + split; [assumption|].
      eapply Forall_impl; [exact Hlt | intros; cbn in *; lia].
Qed.

Lemma enumerate_from_entries (P : loaded_cube T -> Prop)
    {HP : forall e, Decision (P e)}
    {HQ : forall x : nat * loaded_cube T, Decision (P x.2)}
    (loaded : list (loaded_cube T)) : forall idx,
  (filter (fun x => P x.2) (enumerate_from idx loaded)).*2 = filter P loaded.
Proof.
  induction loaded as [|x loaded IH]; intros idx; cbn [enumerate_from];
    [reflexivity|].
  rewrite !filter_cons.
  destruct (decide (P (idx, x).2)) as [Hx|Hx]; cbn [snd] in Hx.
  - rewrite (decide_True (P:=P x)) by assumption.
    cbn [fmap list_fmap snd]. now rewrite IH.
  - rewrite (decide_False (P:=P x)) by assumption. apply IH.
Qed.

Lemma entries_at_enumerate (loaded : list (loaded_cube T))
    (l : list (nat * loaded_cube T)) :
  Forall (fun x => loaded !! x.1 = Some x.2) l -> entries_at loaded l.*1 l.*2.
Proof.
  induction 1 as [|x l Hx _ IH]; [constructor|].
  cbn [fmap list_fmap]. constructor; assumption.
Qed.

Lemma select_loop_spec wavelength (loaded : list (loaded_cube T)) :
  forall idx selected,
  select_loop wavelength loaded idx selected =
  selected ++
    (filter (fun x => lc_wavelength x.2 = wavelength)
       (enumerate_from idx loaded)).*1.
Proof.
  induction loaded as [|x loaded IH]; intros idx selected;
    cbn [select_loop enumerate_from].
  - now rewrite app_nil_r.
  - rewrite IH, filter_cons. cbn [snd].
    destruct (String.eqb_spec (lc_wavelength x) wavelength) as [He|He].
    + rewrite decide_True by assumption. now rewrite <- app_assoc.
    + rewrite decide_False by assumption. reflexivity.
Qed.

Lemma display_loop_spec shown wavelengths
    (filtered : list (nat * loaded_cube T)) : forall selected,
  display_loop shown wavelengths filtered selected =
  selected ++
    (filter (fun x => shown (rgb_image x.2) = true /\
                      lc_wavelength x.2 ∈ wavelengths) filtered).*1.
Proof.
  induction filtered as [|[idx entry] filtered IH]; intros selected;
    cbn [display_loop].
  - now rewrite app_nil_r.
  - rewrite IH, filter_cons. cbn [snd].
    destruct (shown (rgb_image entry)) eqn:Hs.
    + destruct (decide (lc_wavelength entry ∈ wavelengths)) as [Hw|Hw].
      * rewrite decide_True by (split; [reflexivity | assumption]).
        now rewrite <- app_assoc.
      * rewrite decide_False by tauto. reflexivity.
    + rewrite decide_False by (intros [? _]; discriminate). reflexivity.
Qed.

Lemma elem_of_selected_wavelengths (loaded : list (loaded_cube T)) selected w :
  w ∈ selected_wavelengths loaded selected <->
  exists k e, k ∈ selected /\ loaded !! k = Some e /\ lc_wavelength e = w.
Proof.
  induction selected as [|i selected IH]; cbn [selected_wavelengths].
  - rewrite elem_of_nil. split; [tauto|].
    intros (k & e & Hk & _). now apply elem_of_nil in Hk.
  - destruct (loaded !! i) as [x|] eqn:Hi.
    + rewrite elem_of_cons, IH. split.
      * intros [->|(k & e & Hk & He & Hw)].
        -- exists i, x. split; [left | split; [assumption | reflexivity]].
        -- exists k, e. split; [now right | now split].
      * intros (k & e & Hk & He & Hw). apply elem_of_cons in Hk as [->|Hk].
        -- left. congruence.
        -- right. exists k, e. now repeat split.
    + rewrite IH. split.
      * intros (k & e & Hk & He & Hw). exists k, e. split; [now right | now split].
      * intros (k & e & Hk & He & Hw). apply elem_of_cons in Hk as [->|Hk];
          [congruence|]. exists k, e. now repeat split.
Qed.

Lemma select_by_wavelength_state wavelength (st : cstate T) :
  wavelength <> "Select Wavelength" ->
  let selected := select_loop wavelength (loaded_cubes st) 0 [] in
  (select_by_wavelength wavelength st).1 =
    (with_selection st selected,
     Some match selected with [] => false | _ :: _ => true end).
Proof.
  intros Hne selected. unfold select_by_wavelength.
  destruct (String.eqb_spec wavelength "Select Wavelength") as [|_];
    [contradiction|].
  fold selected. destruct selected; reflexivity.
Qed.

Lemma elem_of_filtered (P : nat * loaded_cube T -> Prop)
    `{forall x, Decision (P x)} (loaded : list (loaded_cube T)) j :
  j ∈ (filter P (enumerate_from 0 loaded)).*1 <->
  exists e, loaded !! j = Some e /\ P (j, e).
Proof.
  rewrite list_elem_of_fmap. split.
  - intros ([j' e] & -> & Hin). apply list_elem_of_filter in Hin as [HP Hin].
    apply elem_of_enumerate_from in Hin as [_ Hl]. rewrite Nat.sub_0_r in Hl.
    exists e. split; assumption.
  - intros (e & Hl & HP). exists (j, e). split; [reflexivity|].
    apply list_elem_of_filter. split; [exact HP|].
    apply elem_of_enumerate_from. rewrite Nat.sub_0_r. split; [lia | exact Hl].
Qed.

(** X13. Selecting by a wavelength other than the placeholder discards the
    previous selection and selects exactly the positions of the loaded
    cubes of that wavelength, in ascending order; the buttons are enabled
    exactly when there is such a cube; the cubes and files stay as they
    were. *)
Theorem select_by_wavelength_selects_class wavelength (st : cstate T) :
  wavelength <> "Select Wavelength" ->
  let st' := (select_by_wavelength wavelength st).1.1 in
  StronglySorted lt (selected_images st') /\
  (forall j, j ∈ selected_images st' <->
     exists e, loaded_cubes st !! j = Some e /\ lc_wavelength e = wavelength) /\
  ((select_by_wavelength wavelength st).1.2 = Some true <->
     exists j e, loaded_cubes st !! j = Some e /\ lc_wavelength e = wavelength) /\
  ((select_by_wavelength wavelength st).1.2 = Some true \/
   (select_by_wavelength wavelength st).1.2 = Some false) /\
  loaded_cubes st' = loaded_cubes st /\ files st' = files st.
Proof.
  intros Hne st'. subst st'. rewrite (select_by_wavelength_state _ _ Hne).
  cbn [fst snd with_selection selected_images loaded_cubes files].
  rewrite select_loop_spec, app_nil_l.
  pose proof (elem_of_filtered
                (fun x : nat * loaded_cube T => lc_wavelength x.2 = wavelength)
                (loaded_cubes st)) as Hmem. cbn [snd] in Hmem.
  split; [|split; [|split; [|split; [|split; reflexivity]]]].
  - apply enumerate_from_sorted.
  - exact Hmem.
  - destruct (filter _ _).*1 as [|j l] eqn:Hl.
    + split; [discriminate|]. intros (j & He). apply Hmem in He.
      now apply elem_of_nil in He.
    + split; [|reflexivity]. intros _. exists j. apply Hmem. left.
  - destruct (filter _ _).*1; [right | left]; reflexivity.
Qed.

(** X14. Filtering the display re-selects by wavelength: afterwards a
    position is selected exactly when its cube passes the filter, its
    preview image exists, and some cube selected before (at a valid
    position) has the same wavelength. The new selection is ascending; the
    buttons are enabled exactly when it is not empty. *)
Theorem filter_images_reselects_by_wavelength selected_wavelength
    (shown : string -> bool) (st : cstate T) :
  let st' := (filter_images selected_wavelength shown st).1 in
  StronglySorted lt (selected_images st') /\
  (forall j, j ∈ selected_images st' <->
     exists e, loaded_cubes st !! j = Some e /\
       (selected_wavelength = "No Filter" \/
        lc_wavelength e = selected_wavelength) /\
       shown (rgb_image e) = true /\
       exists k e', k ∈ selected_images st /\ loaded_cubes st !! k = Some e' /\
                    lc_wavelength e' = lc_wavelength e) /\
  ((filter_images selected_wavelength shown st).2 = true <->
     selected_images st' <> []) /\
  loaded_cubes st' = loaded_cubes st /\ files st' = files st.
Proof.
  intros st'. subst st'. unfold filter_images.
  cbn [fst snd with_selection selected_images loaded_cubes files].
  split; [|split; [|split; [apply buttons_spec | split; reflexivity]]].
  - rewrite display_loop_spec, app_nil_l. unfold filtered_cubes.
    destruct (String.eqb selected_wavelength "No Filter").
    + apply enumerate_from_sorted.
    + rewrite list_filter_filter. apply enumerate_from_sorted.
  - intros j. rewrite display_loop_spec, app_nil_l. unfold filtered_cubes.
    destruct (String.eqb_spec selected_wavelength "No Filter") as [Hf|Hf].
    + rewrite elem_of_filtered. cbn [snd]. split.
      * intros (e & Hl & Hs & Hw). exists e.
        apply elem_of_selected_wavelengths in Hw. tauto.
      * intros (e & Hl & _ & Hs & Hw). exists e.
        apply elem_of_selected_wavelengths in Hw. tauto.
    + rewrite list_filter_filter, elem_of_filtered. cbn [snd]. split.
      * intros (e & Hl & [Hs Hw] & He). exists e.
        apply elem_of_selected_wavelengths in Hw. tauto.
      * intros (e & Hl & [Hc|Hc] & Hs & Hw); [contradiction|]. exists e.
        apply elem_of_selected_wavelengths in Hw. tauto.
Qed.

(** X15. Selecting by wavelength and then summing or averaging, when the
    loaded cubes of the wavelength all have the shape of the first of
    them. With at least 30 bands the sum popup shows these cubes added in
    load order and the average popup the same cube divided by their
    number, both with the metadata of the first; with fewer bands both
    handlers end with the [IndexError] of the preview. *)
Theorem select_by_wavelength_then_combine wavelength (st : cstate T)
    (e0 : loaded_cube T) (entries : list (loaded_cube T)) :
  wavelength <> "Select Wavelength" ->
  filter (fun e => lc_wavelength e = wavelength) (loaded_cubes st) =
    e0 :: entries ->
  Forall (fun entry => shape (cube entry) = shape (cube e0)) entries ->
  let st' := (select_by_wavelength wavelength st).1.1 in
  let total := sum_arrays (cube e0) (map cube entries) in
  (sum_selected_cubes st').2 =
    (if decide (30 <= bands (cube e0))%nat then
       Popup (Ledger.path_join SAVED_IMAGES_DIRECTORY "summed_rgb_image.png")
         total (Some (metadata e0))
     else Raised IndexError) /\
  (average_selected_cubes st').2 =
    (if decide (30 <= bands (cube e0))%nat then
       Popup (Ledger.path_join SAVED_IMAGES_DIRECTORY "averaged_rgb_image.png")
         (div_array total (Z.of_nat (S (length entries)))) (Some (metadata e0))
     else Raised IndexError).
Proof.
  intros Hne Hfilter Hsh st' total. subst st'.
  rewrite (select_by_wavelength_state _ _ Hne). cbn [fst].
  rewrite select_loop_spec, app_nil_l.
  set (L := filter (fun x : nat * loaded_cube T => lc_wavelength x.2 = wavelength)
              (enumerate_from 0 (loaded_cubes st))).
  assert (L.*2 = e0 :: entries) as Hsnd.
  { unfold L.
    rewrite (enumerate_from_entries (fun e => lc_wavelength e = wavelength)).
    exact Hfilter. }
  assert (entries_at (loaded_cubes st) L.*1 L.*2) as Hent.
  { apply entries_at_enumerate. apply Forall_forall. intros [j e] Hin.
    apply list_elem_of_filter in Hin as [_ Hin].
    apply elem_of_enumerate_from in Hin as [_ Hl].
    now rewrite Nat.sub_0_r in Hl. }
  pose proof (proj1 (enumerate_from_sorted
                       (fun x : nat * loaded_cube T => lc_wavelength x.2 = wavelength)
                       (loaded_cubes st) 0%nat)) as Hsorted.
  fold L in Hsorted.
  rewrite Hsnd in Hent.
  destruct (L.*1) as [|i0 rest] eqn:HL1; [inversion Hent|].
  apply Forall2_cons in Hent as [He0 Hent].
  assert (i0 ∉ rest) as Hni.
  { apply StronglySorted_inv in Hsorted as [_ Hlt]. intros Hin.
    rewrite Forall_forall in Hlt. specialize (Hlt _ Hin). lia. }
  assert (length rest = length entries) as Hlen by (eapply Forall2_length; eauto).
  split.
  - unfold sum_selected_cubes.
    cbn [with_selection selected_images loaded_cubes files sum_loop].
    rewrite He0.
    rewrite (sum_loop_result rest entries (loaded_cubes st) i0 e0 _ He0 Hni Hent Hsh).
    cbn [mbind option_bind].
    rewrite list_lookup_insert_eq by (eapply lookup_lt_Some; eauto).
    cbn [set_cube cube]. rewrite save_rgb_cases.
    replace (bands (sum_arrays (cube e0) (map cube entries)))
      with (bands (cube e0)) by (unfold bands; now rewrite sum_arrays_shape).
    destruct (decide _); reflexivity.
  - unfold average_selected_cubes.
    cbn [with_selection selected_images loaded_cubes files average_loop].
    rewrite He0.
    rewrite (average_loop_result (loaded_cubes st) rest entries (cube e0) _ _
               Hent Hsh).
    replace (0 + 1 + Z.of_nat (length rest)) with (Z.of_nat (S (length entries)))
      by lia.
    destruct (Z.ltb_spec 0 (Z.of_nat (S (length entries)))); [|lia].
    rewrite save_rgb_cases.
    replace (bands (div_array (sum_arrays (cube e0) (map cube entries))
                      (Z.of_nat (S (length entries)))))
      with (bands (cube e0))
      by (unfold bands; cbn [div_array shape]; now rewrite sum_arrays_shape).
    destruct (decide _); reflexivity.
Qed.

End Generic.

(** The example store, cubes 0 and 2 ticked: unticking cube 2 leaves cube 0
    alone. *)
Lemma toggle_image_selection_sets_membership_witness :
  let st := example_state [0; 2]%nat in
  let st' := (toggle_image_selection 2 false st).1 in
  NoDup (selected_images st') /\
  (2%nat ∈ selected_images st' <-> false = true) /\
  (forall j, j <> 2%nat -> j ∈ selected_images st' <-> j ∈ selected_images st) /\
  ((toggle_image_selection 2 false st).2 = true <-> selected_images st' <> []) /\
  loaded_cubes st' = loaded_cubes st /\ files st' = files st.
Proof.
  intros st.
  apply (toggle_image_selection_sets_membership 2%nat false st).
  change (NoDup [0; 2]%nat). apply NoDup_cons. split.
  - intros Hin. apply list_elem_of_singleton in Hin. discriminate Hin.
  - apply NoDup_singleton.
Defined.

(** The example store: selecting 500 nm replaces the selection of the
    600 nm cube. *)
Lemma select_by_wavelength_selects_class_witness :
  let st := example_state [2]%nat in
  let st' := (select_by_wavelength "500" st).1.1 in
  StronglySorted lt (selected_images st') /\
  (forall j, j ∈ selected_images st' <->
     exists e, loaded_cubes st !! j = Some e /\ lc_wavelength e = "500") /\
  ((select_by_wavelength "500" st).1.2 = Some true <->
     exists j e, loaded_cubes st !! j = Some e /\ lc_wavelength e = "500") /\
  ((select_by_wavelength "500" st).1.2 = Some true \/
   (select_by_wavelength "500" st).1.2 = Some false) /\
  loaded_cubes st' = loaded_cubes st /\ files st' = files st.
Proof.
  intros st. apply (select_by_wavelength_selects_class "500" st). discriminate.
Defined.

(** The example store: the two 500 nm cubes have one shape. *)
Lemma select_by_wavelength_then_combine_witness :
  let st := example_state [2]%nat in
  let e0 := LoadedCube (flat_cube 1 1 30 1) "meta_a" "500" "1"
              "p_0412_500_1/rgb_image.png" in
  let e1 := LoadedCube (flat_cube 1 1 30 2) "meta_b" "500" "2"
              "p_0412_500_2/rgb_image.png" in
  let st' := (select_by_wavelength "500" st).1.1 in
  let total := sum_arrays (cube e0) (map cube [e1]) in
  (sum_selected_cubes st').2 =
    Popup (Ledger.path_join SAVED_IMAGES_DIRECTORY "summed_rgb_image.png")
      total (Some (metadata e0)) /\
  (average_selected_cubes st').2 =
    Popup (Ledger.path_join SAVED_IMAGES_DIRECTORY "averaged_rgb_image.png")
      (div_array total (Z.of_nat (S (length [e1])))) (Some (metadata e0)).
Proof.
  intros st e0 e1.
  apply (select_by_wavelength_then_combine "500" st e0 [e1]).
  - discriminate.
  - reflexivity.
  - apply Forall_cons. split; [reflexivity | apply Forall_nil_2].
Defined.

End SelectionFacts.

(** ** The ledger and the device commands of a whole run *)

Module RunFacts.
Import Ledger Sequencer LedgerFacts LoadFacts SequencerFacts LedgerEdgeFacts.

(** [log_upsert] on a table that holds a row for the index. *)
Lemma log_upsert_at E w path h l1 r l2 idx wl pic name raw st size :
  fs w !! path = Some (h :: l1 ++ r :: l2) ->
  Forall readable l1 -> Forall (fun r => row_index r <> Some idx) l1 ->
  row_index r = Some idx ->
  let c := Call (clock E (length (trace w))) idx wl pic name raw st size in
  let f1 := <[path := h :: l1 ++ call_row c :: l2]> (fs w) in
  log_upsert E w path idx wl pic name raw st size =
    Ok {| fs := f1; trace := trace w ++ [(EvLedgerWrite c, f1)] |}.
Proof.
  intros Hf Hrd Hne Hr c f1. unfold log_upsert. fold c.
  change (update_acquisition_log _ _ _ _ _ _ _ _ _ _) with (upsert (fs w) path c).
  rewrite (upsert_shape (fs w) path h l1 r l2 c Hf Hrd Hne Hr). reflexivity.
Qed.

Lemma device_commands_emit w ev :
  device_commands (emit w ev) =
  device_commands w ++ (if is_device_command ev then [ev] else []).
Proof.
  unfold device_commands, emit. cbn [trace].
  rewrite fmap_app, filter_app. cbn [fmap list_fmap fst].
  rewrite filter_cons, filter_nil. destruct (is_device_command ev).
  - rewrite decide_True by reflexivity. reflexivity.
  - rewrite decide_False by discriminate. reflexivity.
Qed.

Lemma device_commands_write f tr c f1 :
  device_commands {| fs := f; trace := tr ++ [(EvLedgerWrite c, f1)] |} =
  device_commands {| fs := f; trace := tr |}.
Proof.
  unfold device_commands. cbn [trace].
  rewrite fmap_app, filter_app. cbn [fmap list_fmap fst].
  rewrite filter_cons, filter_nil, decide_False by discriminate.
  apply app_nil_r.
Qed.

Lemma outcome_rows_readable E done stamps :
  Forall readable (map call_row (zip_with (outcome_call E) done stamps)).
Proof.
  apply Forall_forall. intros r Hr. apply list_elem_of_fmap in Hr as (c & -> & _).
  apply readable_call_row.
Qed.

Lemma c_index_outcome_call E e now : c_index (outcome_call E e now) = index e.
Proof. unfold outcome_call. destruct (truthy _); reflexivity. Qed.

Lemma outcome_rows_other E done stamps idx :
  Forall (fun d => index d <> idx) done ->
  Forall (fun r => row_index r <> Some idx)
    (map call_row (zip_with (outcome_call E) done stamps)).
Proof.
  intros Hd. revert stamps. induction Hd as [|d done Hne _ IH]; intros stamps;
    [constructor|].
  destruct stamps as [|now stamps]; [constructor|].
  cbn [zip_with map]. constructor; [|apply IH].
  rewrite row_index_call_row, c_index_outcome_call. congruence.
Qed.

Lemma indices_ordered (done todo : list log_entry) e :
  map index (done ++ e :: todo) =
    map Z.of_nat (seq 0 (length (done ++ e :: todo))) ->
  Forall (fun d => index d < index e) done /\
  Forall (fun t => index e < index t) todo.
Proof.
  intros Hidx.
  assert (index e = Z.of_nat (length done)) as He
    by (apply (index_lookup _ _ _ Hidx); now apply list_lookup_middle).
  split; apply Forall_forall; intros x Hx;
    apply list_elem_of_lookup in Hx as [i Hi].
  - pose proof (lookup_lt_Some _ _ _ Hi) as Hlt.
    rewrite (index_lookup _ i x Hidx); [lia|].
    now apply lookup_app_l_Some.
  - rewrite (index_lookup _ (length done + S i) x Hidx); [lia|].
    rewrite lookup_app_r by lia.
    replace (length done + S i - length done)%nat with (S i) by lia. exact Hi.
Qed.

Lemma first_declined_app E done todo :
  Forall (fun d => continues E (index d) = true) done ->
  first_declined E (done ++ todo) = first_declined E todo.
Proof.
  induction 1 as [|d done Hd _ IH]; [reflexivity|].
  cbn [app first_declined]. now rewrite Hd.
Qed.

Lemma final_rows_before E k done stamps :
  Forall (fun d => index d < k) done ->
  zip_with (final_call E (Some k)) done stamps =
  zip_with (outcome_call E) done stamps.
Proof.
  intros Hd. revert stamps. induction Hd as [|d done Hlt _ IH]; intros stamps;
    [reflexivity|].
  destruct stamps as [|now stamps]; [reflexivity|].
  cbn [zip_with final_call]. rewrite IH.
  destruct (Z.ltb_spec k (index d)); [lia | reflexivity].
Qed.

Lemma final_rows_after E k rest stamps :
  Forall (fun t => k < index t) rest ->
  zip_with (final_call E (Some k)) rest stamps = zip_with cancel_call rest stamps.
Proof.
  intros Hd. revert stamps. induction Hd as [|d done Hlt _ IH]; intros stamps;
    [reflexivity|].
  destruct stamps as [|now stamps]; [reflexivity|].
  cbn [zip_with final_call]. rewrite IH.
  destruct (Z.ltb_spec k (index d)); [reflexivity | lia].
Qed.

Lemma reached_after k (rest : list log_entry) :
  Forall (fun t => k < index t) rest -> filter (reached (Some k)) rest = [].
Proof.
  induction 1 as [|t rest Hlt _ IH]; [reflexivity|].
  rewrite filter_cons, IH. cbn [reached].
  destruct (Z.leb_spec (index t) k); [lia|].
  rewrite decide_False; [reflexivity | intros []].
Qed.

(** Cancelling rewrites the pending rows of the remaining steps in place
    and sends nothing to the devices. *)
Lemma cancel_remaining_shape E path (f0 : gmap string table) remaining :
  forall l1 w,
    fs w = <[path := header_row :: l1 ++ map (pending_row E) remaining]> f0 ->
    Forall readable l1 ->
    Forall (fun t => Forall (fun r => row_index r <> Some (index t)) l1)
      remaining ->
    NoDup (map index remaining) ->
    exists w' stamps,
      cancel_remaining E path w remaining = Ok w' /\
      length stamps = length remaining /\
      fs w' = <[path := header_row ::
                  l1 ++ map call_row (zip_with cancel_call remaining stamps)]> f0 /\
      device_commands w' = device_commands w.
Proof.
  induction remaining as [|t rest IH]; intros l1 w Hfs Hrd Hother Hnd.
  - exists w, []. repeat split; assumption.
  - apply Forall_cons in Hother as [Ht Hother].
    cbn [map] in Hnd. apply NoDup_cons in Hnd as [Hni Hnd].
    cbn [cancel_remaining].
    assert (fs w !! path =
            Some (header_row :: l1 ++ pending_row E t :: map (pending_row E) rest))
      as Hf by (rewrite Hfs; apply lookup_insert_eq).
    rewrite (log_upsert_at E w path header_row l1 (pending_row E t) _ _ _ _ _ _ _ _
               Hf Hrd Ht (row_index_pending_row E t)).
    cbn [mbind result_bind].
    set (now := clock E (length (trace w))).
    fold (cancel_call t now).
    match goal with |- context [cancel_remaining _ _ ?w1 rest] =>
      destruct (IH (l1 ++ [call_row (cancel_call t now)]) w1)
        as (w' & stamps & Hrun & Hlen & Hfs' & Hdev) end.
    + cbn [fs]. rewrite Hfs, insert_insert_eq, <- app_assoc. reflexivity.
    + apply Forall_app. split; [assumption|].
      apply Forall_cons. split; [apply readable_call_row | apply Forall_nil_2].
    + apply Forall_forall. intros t' Ht'. apply Forall_app. split.
      * rewrite Forall_forall in Hother. now apply Hother.
      * apply Forall_cons. split; [|apply Forall_nil_2].
        rewrite row_index_call_row. cbn [cancel_call c_index].
        intros Heq. injection Heq as Heq. apply Hni. rewrite Heq.
        apply list_elem_of_fmap. eauto.
    + exact Hnd.
    + exists w', (now :: stamps). split; [exact Hrun|].
      split; [cbn [length]; lia|]. split.
      * rewrite Hfs', <- app_assoc. reflexivity.
      * rewrite Hdev. apply device_commands_write.
Qed.

(** The driver loop from any point of a run: it rewrites the pending rows
    in place, one after the other, with the outcome of the step or, behind
    the step the operator stops at, with its cancellation; the devices get
    the two commands of every step up to that one. *)
Lemma drive_final E path (f0 : gmap string table) acquisition_log :
  map index acquisition_log = map Z.of_nat (seq 0 (length acquisition_log)) ->
  forall todo done stamps w,
    acquisition_log = done ++ todo -> length stamps = length done ->
    Forall (fun d => continues E (index d) = true) done ->
    fs w = <[path := header_row ::
               map call_row (zip_with (outcome_call E) done stamps) ++
               map (pending_row E) todo]> f0 ->
    let stop := first_declined E acquisition_log in
    exists w' stamps',
      drive E path acquisition_log w todo = Ok w' /\
      length stamps' = length acquisition_log /\
      fs w' = <[path := header_row ::
                  map call_row
                    (zip_with (final_call E stop) acquisition_log stamps')]> f0 /\
      device_commands w' =
        device_commands w ++ flat_map step_commands (filter (reached stop) todo).
Proof.
  intros Hidx. induction todo as [|e todo IH];
    intros done stamps w Hl Hlen Hdone Hfs stop; subst stop.
  - exists w, stamps. rewrite app_nil_r in Hl. subst done.
    rewrite <- (app_nil_r acquisition_log) at 3.
    rewrite (first_declined_app E _ [] Hdone).
    cbn [drive map flat_map first_declined final_call] in *.
    rewrite filter_nil. cbn [flat_map]. rewrite !app_nil_r in *.
    split; [reflexivity|]. split; [assumption|]. split; [assumption|reflexivity].
  - pose proof Hidx as Horder. rewrite Hl in Horder.
    apply indices_ordered in Horder as [Hbefore Hafter].
    assert (Forall (fun d => index d <> index e) done) as Hne
      by (eapply Forall_impl; [exact Hbefore | intros; cbn in *; lia]).
    cbn [drive].
    set (w1 := emit (emit w (EvGowave (index e) (wavelength e)))
                 (EvTrigger (index e))).
    set (l1 := map call_row (zip_with (outcome_call E) done stamps)) in *.
    assert (fs w1 !! path =
            Some (header_row :: l1 ++ pending_row E e :: map (pending_row E) todo))
      as Hf1 by (cbn [w1 emit fs]; rewrite Hfs; apply lookup_insert_eq).
    assert (device_commands w1 = device_commands w ++ step_commands e) as Hdev1.
    { unfold w1. rewrite !device_commands_emit. cbn [is_device_command].
      rewrite <- app_assoc. reflexivity. }
    assert (acquisition_log = (done ++ [e]) ++ todo) as Hl1
      by (rewrite <- app_assoc; exact Hl).
    set (now := clock E (length (trace w1))).
    assert (forall raw st size,
      let c := Call now (index e) (wavelength e) (pic_num e) (expected_name e)
                 raw st size in
      let f1 := <[path := header_row :: l1 ++ call_row c ::
                             map (pending_row E) todo]> (fs w1) in
      log_upsert E w1 path (index e) (wavelength e) (pic_num e)
        (expected_name e) raw st size =
        Ok {| fs := f1; trace := trace w1 ++ [(EvLedgerWrite c, f1)] |}) as Hup.
    { intros raw st size.
      apply (log_upsert_at E w1 path header_row l1 (pending_row E e)); try assumption.
      - apply outcome_rows_readable.
      - now apply outcome_rows_other.
      - apply row_index_pending_row. }
    assert (fs w1 = fs w) as Hfsw1 by reflexivity.
    destruct (continues E (index e)) eqn:He.
    + (* the loop goes on *)
      assert (forall w2 : world,
        fs w2 = <[path := header_row ::
                    l1 ++ call_row (outcome_call E e now) ::
                    map (pending_row E) todo]> f0 ->
        device_commands w2 = device_commands w1 ->
        exists w' stamps',
          drive E path acquisition_log w2 todo = Ok w' /\
          length stamps' = length acquisition_log /\
          fs w' = <[path := header_row ::
                      map call_row
                        (zip_with (final_call E (first_declined E acquisition_log))
                           acquisition_log stamps')]> f0 /\
          device_commands w' =
            device_commands w ++
            flat_map step_commands
              (filter (reached (first_declined E acquisition_log)) (e :: todo)))
        as Hnext.
      { intros w2 Hfs2 Hdev2.
        destruct (IH (done ++ [e]) (stamps ++ [now]) w2 Hl1) as
          (w' & stamps' & Hrun & Hlen' & Hfs' & Hdev').
        - rewrite !length_app. cbn [length]. lia.
        - apply Forall_app. split; [assumption|].
          apply Forall_cons. split; [exact He | apply Forall_nil_2].
        - rewrite Hfs2. f_equal. f_equal.
          rewrite zip_with_app by (symmetry; assumption). cbn [zip_with].
          rewrite map_app. cbn [map]. rewrite <- app_assoc. reflexivity.
        - exists w', stamps'. split; [exact Hrun|]. split; [exact Hlen'|].
          split; [exact Hfs'|].
          rewrite Hdev', Hdev2, Hdev1. rewrite filter_cons.
          assert (reached (first_declined E acquisition_log) e = true) as Hreach.
          { rewrite Hl, (first_declined_app E done _ Hdone).
            cbn [first_declined]. rewrite He.
            destruct (first_declined E todo) as [k|] eqn:Hk; [|reflexivity].
            cbn [reached]. apply Z.leb_le.
            clear -Hk Hafter. induction todo as [|t todo IHt]; [discriminate|].
            apply Forall_cons in Hafter as [Ht Hafter]. cbn [first_declined] in Hk.
            destruct (continues E (index t)); [now apply IHt|].
            injection Hk as <-. lia. }
          rewrite Hreach, decide_True by exact I. cbn [flat_map].
          rewrite <- !app_assoc. reflexivity. }
      unfold continues in He. unfold outcome_call in Hnext.
      destruct (truthy (watcher E (index e))) eqn:Htruthy.
      * rewrite Hup. cbn [mbind result_bind]. apply Hnext.
        -- cbn [fs]. rewrite Hfsw1, Hfs, insert_insert_eq. reflexivity.
        -- apply device_commands_write.
      * rewrite Hup. cbn [mbind result_bind]. cbn [orb] in He. rewrite He.
        apply Hnext.
        -- cbn [fs emit]. rewrite Hfsw1, Hfs, insert_insert_eq. reflexivity.
        -- rewrite device_commands_emit. cbn [is_device_command].
           rewrite app_nil_r. apply device_commands_write.
    + (* the operator stops the run *)
      assert (first_declined E acquisition_log = Some (index e)) as Hstop.
      { rewrite Hl, (first_declined_app E done _ Hdone).
        cbn [first_declined]. now rewrite He. }
      rewrite Hstop. unfold continues in He.
      apply orb_false_iff in He as [Htruthy Hop].
      rewrite Htruthy, Hup. cbn [mbind result_bind]. rewrite Hop.
      rewrite (slice_from_rest _ done todo e Hl (index_at _ _ _ _ Hidx Hl)).
      set (c := Call now (index e) (wavelength e) (pic_num e) (expected_name e)
                  "" status_timeout 0).
      match goal with |- context [cancel_remaining _ _ ?w2 todo] =>
        destruct (cancel_remaining_shape E path f0 todo (l1 ++ [call_row c]) w2)
          as (w' & stamps2 & Hrun & Hlen2 & Hfs' & Hdev') end.
      * cbn [fs emit]. rewrite Hfsw1, Hfs, insert_insert_eq, <- app_assoc.
        reflexivity.
      * apply Forall_app. split; [apply outcome_rows_readable|].
        apply Forall_cons. split; [apply readable_call_row | apply Forall_nil_2].
      * apply Forall_forall. intros t Ht. rewrite Forall_forall in Hafter.
        specialize (Hafter t Ht). apply Forall_app. split.
        -- apply outcome_rows_other.
           eapply Forall_impl; [exact Hbefore | intros; cbn in *; lia].
        -- apply Forall_cons. split; [|apply Forall_nil_2].
           rewrite row_index_call_row. cbn [c c_index]. intros Heq.
           injection Heq as Heq. lia.
      * pose proof (NoDup_of_nat_seq (length acquisition_log)) as Hnd.
        rewrite <- Hidx, Hl, map_app in Hnd. cbn [map] in Hnd.
        apply NoDup_app in Hnd as (_ & _ & Hnd).
        now apply NoDup_cons in Hnd as [_ Hnd].
      * exists w', (stamps ++ now :: stamps2). split; [exact Hrun|].
        split; [rewrite Hl, !length_app; cbn [length]; lia|]. split.
        -- rewrite Hfs'. f_equal. f_equal. rewrite Hl.
           rewrite zip_with_app by (symmetry; assumption). cbn [zip_with].
           rewrite (final_rows_before E (index e) done stamps Hbefore).
           rewrite (final_rows_after E (index e) todo stamps2 Hafter).
           rewrite map_app. cbn [map]. rewrite <- app_assoc. cbn [app].
           do 2 f_equal.
           cbn [final_call]. rewrite Z.ltb_irrefl. unfold outcome_call.
           rewrite Htruthy. reflexivity.
        -- rewrite Hdev', device_commands_emit. cbn [is_device_command].
           rewrite app_nil_r, device_commands_write.
           change (device_commands {| fs := _; trace := trace w1 |})
             with (device_commands w1).
           rewrite Hdev1.
           rewrite filter_cons, (reached_after _ _ Hafter). cbn [reached].
           rewrite Z.leb_refl, decide_True by exact I. cbn [flat_map].
           rewrite app_nil_r. reflexivity.
Qed.

Lemma expand_plan_path E plan f0 w l path :
  expand_plan E plan f0 = Ok (w, l, path) ->
  path = path_join (output_path E)
           ("acquisition_log_" +:+ project_name E +:+ "_" +:+ start_stamp E +:+
            ".csv").
Proof.
  unfold expand_plan, create_acquisition_log_file.
  destruct (build_plan E _ plan _) as [[[w1 l1] i1]|]; [|discriminate].
  cbn [mbind result_bind mret result_ret]. intros Heq. now injection Heq.
Qed.


(** The ledger a whole run leaves. *)
Lemma execute_commands_ledger E plan (f0 : gmap string table) :
  exists w log_path acquisition_log stamps,
    execute_commands E plan f0 = Ok (w, log_path) /\
    log_path = path_join (output_path E)
                 ("acquisition_log_" +:+ project_name E +:+ "_" +:+
                  start_stamp E +:+ ".csv") /\
    map (fun e => (wavelength e, pic_num e)) acquisition_log = plan_steps plan /\
    map index acquisition_log = map Z.of_nat (seq 0 (length acquisition_log)) /\
    length stamps = length acquisition_log /\
    fs w = <[log_path := header_row ::
               map call_row
                 (zip_with (final_call E (first_declined E acquisition_log))
                    acquisition_log stamps)]> f0.
Proof.
  destruct (expand_plan_spec E plan f0)
    as (w0 & l & path & Hexp & _ & _ & Hseq & Hsteps & _ & Hfs & _).
  destruct (drive_final E path f0 l Hseq l [] [] w0 eq_refl eq_refl
              (Forall_nil_2 _) Hfs)
    as (w' & stamps & Hrun & Hlen & Hfs' & _).
  exists (emit w' EvFinished), path, l, stamps.
  split; [|split; [|split; [|split; [|split]]]].
  - rewrite (execute_commands_unfold E plan f0 w0 l path Hexp), Hrun. reflexivity.
  - exact (expand_plan_path E plan f0 w0 l path Hexp).
  - exact Hsteps.
  - exact Hseq.
  - exact Hlen.
  - exact Hfs'.
Qed.


Lemma c_status_final_call E stop e now :
  c_status (final_call E stop e now) = c_status (final_call E stop e "").
Proof.
  unfold final_call, outcome_call, cancel_call.
  destruct stop as [k|]; [destruct (k <? index e)|];
    try destruct (truthy _); reflexivity.
Qed.

Lemma c_wavelength_final_call E stop e now :
  c_wavelength (final_call E stop e now) = wavelength e.
Proof.
  unfold final_call, outcome_call, cancel_call.
  destruct stop as [k|]; [destruct (k <? index e)|];
    try destruct (truthy _); reflexivity.
Qed.

Lemma counted_final_call E stop e now :
  counted (call_row (final_call E stop e now)) <->
  c_status (final_call E stop e "") <> status_completed.
Proof.
  rewrite <- (c_status_final_call E stop e now). unfold counted.
  change (row_status (call_row (final_call E stop e now)))
    with (Some (c_status (final_call E stop e now))).
  unfold final_call, outcome_call, cancel_call.
  destruct stop as [k|]; [destruct (k <? index e)|];
    try destruct (truthy _); cbn [c_status].
  all: split;
    [intros [_ Hi] Hs;
     first [discriminate Hs | vm_compute in Hi; discriminate Hi]
    |intros Hs;
     first [exfalso; apply Hs; reflexivity
           | split; [discriminate | reflexivity]]].
Qed.

Lemma filter_none {A} (P : A -> Prop) `{forall x, Decision (P x)} (l : list A) :
  (forall x, ~ P x) -> filter P l = [].
Proof.
  intros HP. induction l as [|x l IH]; [reflexivity|].
  rewrite filter_cons, decide_False by apply HP. exact IH.
Qed.

Lemma final_rows_filter E stop (P : row -> Prop) (Q : log_entry -> Prop)
    `{forall r, Decision (P r)} `{forall e, Decision (Q e)} l :
  (forall e now, P (call_row (final_call E stop e now)) <-> Q e) ->
  forall stamps, length stamps = length l ->
  length (filter P (map call_row (zip_with (final_call E stop) l stamps))) =
  length (filter Q l).
Proof.
  intros HPQ. induction l as [|e l IH]; intros stamps Hlen; [reflexivity|].
  destruct stamps as [|now stamps]; [discriminate|].
  cbn [zip_with map]. rewrite !filter_cons.
  cbn [length] in Hlen. injection Hlen as Hlen.
  destruct (decide (Q e)) as [Hq|Hq].
  - rewrite decide_True by (now apply HPQ). cbn [length]. now rewrite IH.
  - rewrite decide_False by (now rewrite HPQ). now apply IH.
Qed.

(** X17. After any run, loading its ledger lists exactly the steps the run
    left without a picture (timed out or cancelled): each wavelength
    once, with the number of such steps of that wavelength, and the message
    gives their total; when every step was completed the grid is empty and
    the message says so. *)
Theorem load_after_run_lists_unfinished E plan (f0 : gmap string table)
    (tree : list (option string * Z)) :
  exists w log_path acquisition_log d,
    execute_commands E plan f0 = Ok (w, log_path) /\
    map (fun e => (wavelength e, pic_num e)) acquisition_log = plan_steps plan /\
    map index acquisition_log = map Z.of_nat (seq 0 (length acquisition_log)) /\
    let missing :=
      unfinished E (first_declined E acquisition_log) acquisition_log in
    load_acquisition_from_csv (fs w) (Some log_path) tree =
      (d, if decide (d = []) then AllCompleted
          else LoadedIncomplete (Z.of_nat (length missing)) (length d)) /\
    NoDup d.*1 /\
    (forall wl, dict_count d (Some wl) =
       Z.of_nat (length (filter (fun e => wavelength e = wl) missing))) /\
    dict_count d None = 0.
Proof.
  destruct (execute_commands_ledger E plan f0)
    as (w & path & l & stamps & Hrun & Hpath & Hsteps & Hseq & Hlen & Hfs).
  set (stop := first_declined E l) in *.
  set (rows := map call_row (zip_with (final_call E stop) l stamps)) in *.
  destruct (count_rows_spec rows []) as (d & Hcount & Hnd & Hpos & Htot & Hcnt);
    [constructor | constructor |].
  exists w, path, l, d. split; [exact Hrun|]. split; [exact Hsteps|].
  split; [exact Hseq|]. cbv zeta.
  assert (forall wl : option string,
            length (filter (fun r => counted r /\ row_wavelength r = wl) rows) =
            length (filter (fun e => c_status (final_call E stop e "") <>
                                       status_completed /\
                                     Some (wavelength e) = wl) l)) as Hper.
  { intros wl. apply final_rows_filter; [|exact Hlen]. intros e now.
    rewrite counted_final_call.
    change (row_wavelength (call_row (final_call E stop e now)))
      with (Some (c_wavelength (final_call E stop e now))).
    rewrite c_wavelength_final_call. reflexivity. }
  split; [|split; [exact Hnd|split]].
  - unfold load_acquisition_from_csv.
    assert (path <> "") as Hne
      by (rewrite Hpath; unfold path_join; destruct (output_path E); discriminate).
    destruct path as [|a path]; [contradiction|].
    rewrite Hfs, lookup_insert_eq. cbn [count_incomplete]. fold rows.
    rewrite Hcount. destruct d as [|x d]; [reflexivity|].
    rewrite decide_False by discriminate. cbn [app]. do 2 f_equal.
    fold (dict_total (x :: d)). rewrite Htot. cbn [dict_total foldr].
    rewrite Z.add_0_l. f_equal. unfold unfinished.
    apply final_rows_filter; [|exact Hlen]. intros e now.
    apply counted_final_call.
  - intros wl. rewrite Hcnt, Hper. cbn [dict_count]. rewrite Z.add_0_l.
    f_equal. unfold unfinished. rewrite list_filter_filter.
    f_equal. apply list_filter_iff. intros e. cbn. split.
    + intros [Hs Hw]. injection Hw as Hw. tauto.
    + intros [Hw Hs]. split; [assumption | congruence].
  - rewrite Hcnt, Hper. cbn [dict_count]. rewrite Z.add_0_l.
    rewrite filter_none; [reflexivity|]. intros e [_ He]. discriminate He.
Qed.

End RunFacts.

(** ** The order of the actions of a run *)

Module OrderFacts.
Import Ledger Sequencer LedgerFacts LoadFacts SequencerFacts LedgerEdgeFacts RunFacts.

Lemma pending_rows_other E (todo : list log_entry) idx :
  Forall (fun t => index t <> idx) todo ->
  Forall (fun r => row_index r <> Some idx) (map (pending_row E) todo).
Proof.
  induction 1 as [|t todo Hne _ IH]; [constructor|].
  cbn [map]. constructor; [|exact IH].
  rewrite row_index_pending_row. congruence.
Qed.

(** A write over the row of a step, the rows around it belonging to other
    steps: the ledger then shows the written status for the step. *)
Lemma recorded_after_write (f : gmap string table) path h l1 l2 c :
  Forall (fun r => row_index r <> Some (c_index c)) l1 ->
  Forall (fun r => row_index r <> Some (c_index c)) l2 ->
  recorded_status (<[path := h :: l1 ++ call_row c :: l2]> f) path (c_index c) =
    Some (c_status c).
Proof.
  intros H1 H2.
  apply (recorded_status_single _ path (h :: l1 ++ call_row c :: l2));
    [apply lookup_insert_eq|].
  unfold records_for. cbn [tail].
  rewrite filter_app, filter_cons, row_index_call_row.
  rewrite decide_True by reflexivity.
  now rewrite (filter_index_none _ l1 H1), (filter_index_none _ l2 H2).
Qed.

(** Cancelling only writes to the ledger. *)
Lemma cancel_remaining_writes E path remaining : forall w w',
  cancel_remaining E path w remaining = Ok w' ->
  exists post, trace w' = trace w ++ post /\
    Forall (fun x => is_ledger_write x.1) post.
Proof.
  induction remaining as [|t rest IH]; intros w w' Hrun.
  - cbn [cancel_remaining] in Hrun. injection Hrun as <-.
    exists []. rewrite app_nil_r. split; [reflexivity | constructor].
  - cbn [cancel_remaining] in Hrun. unfold log_upsert in Hrun.
    destruct (update_acquisition_log _ _ _ _ _ _ _ _ _ _) as [f1|];
      cbn [mbind result_bind mret result_ret] in Hrun; [|discriminate].
    destruct (IH _ _ Hrun) as (post & Htr & Hpost).
    eexists (_ :: post). split.
    + rewrite Htr. cbn [emit trace]. rewrite <- app_assoc. reflexivity.
    + constructor; [eexists; reflexivity | exact Hpost].
Qed.

Lemma reached_first E (done todo : list log_entry) e :
  Forall (fun d => continues E (index d) = true) done ->
  Forall (fun t => index e < index t) todo ->
  reached (first_declined E (done ++ e :: todo)) e = true.
Proof.
  intros Hdone Hafter. rewrite (first_declined_app E done _ Hdone).
  cbn [first_declined]. destruct (continues E (index e)) eqn:He.
  - destruct (first_declined E todo) as [k|] eqn:Hk; [|reflexivity].
    cbn [reached]. apply Z.leb_le.
    clear -Hk Hafter. induction todo as [|t todo IHt]; [discriminate|].
    apply Forall_cons in Hafter as [Ht Hafter]. cbn [first_declined] in Hk.
    destruct (continues E (index t)); [now apply IHt|].
    injection Hk as <-. lia.
  - cbn [reached]. apply Z.leb_refl.
Qed.

(** The driver loop from any point of a run, action by action: every step
    it gets to contributes its two commands, the write of its outcome,
    which the ledger shows from then on, and its dialog if no file came;
    what follows the step the operator stops at are ledger writes. *)
Lemma drive_events E path (f0 : gmap string table) acquisition_log :
  map index acquisition_log = map Z.of_nat (seq 0 (length acquisition_log)) ->
  forall todo done stamps w,
    acquisition_log = done ++ todo -> length stamps = length done ->
    Forall (fun d => continues E (index d) = true) done ->
    fs w = <[path := header_row ::
               map call_row (zip_with (outcome_call E) done stamps) ++
               map (pending_row E) todo]> f0 ->
    let ran := filter (reached (first_declined E acquisition_log)) todo in
    exists w' stamps' part post,
      drive E path acquisition_log w todo = Ok w' /\
      length stamps' = length ran /\
      trace w' = trace w ++ part ++ post /\
      part.*1 = concat (zip_with (step_events E) ran stamps') /\
      Forall (write_recorded path) part /\
      Forall (fun x => is_ledger_write x.1) post.
Proof.
  intros Hidx. induction todo as [|e todo IH];
    intros done stamps w Hl Hlen Hdone Hfs ran; subst ran.
  - exists w, [], [], []. rewrite filter_nil, !app_nil_r.
    repeat split; constructor.
  - pose proof Hidx as Horder. rewrite Hl in Horder.
    apply indices_ordered in Horder as [Hbefore Hafter].
    assert (Forall (fun d => index d <> index e) done) as Hne
      by (eapply Forall_impl; [exact Hbefore | intros; cbn in *; lia]).
    assert (Forall (fun t => index t <> index e) todo) as Hne'
      by (eapply Forall_impl; [exact Hafter | intros; cbn in *; lia]).
    cbn [drive].
    set (w1 := emit (emit w (EvGowave (index e) (wavelength e)))
                 (EvTrigger (index e))).
    set (l1 := map call_row (zip_with (outcome_call E) done stamps)) in *.
    assert (fs w1 !! path =
            Some (header_row :: l1 ++ pending_row E e :: map (pending_row E) todo))
      as Hf1 by (cbn [w1 emit fs]; rewrite Hfs; apply lookup_insert_eq).
    assert (acquisition_log = (done ++ [e]) ++ todo) as Hl1
      by (rewrite <- app_assoc; exact Hl).
    set (now := clock E (length (trace w1))).
    assert (fs w1 = fs w) as Hfsw1 by reflexivity.
    set (c := outcome_call E e now).
    set (t1 := header_row :: l1 ++ call_row c :: map (pending_row E) todo).
    set (f1 := <[path := t1]> (fs w1)).
    assert (log_upsert E w1 path (index e) (wavelength e) (pic_num e)
              (expected_name e) (c_raw_filename c) (c_status c) (c_file_size c) =
            Ok {| fs := f1; trace := trace w1 ++ [(EvLedgerWrite c, f1)] |}) as Hup.
    { pose proof (log_upsert_at E w1 path header_row l1 (pending_row E e)
                    (map (pending_row E) todo) (index e) (wavelength e)
                    (pic_num e) (expected_name e) (c_raw_filename c)
                    (c_status c) (c_file_size c) Hf1
                    (outcome_rows_readable E done stamps)
                    (outcome_rows_other E done stamps (index e) Hne)
                    (row_index_pending_row E e)) as Hu.
      cbv zeta in Hu. rewrite Hu. unfold f1, t1, c, outcome_call, now.
      destruct (truthy (watcher E (index e))); reflexivity. }
    assert (write_recorded path (EvLedgerWrite c, f1)) as Hrec.
    { unfold write_recorded. cbn [fst snd]. unfold f1, t1.
      apply recorded_after_write; unfold c; rewrite c_index_outcome_call.
      - now apply outcome_rows_other.
      - now apply pending_rows_other. }
    assert (reached (first_declined E acquisition_log) e = true) as Hreach
      by (rewrite Hl; now apply reached_first).
    assert (f1 = <[path := header_row ::
                     map call_row
                       (zip_with (outcome_call E) (done ++ [e]) (stamps ++ [now])) ++
                     map (pending_row E) todo]> f0) as Hf1'.
    { unfold f1, t1. rewrite Hfsw1, Hfs, insert_insert_eq. f_equal. f_equal.
      rewrite zip_with_app by (symmetry; assumption). cbn [zip_with].
      rewrite map_app. cbn [map]. rewrite <- app_assoc. reflexivity. }
    assert (length (stamps ++ [now]) = length (done ++ [e])) as Hlen1
      by (rewrite !length_app; cbn [length]; lia).
    set (head3 := [(EvGowave (index e) (wavelength e), fs w);
                   (EvTrigger (index e), fs w); (EvLedgerWrite c, f1)]).
    assert (trace w1 ++ [(EvLedgerWrite c, f1)] = trace w ++ head3) as Htr3.
    { unfold w1, emit, head3. cbn [trace fs]. rewrite <- !app_assoc. reflexivity. }
    assert (Forall (write_recorded path) head3) as Hhead3.
    { unfold head3. apply Forall_cons; split; [exact I|].
      apply Forall_cons; split; [exact I|].
      apply Forall_cons; split; [exact Hrec | apply Forall_nil_2]. }
    rewrite filter_cons, Hreach, decide_True by exact I.
    destruct (truthy (watcher E (index e))) eqn:Htruthy.
    + (* a file arrived *)
      assert (c_status c = status_completed /\
              c_raw_filename c = default "" (watcher E (index e)) /\
              c_file_size c = getsize E (index e)) as (Hs & Hr & Hz)
        by (unfold c, outcome_call; rewrite Htruthy; repeat split).
      rewrite Hs, Hr, Hz in Hup. rewrite Hup. cbn [mbind result_bind].
      assert (Forall (fun d => continues E (index d) = true) (done ++ [e])) as Hdone1.
      { apply Forall_app. split; [assumption|].
        apply Forall_cons. split; [|apply Forall_nil_2].
        unfold continues. now rewrite Htruthy. }
      destruct (IH (done ++ [e]) (stamps ++ [now])
                  {| fs := f1; trace := trace w1 ++ [(EvLedgerWrite c, f1)] |}
                  Hl1 Hlen1 Hdone1 Hf1')
        as (w' & stamps' & part & post & Hrun & Hlen' & Htr & Hpart & Hwr & Hpost).
      exists w', (now :: stamps'), (head3 ++ part), post.
      split; [exact Hrun|]. split; [cbn [length]; now rewrite Hlen'|].
      split; [rewrite Htr; cbn [trace]; rewrite Htr3, <- !app_assoc; reflexivity|].
      split; [|split; [now apply Forall_app | exact Hpost]].
      rewrite fmap_app, Hpart. cbn [zip_with concat]. unfold step_events.
      rewrite Htruthy, app_nil_r. reflexivity.
    + (* no file *)
      assert (c_status c = status_timeout /\ c_raw_filename c = "" /\
              c_file_size c = 0) as (Hs & Hr & Hz)
        by (unfold c, outcome_call; rewrite Htruthy; repeat split).
      rewrite Hs, Hr, Hz in Hup. rewrite Hup. cbn [mbind result_bind].
      set (w2 := emit {| fs := f1; trace := trace w1 ++ [(EvLedgerWrite c, f1)] |}
                   (EvAsk (index e) (operator E (index e)))).
      assert (trace w2 = trace w ++ head3 ++
                [(EvAsk (index e) (operator E (index e)), f1)]) as Htr4.
      { unfold w2, emit. cbn [trace fs]. rewrite Htr3, <- app_assoc. reflexivity. }
      assert (Forall (write_recorded path)
                (head3 ++ [(EvAsk (index e) (operator E (index e)), f1)])) as Hhead4.
      { apply Forall_app. split; [exact Hhead3|].
        apply Forall_cons; split; [exact I | apply Forall_nil_2]. }
      assert ((head3 ++ [(EvAsk (index e) (operator E (index e)), f1)]).*1 =
              step_events E e now) as Hev4.
      { unfold head3, step_events. rewrite Htruthy. reflexivity. }
      destruct (operator E (index e)) eqn:Hop.
      * (* the operator goes on *)
        assert (Forall (fun d => continues E (index d) = true) (done ++ [e]))
          as Hdone1.
        { apply Forall_app. split; [assumption|].
          apply Forall_cons. split; [|apply Forall_nil_2].
          unfold continues. rewrite Hop. apply orb_true_r. }
        destruct (IH (done ++ [e]) (stamps ++ [now]) w2 Hl1 Hlen1 Hdone1 Hf1')
          as (w' & stamps' & part & post & Hrun & Hlen' & Htr & Hpart & Hwr & Hpost).
        exists w', (now :: stamps'),
          ((head3 ++ [(EvAsk (index e) true, f1)]) ++ part), post.
        split; [exact Hrun|]. split; [cbn [length]; now rewrite Hlen'|].
        split; [rewrite Htr, Htr4, <- !app_assoc; reflexivity|].
        split; [|split; [now apply Forall_app | exact Hpost]].
        rewrite fmap_app, Hpart, Hev4. reflexivity.
      * (* the operator stops the run *)
        rewrite (slice_from_rest _ done todo e Hl (index_at _ _ _ _ Hidx Hl)).
        assert (first_declined E acquisition_log = Some (index e)) as Hstop.
        { rewrite Hl, (first_declined_app E done _ Hdone).
          cbn [first_declined]. unfold continues. now rewrite Htruthy, Hop. }
        rewrite Hstop, (reached_after _ _ Hafter).
        destruct (cancel_remaining_shape E path f0 todo (l1 ++ [call_row c]) w2)
          as (w' & stamps2 & Hrun & _).
        -- cbn [w2 fs emit]. unfold f1, t1.
           rewrite Hfsw1, Hfs, insert_insert_eq, <- app_assoc. reflexivity.
        -- apply Forall_app. split; [apply outcome_rows_readable|].
           apply Forall_cons. split; [apply readable_call_row | apply Forall_nil_2].
        -- apply Forall_forall. intros t Ht. rewrite Forall_forall in Hafter.
           specialize (Hafter t Ht). apply Forall_app. split.
           ++ apply outcome_rows_other.
              eapply Forall_impl; [exact Hbefore | intros; cbn in *; lia].
           ++ apply Forall_cons. split; [|apply Forall_nil_2].
              rewrite row_index_call_row. unfold c.
              rewrite c_index_outcome_call. intros Heq.
              injection Heq as Heq. lia.
        -- pose proof (NoDup_of_nat_seq (length acquisition_log)) as Hnd.
           rewrite <- Hidx, Hl, map_app in Hnd. cbn [map] in Hnd.
           apply NoDup_app in Hnd as (_ & _ & Hnd).
           now apply NoDup_cons in Hnd as [_ Hnd].
        -- destruct (cancel_remaining_writes E path todo w2 w' Hrun)
             as (post & Htr & Hpost).
           exists w', [now], (head3 ++ [(EvAsk (index e) false, f1)]), post.
           split; [exact Hrun|]. split; [reflexivity|].
           split; [rewrite Htr, Htr4, <- !app_assoc; reflexivity|].
           split; [|split; [exact Hhead4 | exact Hpost]].
           rewrite Hev4. cbn [zip_with concat]. now rewrite app_nil_r.
Qed.

(** C9. Every run reaches its end, and its actions are, in this order:
    the writes of the pre-population; then, for every step the run gets to
    (all of them, or those up to the step at which the operator stops the
    run), the wavelength command, the trigger, the write of the step's
    outcome (completed, or timeout) and, only if no file arrived, the
    dialog; then ledger writes only, and the finished notice. At each
    outcome write the log file shows the step with the status written.
    Hence whenever the timeout dialog of a step is shown the log file
    already records that step as timed out, and whenever the wavelength
    command of a step is sent it already records every earlier step as
    completed or timed out. *)
Theorem outcome_recorded_before_decision E plan (f0 : gmap string table) :
  exists w log_path acquisition_log stamps pre part post,
    execute_commands E plan f0 = Ok (w, log_path) /\
    map (fun e => (wavelength e, pic_num e)) acquisition_log = plan_steps plan /\
    map index acquisition_log = map Z.of_nat (seq 0 (length acquisition_log)) /\
    let ran :=
      filter (reached (first_declined E acquisition_log)) acquisition_log in
    length stamps = length ran /\
    trace w = pre ++ part ++ post ++ [(EvFinished, fs w)] /\
    Forall (fun x => is_ledger_write x.1) pre /\
    part.*1 = concat (zip_with (step_events E) ran stamps) /\
    Forall (write_recorded log_path) part /\
    Forall (fun x => is_ledger_write x.1) post /\
    forall ev f, (ev, f) ∈ trace w ->
      (forall j answer, ev = EvAsk j answer ->
         recorded_status f log_path j = Some status_timeout) /\
      (forall j wl, ev = EvGowave j wl ->
         forall i, 0 <= i < j ->
           recorded_status f log_path i = Some status_completed \/
           recorded_status f log_path i = Some status_timeout).
Proof.
  destruct (expand_plan_spec E plan f0)
    as (w0 & l & path & Hexp & _ & _ & Hseq & Hsteps & _ & Hfs & Htr0).
  assert (Hf0 : fs w0 !! path = Some (header_row :: map (pending_row E) l))
    by (rewrite Hfs; apply lookup_insert_eq).
  destruct (drive_outcomes E path l Hseq l [] w0 _ eq_refl Hf0
              (pending_table_wf E l Hseq))
    as (w' & new & Hrun & Htr & Hnew); [cbn [length]; lia|].
  destruct (drive_events E path f0 l Hseq l [] [] w0 eq_refl eq_refl
              (Forall_nil_2 _) Hfs)
    as (w'' & stamps & part & post & Hrun' & Hlen & Htr' & Hpart & Hwr & Hpost).
  rewrite Hrun in Hrun'. injection Hrun' as <-.
  exists (emit w' EvFinished), path, l, stamps, (trace w0), part, post.
  split; [|split; [|split; [|split; [|split; [|split; [|split;
    [|split; [|split]]]]]]]].
  - rewrite (execute_commands_unfold E plan f0 w0 l path Hexp), Hrun. reflexivity.
  - exact Hsteps.
  - exact Hseq.
  - exact Hlen.
  - cbn [emit trace fs]. rewrite Htr', <- !app_assoc. reflexivity.
  - exact Htr0.
  - exact Hpart.
  - exact Hwr.
  - exact Hpost.
  - intros ev f Hin. cbn [emit trace] in Hin. rewrite Htr in Hin.
    assert (Hok : outcome_before_decision path (ev, f)).
    { apply elem_of_app in Hin as [Hin | Hin];
        [apply elem_of_app in Hin as [Hin | Hin]|].
      - rewrite Forall_forall in Htr0. destruct (Htr0 _ Hin) as [c Hc].
        cbn [fst] in Hc. subst ev. exact I.
      - rewrite Forall_forall in Hnew. exact (Hnew _ Hin).
      - apply list_elem_of_singleton in Hin. injection Hin as -> ->. exact I. }
    unfold outcome_before_decision in Hok. cbn [fst snd] in Hok.
    split; intros j x ->; exact Hok.
Qed.

End OrderFacts.

(** ** Naming and copying the folders of a run *)

Module FoldersFacts.
Import Ledger Folders BatchFilesFacts.

(** *** Folder names *)

Lemma append_empty_r (s : string) : s +:+ "" = s.
Proof.
  induction s as [|c s IH]; [reflexivity|].
  change (String c (s +:+ "") = String c s). now rewrite IH.
Qed.

Lemma append_assoc (a b c : string) : (a +:+ b) +:+ c = a +:+ (b +:+ c).
Proof.
  induction a as [|x a IH]; [reflexivity|].
  change (String x ((a +:+ b) +:+ c) = String x (a +:+ b +:+ c)). now rewrite IH.
Qed.

Lemma no_underscore_string_of_uint d :
  no_underscore (NilEmpty.string_of_uint d).
Proof.
  unfold no_underscore. induction d; simpl;
    [apply Forall_nil_2 | apply Forall_cons; split; [discriminate | assumption]..].
Qed.

Lemma no_underscore_str (z : Z) : no_underscore (Py.str z).
Proof.
  destruct z as [|p|p]; unfold Py.str.
  - apply Forall_cons. split; [discriminate | apply Forall_nil_2].
  - apply no_underscore_string_of_uint.
  - apply Forall_cons. split; [discriminate | apply no_underscore_string_of_uint].
Qed.

(** Splitting passes over a part without underscores. *)
Lemma split_go_part (a rest cur : string) :
  no_underscore a ->
  Py.split_go "_" (a +:+ rest) cur = Py.split_go "_" rest (cur +:+ a).
Proof.
  unfold no_underscore. revert cur.
  induction a as [|c a IH]; intros cur Ha.
  - now rewrite append_empty_r.
  - cbn [list_ascii_of_string] in Ha. apply Forall_cons in Ha as [Hc Ha].
    change (String c a +:+ rest) with (String c (a +:+ rest)).
    cbn [Py.split_go]. destruct (Ascii.eqb_spec c "_") as [->|_]; [contradiction|].
    rewrite IH by assumption. rewrite append_assoc. reflexivity.
Qed.

Lemma split_part (a rest : string) :
  no_underscore a ->
  Py.split "_" (a +:+ "_" +:+ rest) = a :: Py.split "_" rest.
Proof.
  intros Ha. unfold Py.split. rewrite split_go_part by assumption. reflexivity.
Qed.

Lemma split_last (a : string) : no_underscore a -> Py.split "_" a = [a].
Proof.
  intros Ha. unfold Py.split. rewrite <- (append_empty_r a) at 1.
  rewrite split_go_part by assumption. reflexivity.
Qed.

Lemma split_new_name project_name date_str wavelength i :
  no_underscore project_name -> no_underscore date_str ->
  no_underscore wavelength ->
  Py.split "_" (new_name project_name date_str wavelength i) =
  [project_name; date_str; wavelength; Py.str i].
Proof.
  intros Hp Hd Hw. unfold new_name.
  rewrite !split_part by assumption.
  rewrite split_last by apply no_underscore_str. reflexivity.
Qed.

(** X18. A folder name given by [rename_and_copy_folders] reads back as it
    was built when neither the project name, nor the date, nor the
    wavelength holds an underscore: [process_folder] loads the cube under
    the wavelength and the picture number of its step. *)
Theorem new_name_reads_back project_name date_str wavelength i :
  no_underscore project_name -> no_underscore date_str ->
  no_underscore wavelength ->
  folder_key (new_name project_name date_str wavelength i) =
    Some (wavelength, Py.str i).
Proof.
  intros Hp Hd Hw. unfold folder_key.
  rewrite split_new_name by assumption. reflexivity.
Qed.


(** *** Copying *)

(** The part behind the last underscore of a name decides the step. *)
Lemma last_part_inj (a a' d d' : string) :
  no_underscore d -> no_underscore d' ->
  a +:+ "_" +:+ d = a' +:+ "_" +:+ d' -> a = a' /\ d = d'.
Proof.
  unfold no_underscore. intros Hd Hd'. revert a'.
  induction a as [|c a IH]; intros [|c' a'] Heq.
  - split; [reflexivity|]. now injection Heq.
  - exfalso. change (String "_" d = String c' (a' +:+ "_" +:+ d')) in Heq.
    injection Heq as _ Heq. subst d. rewrite list_of_append in Hd.
    apply Forall_app in Hd as [_ Hd]. apply Forall_cons in Hd as [Hd _].
    now apply Hd.
  - exfalso. change (String c (a +:+ "_" +:+ d) = String "_" d') in Heq.
    injection Heq as _ Heq. subst d'. rewrite list_of_append in Hd'.
    apply Forall_app in Hd' as [_ Hd']. apply Forall_cons in Hd' as [Hd' _].
    now apply Hd'.
  - change (String c (a +:+ "_" +:+ d) = String c' (a' +:+ "_" +:+ d')) in Heq.
    injection Heq as -> Heq. destruct (IH _ Heq) as [-> ->]. now split.
Qed.

Lemma target_of_inj project_name output_path date_str (s s' : string * Z) :
  target_of project_name output_path date_str s =
  target_of project_name output_path date_str s' -> s = s'.
Proof.
  destruct s as [wl i], s' as [wl' i']. unfold target_of, new_name, path_join.
  cbn [fst snd]. intros Heq. do 6 apply append_cancel_l in Heq.
  apply last_part_inj in Heq as [-> Heq]; [|apply no_underscore_str..].
  apply PyFacts.str_inj in Heq. now subst.
Qed.

Section Generic.
Context {content : Type}.
Implicit Types disk : gmap string content.

Lemma copy_row_steps project_name output_path date_str wavelength folders pics :
  forall disk idx,
  copy_row project_name output_path date_str wavelength folders pics disk idx =
  copy_steps project_name output_path date_str folders
    (map (fun i => (wavelength, i)) pics) disk idx.
Proof.
  induction pics as [|i pics IH]; intros disk idx; [reflexivity|].
  cbn [copy_row map copy_steps]. destruct (folders !! idx); [|reflexivity].
  unfold target_of, source_of. cbn [fst snd].
  destruct (copytree _ _ _); [apply IH | reflexivity].
Qed.

Lemma copy_steps_app project_name output_path date_str folders steps1 steps2 :
  forall disk idx,
  copy_steps project_name output_path date_str folders (steps1 ++ steps2)
    disk idx =
  match copy_steps project_name output_path date_str folders steps1 disk idx with
  | (disk', Raise e) => (disk', Raise e)
  | (disk', Ok idx') =>
      copy_steps project_name output_path date_str folders steps2 disk' idx'
  end.
Proof.
  induction steps1 as [|s steps1 IH]; intros disk idx; [reflexivity|].
  cbn [app copy_steps]. destruct (folders !! idx); [|reflexivity].
  destruct (copytree _ _ _); [apply IH | reflexivity].
Qed.

Lemma copy_rows_steps project_name output_path date_str folders tree :
  forall disk idx,
  copy_rows project_name output_path date_str folders tree disk idx =
  copy_steps project_name output_path date_str folders
    (Sequencer.plan_steps tree) disk idx.
Proof.
  induction tree as [|[wl n] tree IH]; intros disk idx; [reflexivity|].
  cbn [copy_rows]. unfold Sequencer.plan_steps. cbn [flat_map fst snd].
  rewrite copy_steps_app, copy_row_steps.
  destruct (copy_steps _ _ _ _ _ disk idx) as [disk' [idx'|e]];
    [apply IH | reflexivity].
Qed.

(** The loop on steps with distinct, free target names whose folders
    exist. *)
Lemma copy_steps_ok project_name output_path date_str folders steps :
  forall disk idx,
  NoDup steps ->
  Forall (fun s => disk !! target_of project_name output_path date_str s = None)
    steps ->
  (forall k, (k < length steps)%nat ->
     exists f, folders !! (idx + k)%nat = Some f /\
               is_Some (disk !! source_of f)) ->
  exists disk',
    copy_steps project_name output_path date_str folders steps disk idx =
      (disk', Ok (idx + length steps)%nat) /\
    (forall k s f, steps !! k = Some s -> folders !! (idx + k)%nat = Some f ->
       disk' !! target_of project_name output_path date_str s =
       disk !! source_of f) /\
    (forall p, p ∉ map (target_of project_name output_path date_str) steps ->
       disk' !! p = disk !! p).
Proof.
  induction steps as [|s steps IH]; intros disk idx Hnd Hfree Hsrc.
  - exists disk. cbn [copy_steps length]. rewrite Nat.add_0_r.
    split; [reflexivity|]. split; [|reflexivity].
    intros k s f Hk. now rewrite lookup_nil in Hk.
  - apply NoDup_cons in Hnd as [Hni Hnd].
    apply Forall_cons in Hfree as [Hfree0 Hfree].
    destruct (Hsrc 0%nat) as (f0 & Hf0 & [c0 Hc0]); [cbn [length]; lia|].
    rewrite Nat.add_0_r in Hf0.
    cbn [copy_steps]. rewrite Hf0. unfold copytree. rewrite Hc0, Hfree0.
    set (t0 := target_of project_name output_path date_str s) in *.
    assert (forall p, is_Some (disk !! p) -> <[t0 := c0]> disk !! p = disk !! p)
      as Hkeep.
    { intros p [c Hp]. apply lookup_insert_ne. intros <-. congruence. }
    destruct (IH (<[t0 := c0]> disk) (S idx) Hnd) as (disk' & Hrun & Htgt & Hrest).
    + apply Forall_forall. intros s' Hs'. rewrite Forall_forall in Hfree.
      rewrite lookup_insert_ne; [now apply Hfree|].
      intros Heq. apply target_of_inj in Heq. subst s'. contradiction.
    + intros k Hk. destruct (Hsrc (S k)) as (f & Hf & Hc); [cbn [length]; lia|].
      exists f. replace (S idx + k)%nat with (idx + S k)%nat by lia.
      split; [exact Hf|]. now rewrite Hkeep.
    + exists disk'. split; [|split].
      * rewrite Hrun. cbn [length]. do 2 f_equal. lia.
      * intros k s' f Hk Hf. destruct k as [|k].
        -- cbn in Hk. injection Hk as <-. rewrite Nat.add_0_r, Hf0 in Hf.
           injection Hf as <-. rewrite Hrest.
           ++ rewrite lookup_insert_eq. now rewrite Hc0.
           ++ intros Hin. apply list_elem_of_fmap in Hin as (s' & Heq & Hin).
              apply target_of_inj in Heq. subst s'. contradiction.
        -- cbn in Hk. replace (idx + S k)%nat with (S idx + k)%nat in Hf by lia.
           rewrite (Htgt k s' f Hk Hf).
           destruct (Hsrc (S k)) as (f' & Hf' & Hc').
           { cbn [length]. apply lookup_lt_Some in Hk. lia. }
           replace (idx + S k)%nat with (S idx + k)%nat in Hf' by lia.
           rewrite Hf in Hf'. injection Hf' as <-. now apply Hkeep.
      * intros p Hp. cbn [map] in Hp. apply not_elem_of_cons in Hp as [Hp0 Hp].
        rewrite (Hrest p Hp). now apply lookup_insert_ne.
Qed.

(** X20. When no step occurs twice in the grid, no target folder exists
    yet and the first folders, one per step, exist in the saved-images
    directory, the call succeeds: the k-th folder is copied under the name
    of the k-th step, and every other path is as it was. *)
Theorem rename_and_copy_folders_copies project_name output_path date_str
    (tree : list (string * Z)) (folders : list string)
    (disk : gmap string content) :
  let steps := Sequencer.plan_steps tree in
  let target := target_of project_name output_path date_str in
  NoDup steps ->
  Forall (fun s => disk !! target s = None) steps ->
  (forall k, (k < length steps)%nat ->
     exists f, folders !! k = Some f /\ is_Some (disk !! source_of f)) ->
  exists disk',
    rename_and_copy_folders project_name output_path date_str tree folders disk =
      (disk', None) /\
    (forall k s f, steps !! k = Some s -> folders !! k = Some f ->
       disk' !! target s = disk !! source_of f) /\
    (forall p, p ∉ map target steps -> disk' !! p = disk !! p).
Proof.
  intros steps target Hnd Hfree Hsrc.
  destruct (copy_steps_ok project_name output_path date_str folders steps disk
              0%nat Hnd Hfree Hsrc) as (disk' & Hrun & Htgt & Hrest).
  exists disk'. unfold rename_and_copy_folders.
  rewrite copy_rows_steps. fold steps. rewrite Hrun.
  split; [reflexivity|]. split; assumption.
Qed.

(** X21. Saving the same run a second time under the same project name,
    output folder and date fails at the first step, since its target
    folder exists by then, and copies nothing. *)
Theorem rename_and_copy_folders_twice project_name output_path date_str
    (tree : list (string * Z)) (folders : list string)
    (disk : gmap string content) :
  let steps := Sequencer.plan_steps tree in
  let target := target_of project_name output_path date_str in
  steps <> [] -> NoDup steps ->
  Forall (fun s => disk !! target s = None) steps ->
  (forall k, (k < length steps)%nat ->
     exists f, folders !! k = Some f /\ is_Some (disk !! source_of f)) ->
  let disk' :=
    (rename_and_copy_folders project_name output_path date_str tree folders
       disk).1 in
  rename_and_copy_folders project_name output_path date_str tree folders disk' =
    (disk', Some OSError).
Proof.
  intros steps target Hne Hnd Hfree Hsrc disk'.
  destruct (copy_steps_ok project_name output_path date_str folders steps disk
              0%nat Hnd Hfree Hsrc) as (d & Hrun & Htgt & Hrest).
  assert (disk' = d) as ->.
  { unfold disk', rename_and_copy_folders.
    rewrite copy_rows_steps. fold steps. now rewrite Hrun. }
  unfold rename_and_copy_folders. rewrite copy_rows_steps. fold steps.
  destruct steps as [|s steps']; [contradiction|].
  destruct (Hsrc 0%nat) as (f0 & Hf0 & [c0 Hc0]); [cbn [length]; lia|].
  cbn [copy_steps]. rewrite Hf0. unfold copytree.
  assert (d !! source_of f0 = Some c0) as ->.
  { rewrite Hrest; [exact Hc0|]. intros Hin.
    apply list_elem_of_fmap in Hin as (s' & Heq & Hin).
    rewrite Forall_forall in Hfree. specialize (Hfree s' Hin).
    fold target in Heq. rewrite <- Heq in Hfree. congruence. }
  rewrite (Htgt 0%nat s f0 eq_refl Hf0), Hc0. reflexivity.
Qed.

End Generic.

Ltac no_underscores :=
  unfold no_underscore; cbn [list_ascii_of_string];
  repeat (apply Forall_cons; split; [discriminate|]); apply Forall_nil_2.

(** A project name, a date and a wavelength without underscores. *)
Lemma new_name_reads_back_witness :
  folder_key (new_name "proj" "04-12" "500" 2) = Some ("500", Py.str 2).
Proof. apply new_name_reads_back; no_underscores. Defined.


(** Three folders of the camera software and the plan of the examples. *)
Lemma rename_and_copy_folders_copies_witness :
  let tree := Sequencer.example_plan in
  let folders := ["f1"; "f2"; "f3"] in
  let disk : gmap string string :=
    {[ source_of "f1" := "cube 1"; source_of "f2" := "cube 2";
       source_of "f3" := "cube 3" ]} in
  let steps := Sequencer.plan_steps tree in
  let target := target_of "proj" "out" "04-12" in
  exists disk',
    rename_and_copy_folders "proj" "out" "04-12" tree folders disk =
      (disk', None) /\
    (forall k s f, steps !! k = Some s -> folders !! k = Some f ->
       disk' !! target s = disk !! source_of f) /\
    (forall p, p ∉ map target steps -> disk' !! p = disk !! p).
Proof.
  intros tree folders disk.
  apply (rename_and_copy_folders_copies "proj" "out" "04-12" tree folders disk).
  - apply (bool_decide_unpack _). vm_compute. exact I.
  - apply (bool_decide_unpack _). vm_compute. exact I.
  - intros k Hk. destruct k as [|[|[|k]]];
      [eexists; split; [reflexivity | eexists; reflexivity]..
      |vm_compute in Hk; lia].
Defined.

(** The same folders, saved twice. *)
Lemma rename_and_copy_folders_twice_witness :
  let tree := Sequencer.example_plan in
  let folders := ["f1"; "f2"; "f3"] in
  let disk : gmap string string :=
    {[ source_of "f1" := "cube 1"; source_of "f2" := "cube 2";
       source_of "f3" := "cube 3" ]} in
  let disk' :=
    (rename_and_copy_folders "proj" "out" "04-12" tree folders disk).1 in
  rename_and_copy_folders "proj" "out" "04-12" tree folders disk' =
    (disk', Some OSError).
Proof.
  intros tree folders disk.
  apply (rename_and_copy_folders_twice "proj" "out" "04-12" tree folders disk).
  - discriminate.
  - apply (bool_decide_unpack _). vm_compute. exact I.
  - apply (bool_decide_unpack _). vm_compute. exact I.
  - intros k Hk. destruct k as [|[|[|k]]];
      [eexists; split; [reflexivity | eexists; reflexivity]..
      |vm_compute in Hk; lia].
Defined.

End FoldersFacts.

Example py_int_examples :
  Py.int "42" = Some 42 /\ Py.int " -7 " = Some (-7) /\ Py.int "1_000" = Some 1000 /\
  Py.int "" = None /\ Py.int "Index" = None /\ Py.int "1__0" = None /\ Py.int "5_" = None /\
  Py.str 0 = "0" /\ Py.str (-15) = "-15" /\ Py.str 1234 = "1234".
Proof. repeat split; reflexivity. Qed.

Example py_string_examples :
  Py.endswith "cube_01.bin" ".bin" = true /\ Py.endswith "bin" ".bin" = false /\
  Py.endswith "a.bin.tmp" ".bin" = false /\
  Py.split "_" "proj_0412_500_2" = ["proj"; "0412"; "500"; "2"] /\
  Py.split "_" "" = [""].
Proof. repeat split; reflexivity. Qed.

Example upsert_twice_example :
  let fs0 : gmap string Ledger.table := {[ "log.csv" := [Ledger.header_row] ]} in
  (fs1 ← Ledger.update_acquisition_log "t0" fs0 "log.csv" 0 "500" 1 "p_500_1" "" "pending" 0;
   Ledger.update_acquisition_log "t1" fs1 "log.csv" 0 "500" 1 "p_500_1" "a.bin" "completed" 64)
  = Ok {[ "log.csv" :=
           [Ledger.header_row;
            ["0"; "500"; "1"; "p_500_1"; "a.bin"; "completed"; "t1"; "64"]] ]}.
Proof. vm_compute. reflexivity. Qed.

Example upsert_missing_file_example :
  Ledger.update_acquisition_log "t0" ∅ "log.csv" 0 "500" 1 "p_500_1" "" "pending" 0
  = Ok {[ "log.csv" := [] ]}.
Proof. vm_compute. reflexivity. Qed.

Example load_incomplete_example :
  let t := [Ledger.header_row;
            ["0"; "500"; "1"; "p_500_1"; "a.bin"; "completed"; "t4"; "64"];
            ["1"; "500"; "2"; "p_500_2"; ""; "pending"; "t1"; "0"];
            ["2"; "600"; "1"; "p_600_1"; ""; "timeout"; "t5"; "0"];
            ["3"; "500"; "3"; "p_500_3"; ""; "cancelled"; "t6"; "0"]] in
  Ledger.load_acquisition_from_csv {[ "log.csv" := t ]} (Some "log.csv")
    [(Some "700", 9)]
  = ([(Some "500", 2); (Some "600", 1)], Ledger.LoadedIncomplete 3 2).
Proof. vm_compute. reflexivity. Qed.

Example wait_for_new_file_examples :
  Watcher.wait_for_new_file Watcher.example_folder 0 10 = Some (Ok (Some "done.bin")) /\
  Watcher.wait_for_new_file Watcher.example_folder 0 4 = Some (Ok None) /\
  Watcher.wait_for_new_file Watcher.example_folder 5 60 = Some (Ok None).
Proof. repeat split; vm_compute; reflexivity. Qed.
